(** * Iterative solvers for the 1-D Poisson finite-difference system

    A shallow embedding of the notebook
    [python-lectures/10_linear_systems_iterative.ipynb]: the assembly of the
    tridiagonal system with Dirichlet rows (cells 2, 4 and 6) and the three
    solvers the notebook defines, [jacobi] (cell 8), [gauss_seidel]
    (cell 10) and [gradient] (cell 12).

    The two solvers that run, [jacobi] and [gauss_seidel], are embedded
    twice.

    - In exact arithmetic.  A numpy [float64] array is a [list R], a 2-D
      array is the list of its rows, and the operations are those of the
      real numbers: no rounding, no [inf], no [nan], and [eps+1 > eps] for
      every [eps].  This embedding carries the statements that rounding
      does not touch (which exception a call raises, what a call does when
      its loop is not entered, which entries of an array are copied or
      zero) and the run on the notebook's own system, which is followed
      with intervals.  The assembly and [gradient] are embedded in this way
      only.
    - In binary64, in the module [B64].  An array holds doubles, or int64
      values for the right-hand side; every operation is the IEEE 754 one
      and the comparison [tol>eps] is false when [tol] is NaN.  This
      embedding carries the statements about the values a sweep stores and
      about the count at which the loops stop, for every input.

    Common to both.
    - Python exceptions are values of [exn]; a computation returns a
      [result].  Indexing out of range raises [IndexError], operands of
      different shapes raise [ValueError], reading a local variable that has
      no value yet raises [UnboundLocalError].
    - A [while] loop is run with fuel; running out of fuel is the separate
      outcome [OutOfFuel], so a theorem that shows [OK] also shows that the
      loop left through its guard.
    - [print it, tol] is kept as the fields [printed_it] and [printed_tol]
      of the outcome, next to the returned value.
    - [numpy.linalg.solve] is a parameter of [gradient]; the number of
      points, 33 in the notebook, is a parameter of [assemble].

    The exact embedding gives back the three outputs the notebook records:
    [jacobi(A,f)] prints 10000 and a residual norm of 723.9965..
    ([jacobi_never_converges_on_poisson_system]), [gauss_seidel(A,f)]
    prints 2790 and a residual norm just below the tolerance
    ([gauss_seidel_on_poisson_system_count]), and both calls of [gradient]
    raise [UnboundLocalError] ([gradient_raises_unbound_local]). *)

From Stdlib Require Import Reals Lra Lia ZArith List Bool.
From Stdlib Require Floats Uint63.
Import ListNotations.

Open Scope R_scope.

(** ** Exceptions and results *)

Inductive exn : Type :=
| UnboundLocalError
| IndexError
| ValueError
| ZeroDivisionError.

Inductive result (T : Type) : Type :=
| OK (t : T)
| Raise (e : exn)
| OutOfFuel.

Arguments OK {T} t.
Arguments Raise {T} e.
Arguments OutOfFuel {T}.

Definition bind {S T : Type} (m : result S) (k : S -> result T) : result T :=
  match m with
  | OK s => k s
  | Raise e => Raise e
  | OutOfFuel => OutOfFuel
  end.

Notation "x <- m ;; k" := (bind m (fun x => k))
  (at level 61, m at next level, right associativity).

(** [for i in l: s = body(i, s)] *)
Fixpoint for_ {S : Type} (l : list nat) (body : nat -> S -> result S) (s : S)
  : result S :=
  match l with
  | [] => OK s
  | i :: l' => s' <- body i s ;; for_ l' body s'
  end.

(** [while cond(s): s = body(s)] *)
Fixpoint while_ {S : Type} (fuel : nat) (cond : S -> bool)
  (body : S -> result S) (s : S) : result S :=
  if cond s then
    match fuel with
    | O => OutOfFuel
    | S fuel' => s' <- body s ;; while_ fuel' cond body s'
    end
  else OK s.

(** ** Arrays *)

Definition vec : Type := list R.
Definition matrix : Type := list (list R).

(** [a > b] on floats, as a boolean. *)
Definition Rgtb (a b : R) : bool := if Rlt_dec b a then true else false.

(** [range(N)] *)
Definition range (N : nat) : list nat := seq 0 N.

Definition zeros_like (b : vec) : vec := map (fun _ => 0) b.
Definition ones_like (b : vec) : vec := map (fun _ => 1) b.

(** [v[i]] for an index [0 <= i]. *)
Definition getitem (v : vec) (i : nat) : result R :=
  match nth_error v i with
  | Some r => OK r
  | None => Raise IndexError
  end.

(** [A[i]], a row. *)
Definition getrow (A : matrix) (i : nat) : result vec :=
  match nth_error A i with
  | Some r => OK r
  | None => Raise IndexError
  end.

(** [A[i,j]] *)
Definition getitem2 (A : matrix) (i j : nat) : result R :=
  row <- getrow A i ;; getitem row j.

(** [v[lo:hi]]: a slice never raises, it is cut at the ends of [v]. *)
Definition slice (v : vec) (lo hi : nat) : vec := skipn lo (firstn hi v).

(** [A[i,lo:hi]] *)
Definition rowslice (A : matrix) (i lo hi : nat) : result vec :=
  row <- getrow A i ;; OK (slice row lo hi).

(** The list [l] with position [i] replaced; [l] itself out of range. *)
Fixpoint upd {T : Type} (l : list T) (i : nat) (v : T) : list T :=
  match l, i with
  | [], _ => []
  | _ :: t, O => v :: t
  | h :: t, S i' => h :: upd t i' v
  end.

(** [v[i] = r] *)
Definition setitem (v : vec) (i : nat) (r : R) : result vec :=
  if (i <? length v)%nat then OK (upd v i r) else Raise IndexError.

(** [dot(u, v)] of two 1-D arrays: the lengths must agree. *)
Fixpoint dot (u v : vec) : result R :=
  match u, v with
  | [], [] => OK 0
  | a :: u', b :: v' => s <- dot u' v' ;; OK (a * b + s)
  | _, _ => Raise ValueError
  end.

(** [dot(A, x)] of a 2-D and a 1-D array: every row against [x]. *)
Fixpoint matvec (A : matrix) (x : vec) : result vec :=
  match A with
  | [] => OK []
  | row :: A' => r <- dot row x ;; y <- matvec A' x ;; OK (r :: y)
  end.

Fixpoint zipsub (u v : vec) : vec :=
  match u, v with
  | a :: u', b :: v' => (a - b) :: zipsub u' v'
  | _, _ => []
  end.

(** [u - v] of two 1-D arrays: equal lengths, or one operand of length one
    is stretched over the other (numpy broadcasting). *)
Definition vsub (u v : vec) : result vec :=
  if (length u =? length v)%nat then OK (zipsub u v)
  else match u, v with
       | [a], _ => OK (map (fun b => a - b) v)
       | _, [b] => OK (map (fun a => a - b) u)
       | _, _ => Raise ValueError
       end.

(** [numpy.linalg.norm(v, 2)] *)
Definition sumsq (v : vec) : R := fold_right (fun r acc => r * r + acc) 0 v.
Definition norm2 (v : vec) : R := sqrt (sumsq v).

(** [b - dot(A, x)] *)
Definition residual (A : matrix) (b x : vec) : result vec :=
  Ax <- matvec A x ;; vsub b Ax.

(** ** The solvers *)

(** The local variables a solver loop works on. *)
Record locals : Type := mkLocals {
  l_it : Z;
  l_tol : R;
  l_x : vec;
  l_x_old : vec
}.

(** What a call leaves behind: the two printed numbers and the returned
    array. *)
Record outcome : Type := mkOutcome {
  printed_it : Z;
  printed_tol : R;
  returned : vec
}.

(** [it<nmax and tol>eps] *)
Definition guard (nmax : Z) (eps : R) (s : locals) : bool :=
  (l_it s <? nmax)%Z && Rgtb (l_tol s) eps.

(** Jacobi, cell 8.

<<
def jacobi(A,b,nmax=10000,eps=1e-10):
    N=len(A)
    x=zeros_like(b)
    x_old=ones_like(b)
    tol=eps+1
    it=0
    while(it<nmax and tol>eps):
        it+=1
        for i in range(N):
            x[i]=1./A[i,i]*(b[i]-dot(A[i,0:i],x_old[0:i]) - dot(A[i,i+1:N],x_old[i+1:N]))
    res= b-dot(A,x)
    tol=numpy.linalg.norm(res,2)

    x_old =x.copy()

    print it, tol
    return x
>> *)

(** The assignment to [x[i]] in the sweep of [jacobi]. *)
Definition jacobi_assign (A : matrix) (b : vec) (N : nat) (x_old : vec)
  (i : nat) (x : vec) : result vec :=
  aii <- getitem2 A i i ;;
  bi <- getitem b i ;;
  lo <- rowslice A i 0 i ;;
  d1 <- dot lo (slice x_old 0 i) ;;
  hi <- rowslice A i (i + 1) N ;;
  d2 <- dot hi (slice x_old (i + 1) N) ;;
  setitem x i (1 / aii * (bi - d1 - d2)).

(** The body of the [while] loop of [jacobi]: nothing but the counter and
    the sweep. *)
Definition jacobi_body (A : matrix) (b : vec) (N : nat) (s : locals)
  : result locals :=
  let it := (l_it s + 1)%Z in
  x <- for_ (range N) (jacobi_assign A b N (l_x_old s)) (l_x s) ;;
  OK (mkLocals it (l_tol s) x (l_x_old s)).

Definition jacobi (A : matrix) (b : vec) (nmax : Z) (eps : R)
  : result outcome :=
  let N := length A in
  let x := zeros_like b in
  let x_old := ones_like b in
  let tol := eps + 1 in
  let it := 0%Z in
  s <- while_ (Z.to_nat nmax) (guard nmax eps) (jacobi_body A b N)
         (mkLocals it tol x x_old) ;;
  res <- residual A b (l_x s) ;;
  let tol := norm2 res in
  let x_old := l_x s in
  OK (mkOutcome (l_it s) tol (l_x s)).

(** Gauss-Seidel, cell 10.

<<
def gauss_seidel(A,b,nmax=10000,eps=1e-10):
    N=len(A)
    x=zeros_like(b)
    x_old=ones_like(b)
    tol=eps+1
    it=0
    while(it<nmax and tol>eps):
        it+=1
        for i in range(N):
            x[i]=1./A[i,i]*(b[i]-dot(A[i,0:i],x[0:i]) - dot(A[i,i+1:N],x_old[i+1:N]))

        res= b-dot(A,x)
        tol=numpy.linalg.norm(res,2)

        x_old =x.copy()

    print it, tol
    return x
>> *)

Definition gauss_seidel_assign (A : matrix) (b : vec) (N : nat) (x_old : vec)
  (i : nat) (x : vec) : result vec :=
  aii <- getitem2 A i i ;;
  bi <- getitem b i ;;
  lo <- rowslice A i 0 i ;;
  d1 <- dot lo (slice x 0 i) ;;
  hi <- rowslice A i (i + 1) N ;;
  d2 <- dot hi (slice x_old (i + 1) N) ;;
  setitem x i (1 / aii * (bi - d1 - d2)).

Definition gauss_seidel_body (A : matrix) (b : vec) (N : nat) (s : locals)
  : result locals :=
  let it := (l_it s + 1)%Z in
  x <- for_ (range N) (gauss_seidel_assign A b N (l_x_old s)) (l_x s) ;;
  res <- residual A b x ;;
  let tol := norm2 res in
  let x_old := x in
  OK (mkLocals it tol x x_old).

Definition gauss_seidel (A : matrix) (b : vec) (nmax : Z) (eps : R)
  : result outcome :=
  let N := length A in
  let x := zeros_like b in
  let x_old := ones_like b in
  let tol := eps + 1 in
  let it := 0%Z in
  s <- while_ (Z.to_nat nmax) (guard nmax eps) (gauss_seidel_body A b N)
         (mkLocals it tol x x_old) ;;
  OK (mkOutcome (l_it s) (l_tol s) (l_x s)).

(** Gradient method, cell 12.

<<
def gradient(A,b,P,nmax=8000,eps=1e-10):
    n=len(A)
    z=zeros_like(b)
    tol=eps+1
    r=b-dot(A,x)
    it=0
    while(it<nmax and tol>eps):
        z=linalg.solve(P,r)
        alpha=dot(r,z)/(dot(z,dot(A,z)))
        x+=z*alpha
        r-=dot(A,z)*alpha
        tol=numpy.linalg.norm(r,2)
        it+=1
    print it, tol
>>

    [x] is assigned in the body ([x+=z*alpha]), so it is a local variable of
    [gradient]; it is not a parameter and no statement gives it a value
    before the first read.  A local variable is a slot that is empty until
    the first assignment, and a read of an empty slot raises
    [UnboundLocalError]. *)

Definition load {T : Type} (slot : option T) : result T :=
  match slot with
  | Some v => OK v
  | None => Raise UnboundLocalError
  end.

Record gradient_locals : Type := mkGradientLocals {
  g_it : Z;
  g_tol : R;
  g_x : option vec;
  g_r : vec;
  g_z : vec
}.

(** [gradient] has no [return]: a call that ends leaves the two printed
    numbers. *)
Record printout : Type := mkPrintout {
  shown_it : Z;
  shown_tol : R
}.

Definition gradient_guard (nmax : Z) (eps : R) (s : gradient_locals) : bool :=
  (g_it s <? nmax)%Z && Rgtb (g_tol s) eps.

Fixpoint zipadd (u v : vec) : vec :=
  match u, v with
  | a :: u', b :: v' => (a + b) :: zipadd u' v'
  | _, _ => []
  end.

(** [u += v] on 1-D arrays; [v] of length one is stretched over [u]. *)
Definition iadd (u v : vec) : result vec :=
  if (length u =? length v)%nat then OK (zipadd u v)
  else match v with
       | [b] => OK (map (fun a => a + b) u)
       | _ => Raise ValueError
       end.

(** [u -= v] *)
Definition isub (u v : vec) : result vec :=
  if (length u =? length v)%nat then OK (zipsub u v)
  else match v with
       | [b] => OK (map (fun a => a - b) u)
       | _ => Raise ValueError
       end.

(** [v*alpha] *)
Definition scale (v : vec) (alpha : R) : vec := map (fun a => a * alpha) v.

(** [identity(n)] *)
Definition identity (n : nat) : matrix :=
  map (fun i => map (fun j => if (i =? j)%nat then 1 else 0) (seq 0 n))
      (seq 0 n).

Section Gradient.

(** [numpy.linalg.solve], a routine of the library and not of the
    notebook. *)
Variable linalg_solve : matrix -> vec -> result vec.

Definition gradient_body (A P : matrix) (s : gradient_locals)
  : result gradient_locals :=
  z <- linalg_solve P (g_r s) ;;
  rz <- dot (g_r s) z ;;
  Az <- matvec A z ;;
  zAz <- dot z Az ;;
  let alpha := rz / zAz in
  x0 <- load (g_x s) ;;
  x <- iadd x0 (scale z alpha) ;;
  Az' <- matvec A z ;;
  r <- isub (g_r s) (scale Az' alpha) ;;
  let tol := norm2 r in
  let it := (g_it s + 1)%Z in
  OK (mkGradientLocals it tol (Some x) r z).

Definition gradient (A : matrix) (b : vec) (P : matrix) (nmax : Z) (eps : R)
  : result printout :=
  let n := length A in
  let z := zeros_like b in
  let tol := eps + 1 in
  let x : option vec := None in
  r <- (xv <- load x ;; residual A b xv) ;;
  let it := 0%Z in
  s <- while_ (Z.to_nat nmax) (gradient_guard nmax eps)
         (gradient_body A P) (mkGradientLocals it tol x r z) ;;
  OK (mkPrintout (g_it s) (g_tol s)).

End Gradient.

(** ** Assembly of the system, cells 2, 4 and 6

<<
n = 33
h = 1./(n-1)
x=linspace(0,1,n)

a = -ones((n-1,)) # Offdiagonal entries
b = 2*ones((n,)) # Diagonal entries
A = (diag(a, -1) + diag(b, 0) + diag(a, +1))
# Now we scale it to 1/h^2
A /= h**2

f =x*(1.-x)
# Imposing homogeneous BCs keeping A SPD
A[0,:] = 0
A[:,0] = 0
A[0,0] = 1.
A[:,-1] = 0
A[-1,:] = 0
A[-1,-1] = 1
f[0] = 0
f[-1] = 0
>> *)

(** A Python index [i] into a sequence of [len] items: negative indices
    count from the end. *)
Definition py_index (len : nat) (i : Z) : result nat :=
  if ((0 <=? i) && (i <? Z.of_nat len))%Z then OK (Z.to_nat i)
  else if ((i <? 0) && (- Z.of_nat len <=? i))%Z
       then OK (Z.to_nat (Z.of_nat len + i))
       else Raise IndexError.

(** [1./d] for a Python integer [d]. *)
Definition float_div_int (a : R) (d : Z) : result R :=
  if (d =? 0)%Z then Raise ZeroDivisionError else OK (a / IZR d).

(** [ones((k,))] *)
Definition ones (k : Z) : result vec :=
  if (k <? 0)%Z then Raise ValueError else OK (repeat 1 (Z.to_nat k)).

(** [linspace(start, stop, num)] *)
Definition linspace (start stop : R) (num : Z) : vec :=
  if (num <=? 0)%Z then []
  else if (num =? 1)%Z then [start]
  else
    let step := (stop - start) / IZR (num - 1) in
    map (fun i => IZR (Z.of_nat i) * step + start) (seq 0 (Z.to_nat num)).

(** [diag(v, k)]: the square matrix with [v] on its [k]-th diagonal. *)
Definition diag (v : vec) (k : Z) : matrix :=
  let n := (length v + Z.abs_nat k)%nat in
  map (fun i =>
         map (fun j =>
                if (Z.of_nat j - Z.of_nat i =? k)%Z
                then nth (Nat.min i j) v 0 else 0)
             (seq 0 n))
      (seq 0 n).

Fixpoint zipwith {T : Type} (op : T -> T -> T) (u v : list T) : list T :=
  match u, v with
  | a :: u', b :: v' => op a b :: zipwith op u' v'
  | _, _ => []
  end.

(** [A + B] for two matrices of one shape. *)
Definition madd (A B : matrix) : matrix := zipwith (zipwith Rplus) A B.

(** [A /= c] *)
Definition mdiv (A : matrix) (c : R) : matrix :=
  map (map (fun a => a / c)) A.

(** The number of columns of a 2-D array. *)
Definition ncols (A : matrix) : nat :=
  match A with
  | [] => O
  | row :: _ => length row
  end.

(** [A[i,:] = c] *)
Definition setrow (A : matrix) (i : Z) (c : R) : result matrix :=
  i' <- py_index (length A) i ;;
  OK (upd A i' (map (fun _ => c) (nth i' A []))).

(** [A[:,j] = c] *)
Definition setcol (A : matrix) (j : Z) (c : R) : result matrix :=
  j' <- py_index (ncols A) j ;;
  OK (map (fun row => upd row j' c) A).

(** [A[i,j] = c] *)
Definition setitem2 (A : matrix) (i j : Z) (c : R) : result matrix :=
  i' <- py_index (length A) i ;;
  j' <- py_index (ncols A) j ;;
  OK (upd A i' (upd (nth i' A []) j' c)).

(** [v[i] = c] with a Python index. *)
Definition setitem_py (v : vec) (i : Z) (c : R) : result vec :=
  i' <- py_index (length v) i ;;
  OK (upd v i' c).

(** The three cells as one function of the number of points. *)
Definition assemble (n : Z) : result (matrix * vec) :=
  h <- float_div_int 1 (n - 1) ;;
  let x := linspace 0 1 n in
  a1 <- ones (n - 1) ;;
  let a := map Ropp a1 in
  b1 <- ones n ;;
  let b := map (Rmult 2) b1 in
  let A := madd (madd (diag a (-1)) (diag b 0)) (diag a 1) in
  let A := mdiv A (h ^ 2) in
  let f := map (fun xi => xi * (1 - xi)) x in
  A <- setrow A 0 0 ;;
  A <- setcol A 0 0 ;;
  A <- setitem2 A 0 0 1 ;;
  A <- setcol A (-1) 0 ;;
  A <- setrow A (-1) 0 ;;
  A <- setitem2 A (-1) (-1) 1 ;;
  f <- setitem_py f 0 0 ;;
  f <- setitem_py f (-1) 0 ;;
  OK (A, f).

(** The notebook's own instance, [n = 33]. *)
Definition n_points : Z := 33.

Definition A33 : matrix :=
  match assemble n_points with
  | OK (A, _) => A
  | _ => []
  end.

Definition f33 : vec :=
  match assemble n_points with
  | OK (_, f) => f
  | _ => []
  end.

(** The default arguments. *)
Definition default_eps : R := 1 / 10 ^ 10.
Definition jacobi_nmax : Z := 10000.
Definition gauss_seidel_nmax : Z := 10000.
Definition gradient_nmax : Z := 8000.

(** ** Vocabulary of the statements *)

(** [A[i,j]] and [v[i]] as plain values, for indices in range. *)
Definition entry (A : matrix) (i j : nat) : R := nth j (nth i A []) 0.
Definition at_ (v : vec) (i : nat) : R := nth i v 0.

(** The sum of [t j] over [lo <= j < hi]. *)
Definition sum_range (lo hi : nat) (t : nat -> R) : R :=
  fold_right Rplus 0 (map t (seq lo (hi - lo))).

(** The sum of [t j] over [j < N], [j <> i]. *)
Definition sum_except (i N : nat) (t : nat -> R) : R :=
  sum_range 0 N (fun j => if (j =? i)%nat then 0 else t j).

(** [A] is an [N] by [N] array and [b] has [N] entries. *)
Definition shaped (A : matrix) (b : vec) (N : nat) : Prop :=
  length A = N /\ (forall i, (i < N)%nat -> length (nth i A []) = N) /\
  length b = N.

(** The Jacobi formula of cell 7, one full sweep from the iterate [xk]:
    entry [i] is [(b_i - sum over j <> i of A_ij xk_j) / A_ii]. *)
Definition jacobi_step (A : matrix) (b xk : vec) : vec :=
  map (fun i =>
         (at_ b i - sum_except i (length A) (fun j => entry A i j * at_ xk j))
         / entry A i i)
      (seq 0 (length A)).

(** The value [jacobi] stores in [x[i]], as the code writes it. *)
Definition jacobi_value (A : matrix) (b : vec) (N : nat) (x_old : vec)
  (i : nat) : R :=
  1 / entry A i i *
  (at_ b i
   - sum_range 0 i (fun j => entry A i j * at_ x_old j)
   - sum_range (i + 1) N (fun j => entry A i j * at_ x_old j)).

(** The value [gauss_seidel] stores in [x[i]], as the code writes it. *)
Definition gauss_seidel_value (A : matrix) (b : vec) (N : nat) (x_old : vec)
  (i : nat) (x : vec) : R :=
  1 / entry A i i *
  (at_ b i
   - sum_range 0 i (fun j => entry A i j * at_ x j)
   - sum_range (i + 1) N (fun j => entry A i j * at_ x_old j)).

(** The state after [k] runs of a loop body. *)
Fixpoint iterate {S : Type} (k : nat) (body : S -> result S) (s : S)
  : result S :=
  match k with
  | O => OK s
  | S k' => s' <- iterate k' body s ;; body s'
  end.

(** The locals of [jacobi] and [gauss_seidel] on entry to the loop. *)
Definition initial (b : vec) (eps : R) : locals :=
  mkLocals 0 (eps + 1) (zeros_like b) (ones_like b).

(** What holds of the locals of [jacobi] after [j] runs of the loop body. *)
Definition jacobi_inv (A : matrix) (b : vec) (N : nat) (eps : R)
  (j : nat) (s : locals) : Prop :=
  l_it s = Z.of_nat j /\ l_tol s = eps + 1 /\ l_x_old s = ones_like b /\
  length (l_x s) = N /\
  (j = O -> l_x s = zeros_like b) /\
  ((1 <= j)%nat -> l_x s = jacobi_step A b (ones_like b)).

(** What holds of the locals of [gauss_seidel] after [j] runs of the loop
    body. *)
Definition gauss_seidel_inv (A : matrix) (b : vec) (N : nat) (eps : R)
  (j : nat) (s : locals) : Prop :=
  l_it s = Z.of_nat j /\ length (l_x s) = N /\ length (l_x_old s) = N /\
  (j = O -> s = initial b eps) /\
  ((1 <= j)%nat ->
   l_x_old s = l_x s /\
   exists res, residual A b (l_x s) = OK res /\ l_tol s = norm2 res).

(** The [k] by [k] array whose entry [(i,j)] is [F i j]. *)
Definition tab (k : nat) (F : nat -> nat -> R) : matrix :=
  map (fun i => map (F i) (seq 0 k)) (seq 0 k).

(** Entry [(i,j)] of the assembled matrix for [N] points of spacing [h]:
    identity rows and columns at both ends, the scaled second difference
    inside. *)
Definition poisson_entry (N : nat) (h : R) (i j : nat) : R :=
  if ((i =? 0) || (i =? N - 1) || (j =? 0) || (j =? N - 1))%nat
  then (if (i =? j)%nat then 1 else 0)
  else if (i =? j)%nat then 2 / h ^ 2
       else if ((i =? j + 1) || (j =? i + 1))%nat then - 1 / h ^ 2
            else 0.

(** Entry [i] of the assembled right-hand side: zero at both ends,
    [x_i (1 - x_i)] with [x_i = i h] inside. *)
Definition poisson_rhs (N : nat) (h : R) (i : nat) : R :=
  if ((i =? 0) || (i =? N - 1))%nat then 0
  else IZR (Z.of_nat i) * h * (1 - IZR (Z.of_nat i) * h).

(** Rows [0] and [N-1] of [A] are rows of the identity and [b] is zero
    there. *)
Definition dirichlet (A : matrix) (b : vec) (N : nat) : Prop :=
  (forall j, (j < N)%nat -> entry A 0 j = if (j =? 0)%nat then 1 else 0) /\
  (forall j, (j < N)%nat ->
     entry A (N - 1) j = if (j =? N - 1)%nat then 1 else 0) /\
  at_ b 0 = 0 /\ at_ b (N - 1) = 0.

(** ** Vocabulary of the further properties *)




(** ** A certificate for the run of [gauss_seidel] on the notebook's system

    Intervals with integer end points, in units of [1/box_scale], that
    enclose the entries of the iterates of [gauss_seidel] on the system of
    33 points. *)

(** The units of the residual and of the boxes: [2^62] and
    [2^72 = 1024 * 2^62]. *)
Definition res_scale : Z := 4611686018427387904.
Definition box_scale : Z := 1024 * res_scale.

(** The least integer above [res_scale * 1e-10]. *)
Definition eps_unit : Z := 461168602.

Definition box : Type := list (Z * Z).

(** [f_i / 1024] in units of [1/box_scale]: [i (32 - i) 2^52]. *)
Definition gs_shift (i : nat) : Z :=
  (Z.of_nat i * (32 - Z.of_nat i) * 4503599627370496)%Z.

Definition gs_table : list Z := map gs_shift (seq 1 31).

(** Entries [i, i+1, ..] of the box after a sweep, from the box [prev] of
    the new entry [i-1] and the old boxes [rest] from entry [i] on. *)
Fixpoint box_sweep_from (tbl : list Z) (prev : Z * Z) (rest : box) : box :=
  match tbl with
  | [] => [(0, 0)%Z]
  | g :: tbl' =>
      let nxt := match tbl' with
                 | [] => (0, 0)%Z
                 | _ :: _ => nth 1 rest (0, 0)%Z
                 end in
      let cur := (Z.div2 (g + fst prev + fst nxt),
                  Z.div2 (g + snd prev + snd nxt + 1))%Z in
      cur :: box_sweep_from tbl' cur (tl rest)
  end.

Definition box_sweep (tbl : list Z) (old : box) : box :=
  (0, 0)%Z :: box_sweep_from tbl (0, 0)%Z (tl old).

(** The interval of [residual_i / 1024], from the boxes of the entries
    [i-1], [i] and [i+1]. *)
Definition res_entry (g : Z) (p c n : Z * Z) : Z * Z :=
  (g - Z.double (snd c) + (fst p + fst n),
   g - Z.double (fst c) + (snd p + snd n))%Z.

Fixpoint res_list (tbl : list Z) (b : box) : list (Z * Z) :=
  match tbl, b with
  | g :: tbl', p :: ((c :: n :: _) as b') =>
      res_entry g p c n :: res_list tbl' b'
  | _, _ => []
  end.

(** Some entry of the residual is above the tolerance for sure. *)
Fixpoint any_above (rs : list (Z * Z)) : bool :=
  match rs with
  | [] => false
  | r :: rs' =>
      if (eps_unit <=? fst r)%Z then true
      else if (snd r <=? - eps_unit)%Z then true
      else any_above rs'
  end.

Definition sq_max (r : Z * Z) : Z := Z.max (fst r * fst r) (snd r * snd r).
Definition sq_min (r : Z * Z) : Z :=
  if (0 <? fst r)%Z then (fst r * fst r)%Z
  else if (snd r <? 0)%Z then (snd r * snd r)%Z else 0%Z.

Definition zsum (l : list Z) : Z := fold_right Z.add 0%Z l.

(** The residual norm is above the tolerance for sure. *)
Definition above (tbl : list Z) (b : box) : bool :=
  let rs := res_list tbl b in
  if any_above rs then true
  else (res_scale * res_scale
        <? zsum (map sq_min rs) * 100000000000000000000)%Z.

(** The residual norm is within the tolerance for sure. *)
Definition below (tbl : list Z) (b : box) : bool :=
  (zsum (map sq_max (res_list tbl b)) * 100000000000000000000
   <=? res_scale * res_scale)%Z.

(** The residual norm is above [9.994e-11] for sure. *)
Definition near (tbl : list Z) (b : box) : bool :=
  (res_scale * res_scale * 99880036
   <? zsum (map sq_min (res_list tbl b)) * 10000000000000000000000000000)%Z.

(** The residual norm is above the tolerance after each of the first
    [fuel] sweeps, and within it, but above [9.994e-11], after the next
    one. *)
Fixpoint certify (tbl : list Z) (fuel : nat) (b : box) : bool :=
  let b' := box_sweep tbl b in
  match fuel with
  | O => if below tbl b' then near tbl b' else false
  | S f => if above tbl b' then certify tbl f b' else false
  end.

(** The box of the all-ones array. *)
Definition box0 : box := repeat (box_scale, box_scale) 33.

(** The array [x] lies in the box [b]. *)
Definition in_box (b : box) (x : vec) : Prop :=
  forall i, (i < 33)%nat ->
    IZR (fst (nth i b (0, 0)%Z)) <= at_ x i * IZR box_scale
    <= IZR (snd (nth i b (0, 0)%Z)).

(** One sweep of [gauss_seidel] on the notebook's system, entry by entry,
    from the new array [X] and the old array [Y]. *)
Definition gs33_update (X Y : nat -> R) (i : nat) : R :=
  if ((i =? 0) || (i =? 32))%nat then 0
  else (poisson_rhs 33 (1 / 32) i / 1024
        + (if (i =? 1)%nat then 0 else X (i - 1)%nat)
        + (if (i =? 31)%nat then 0 else Y (i + 1)%nat)) / 2.

(** The array [jacobi] returns on the notebook's system, entry by entry. *)
Definition jacobi_x33 (i : nat) : R :=
  gs33_update (fun _ => 1) (fun _ => 1) i.

(** Entry [i] of the residual on the notebook's system for the array
    [X]. *)
Definition res33 (X : nat -> R) (i : nat) : R :=
  if (i =? 0)%nat then - X 0%nat
  else if (i =? 32)%nat then - X 32%nat
  else poisson_rhs 33 (1 / 32) i
       - (2048 * X i
          - 1024 * ((if (i =? 1)%nat then 0 else X (i - 1)%nat)
                    + (if (i =? 31)%nat then 0 else X (i + 1)%nat))).

(** The bounds a box puts on a real, in units of [1/box_scale]. *)
Definition bounds (b : Z * Z) (v : R) : Prop :=
  IZR (fst b) <= v * IZR box_scale <= IZR (snd b).

(** What the sweep needs to know of its table. *)
Definition is_gs_table (tbl : list Z) : Prop :=
  length tbl = 31%nat /\
  forall j, (j < 31)%nat -> nth j tbl 0%Z = gs_shift (1 + j).

(** ** The solvers in binary64

    The same two functions, [jacobi] and [gauss_seidel], with the
    arithmetic of the machine: every [+], [-], [*], [/] and square root is
    the IEEE 754 binary64 operation, with its rounding, its infinities and
    its NaN, and [tol>eps] is the IEEE comparison, false when either side
    is NaN.  [A] is a float64 array; [b] is a float64 or an int64 array,
    and [zeros_like(b)], [ones_like(b)] and [x.copy()] have the dtype of
    [b], so that an assignment [x[i] = v] into an int64 [x] stores the
    integer part of [v].

    What numpy leaves to the BLAS it is linked with is fixed here as in the
    reference BLAS: [dot] adds the products from left to right, and the
    2-norm is the square root of [dot(res, res)].  A cast of NaN, of an
    infinity or of a value outside the int64 range stores [-2^63], as
    numpy does on x86-64, with a warning; the versions of numpy in which
    such an assignment raises instead differ from the model there. *)

Module B64.

Import Floats.
Local Open Scope float_scope.

Definition matrix : Type := list (list float).

Inductive ndarray : Type :=
| Float64 (items : list float)
| Int64 (items : list Z).

(** [len(a)] *)
Definition size (a : ndarray) : nat :=
  match a with
  | Float64 l => length l
  | Int64 l => length l
  end.

(** The conversion of an int64 to a double: the nearest one, ties to
    even. *)
Definition float_of_int (z : Z) : float :=
  if (z =? - 9223372036854775808)%Z then - 0x1p63
  else if (z <? 0)%Z then - of_uint63 (Uint63.of_Z (- z))
       else of_uint63 (Uint63.of_Z z).

(** The cast of a double to an int64: the integer part. *)
Definition int_of_float (v : float) : Z :=
  match Prim2SF v with
  | S754_zero _ => 0%Z
  | S754_finite s m e =>
      let mag := if (0 <=? e)%Z then (Z.pos m * 2 ^ e)%Z
                 else (Z.pos m / 2 ^ (- e))%Z in
      let z := if s then (- mag)%Z else mag in
      if ((- 9223372036854775808 <=? z) && (z <? 9223372036854775808))%Z
      then z else (- 9223372036854775808)%Z
  | _ => (- 9223372036854775808)%Z
  end.

(** [a.astype(float64)]: what an operation with a float64 operand reads. *)
Definition astype_float64 (a : ndarray) : list float :=
  match a with
  | Float64 l => l
  | Int64 l => map float_of_int l
  end.

Definition zeros_like (b : ndarray) : ndarray :=
  match b with
  | Float64 l => Float64 (map (fun _ => 0) l)
  | Int64 l => Int64 (map (fun _ => 0%Z) l)
  end.

Definition ones_like (b : ndarray) : ndarray :=
  match b with
  | Float64 l => Float64 (map (fun _ => 1) l)
  | Int64 l => Int64 (map (fun _ => 1%Z) l)
  end.

(** [a[i]], read into float64 arithmetic. *)
Definition getitem (a : ndarray) (i : nat) : result float :=
  match nth_error (astype_float64 a) i with
  | Some r => OK r
  | None => Raise IndexError
  end.

Definition getrow (A : matrix) (i : nat) : result (list float) :=
  match nth_error A i with
  | Some r => OK r
  | None => Raise IndexError
  end.

(** [A[i,j]] *)
Definition getitem2 (A : matrix) (i j : nat) : result float :=
  row <- getrow A i ;;
  match nth_error row j with
  | Some r => OK r
  | None => Raise IndexError
  end.

(** [l[lo:hi]] *)
Definition cut (l : list float) (lo hi : nat) : list float :=
  skipn lo (firstn hi l).

(** [a[lo:hi]], read into float64 arithmetic. *)
Definition slice (a : ndarray) (lo hi : nat) : list float :=
  cut (astype_float64 a) lo hi.

(** [A[i,lo:hi]] *)
Definition rowslice (A : matrix) (i lo hi : nat) : result (list float) :=
  row <- getrow A i ;; OK (cut row lo hi).

(** [a[i] = v] *)
Definition setitem (a : ndarray) (i : nat) (v : float) : result ndarray :=
  if (i <? size a)%nat then
    match a with
    | Float64 l => OK (Float64 (upd l i v))
    | Int64 l => OK (Int64 (upd l i (int_of_float v)))
    end
  else Raise IndexError.

(** The sum of the products, from left to right. *)
Definition sum_products (u v : list float) : float :=
  fold_left (fun acc p => acc + fst p * snd p) (combine u v) 0.

(** [dot(u, v)] of two 1-D arrays *)
Definition dot (u v : list float) : result float :=
  if (length u =? length v)%nat then OK (sum_products u v)
  else Raise ValueError.

(** [dot(A, x)] *)
Fixpoint matvec (A : matrix) (x : list float) : result (list float) :=
  match A with
  | [] => OK []
  | row :: A' => r <- dot row x ;; y <- matvec A' x ;; OK (r :: y)
  end.

Fixpoint zipsub (u v : list float) : list float :=
  match u, v with
  | a :: u', b :: v' => (a - b) :: zipsub u' v'
  | _, _ => []
  end.

(** [u - v], with an operand of length one stretched over the other. *)
Definition vsub (u v : list float) : result (list float) :=
  if (length u =? length v)%nat then OK (zipsub u v)
  else match u, v with
       | [a], _ => OK (map (fun b => a - b) v)
       | _, [b] => OK (map (fun a => a - b) u)
       | _, _ => Raise ValueError
       end.

(** [numpy.linalg.norm(v, 2)] *)
Definition norm2 (v : list float) : float := sqrt (sum_products v v).

(** [b - dot(A, x)] *)
Definition residual (A : matrix) (b x : ndarray) : result (list float) :=
  Ax <- matvec A (astype_float64 x) ;; vsub (astype_float64 b) Ax.

Record locals : Type := mkLocals {
  l_it : Z;
  l_tol : float;
  l_x : ndarray;
  l_x_old : ndarray
}.

Record outcome : Type := mkOutcome {
  printed_it : Z;
  printed_tol : float;
  returned : ndarray
}.

(** [it<nmax and tol>eps] *)
Definition guard (nmax : Z) (eps : float) (s : locals) : bool :=
  (l_it s <? nmax)%Z && (eps <? l_tol s).

(** [x[i]=1./A[i,i]*(b[i]-dot(A[i,0:i],x_old[0:i]) - dot(A[i,i+1:N],x_old[i+1:N]))] *)
Definition jacobi_assign (A : matrix) (b : ndarray) (N : nat)
  (x_old : ndarray) (i : nat) (x : ndarray) : result ndarray :=
  aii <- getitem2 A i i ;;
  bi <- getitem b i ;;
  lo <- rowslice A i 0 i ;;
  d1 <- dot lo (slice x_old 0 i) ;;
  hi <- rowslice A i (i + 1) N ;;
  d2 <- dot hi (slice x_old (i + 1) N) ;;
  setitem x i (1 / aii * (bi - d1 - d2)).

Definition jacobi_body (A : matrix) (b : ndarray) (N : nat) (s : locals)
  : result locals :=
  let it := (l_it s + 1)%Z in
  x <- for_ (range N) (jacobi_assign A b N (l_x_old s)) (l_x s) ;;
  OK (mkLocals it (l_tol s) x (l_x_old s)).

Definition jacobi (A : matrix) (b : ndarray) (nmax : Z) (eps : float)
  : result outcome :=
  let N := length A in
  let x := zeros_like b in
  let x_old := ones_like b in
  let tol := eps + 1 in
  let it := 0%Z in
  s <- while_ (Z.to_nat nmax) (guard nmax eps) (jacobi_body A b N)
         (mkLocals it tol x x_old) ;;
  res <- residual A b (l_x s) ;;
  let tol := norm2 res in
  let x_old := l_x s in
  OK (mkOutcome (l_it s) tol (l_x s)).

(** [x[i]=1./A[i,i]*(b[i]-dot(A[i,0:i],x[0:i]) - dot(A[i,i+1:N],x_old[i+1:N]))] *)
Definition gauss_seidel_assign (A : matrix) (b : ndarray) (N : nat)
  (x_old : ndarray) (i : nat) (x : ndarray) : result ndarray :=
  aii <- getitem2 A i i ;;
  bi <- getitem b i ;;
  lo <- rowslice A i 0 i ;;
  d1 <- dot lo (slice x 0 i) ;;
  hi <- rowslice A i (i + 1) N ;;
  d2 <- dot hi (slice x_old (i + 1) N) ;;
  setitem x i (1 / aii * (bi - d1 - d2)).

Definition gauss_seidel_body (A : matrix) (b : ndarray) (N : nat)
  (s : locals) : result locals :=
  let it := (l_it s + 1)%Z in
  x <- for_ (range N) (gauss_seidel_assign A b N (l_x_old s)) (l_x s) ;;
  res <- residual A b x ;;
  let tol := norm2 res in
  let x_old := x in
  OK (mkLocals it tol x x_old).

Definition gauss_seidel (A : matrix) (b : ndarray) (nmax : Z) (eps : float)
  : result outcome :=
  let N := length A in
  let x := zeros_like b in
  let x_old := ones_like b in
  let tol := eps + 1 in
  let it := 0%Z in
  s <- while_ (Z.to_nat nmax) (guard nmax eps) (gauss_seidel_body A b N)
         (mkLocals it tol x x_old) ;;
  OK (mkOutcome (l_it s) (l_tol s) (l_x s)).

(** The default tolerance [1e-10]: the double nearest to it. *)
Definition default_eps : float := 0x1.b7cdfd9d7bdbbp-34.

(** The locals on entry to the loop. *)
Definition initial (b : ndarray) (eps : float) : locals :=
  mkLocals 0 (eps + 1) (zeros_like b) (ones_like b).

(** [A] is an [N] by [N] array and [b] has [N] entries. *)
Definition shaped (A : matrix) (b : ndarray) (N : nat) : Prop :=
  length A = N /\ (forall i, (i < N)%nat -> length (nth i A []) = N) /\
  size b = N.

(** A matrix with as many columns in every row as it has rows. *)
Definition square (A : matrix) : Prop :=
  forall i, (i < length A)%nat -> length (nth i A []) = length A.

Definition entry (A : matrix) (i j : nat) : float := nth j (nth i A []) 0.

(** The value the sweep of [gauss_seidel] stores in [x[i]], from the
    entries [x] of the array being written and the entries [x_old] of the
    previous one; [jacobi] stores the same with [x_old] for [x]. *)
Definition sweep_value (A : matrix) (b : list float) (N : nat)
  (x_old : list float) (i : nat) (x : list float) : float :=
  1 / entry A i i
  * (nth i b 0
     - sum_products (cut (nth i A []) 0 i) (cut x 0 i)
     - sum_products (cut (nth i A []) (i + 1) N) (cut x_old (i + 1) N)).

(** One sweep of [jacobi] from the array of ones. *)
Definition jacobi_step (A : matrix) (b : list float) (N : nat) : list float :=
  map (fun i => sweep_value A b N (map (fun _ => 1) b) i (map (fun _ => 1) b))
      (seq 0 N).

(** What holds of the locals of [jacobi] after [j] runs of the loop body,
    on float64 arrays. *)
Definition jacobi_inv (A : matrix) (b : list float) (N : nat) (eps : float)
  (j : nat) (s : locals) : Prop :=
  l_it s = Z.of_nat j /\ l_tol s = eps + 1 /\
  l_x_old s = Float64 (map (fun _ => 1) b) /\
  exists x, l_x s = Float64 x /\ length x = N /\
            (j = O -> x = map (fun _ => 0) b) /\
            ((1 <= j)%nat -> x = jacobi_step A b N).

(** What holds of the locals of [gauss_seidel] after [j] runs of the loop
    body, on float64 arrays. *)
Definition gauss_seidel_inv (A : matrix) (b : list float) (N : nat)
  (eps : float) (j : nat) (s : locals) : Prop :=
  l_it s = Z.of_nat j /\
  exists x x_old,
    l_x s = Float64 x /\ l_x_old s = Float64 x_old /\
    length x = N /\ length x_old = N /\
    (j = O -> s = initial (Float64 b) eps) /\
    ((1 <= j)%nat ->
     x_old = x /\
     exists res, residual A (Float64 b) (Float64 x) = OK res /\
                 l_tol s = norm2 res).

End B64.

(** ** Lists, slices and sums *)

Lemma length_upd {T : Type} (l : list T) (i : nat) (v : T) :
  length (upd l i v) = length l.
Proof.
  revert i; induction l as [|h t IH]; intros [|i]; simpl; auto.
Qed.

Lemma nth_upd_eq {T : Type} (l : list T) (i : nat) (v d : T) :
  (i < length l)%nat -> nth i (upd l i v) d = v.
Proof.
  revert i; induction l as [|h t IH]; intros [|i] H; simpl in *;
    try lia; auto.
  apply IH; lia.
Qed.

Lemma nth_upd_neq {T : Type} (l : list T) (i j : nat) (v d : T) :
  i <> j -> nth j (upd l i v) d = nth j l d.
Proof.
  revert i j; induction l as [|h t IH]; intros [|i] [|j] H; simpl;
    try congruence; auto.
Qed.

Lemma firstn_upd {T : Type} (l : list T) (i k : nat) (v : T) :
  (k <= i)%nat -> firstn k (upd l i v) = firstn k l.
Proof.
  revert i k; induction l as [|h t IH]; intros [|i] [|k] H; simpl;
    try lia; auto.
  f_equal; apply IH; lia.
Qed.

Lemma nth_error_nth_lt {T : Type} (l : list T) (i : nat) (d : T) :
  (i < length l)%nat -> nth_error l i = Some (nth i l d).
Proof.
  revert i; induction l as [|h t IH]; intros [|i] H; simpl in *;
    try lia; auto.
  apply IH; lia.
Qed.

Lemma nth_map_seq {T : Type} (f : nat -> T) (n i : nat) (d : T) :
  (i < n)%nat -> nth i (map f (seq 0 n)) d = f i.
Proof.
  intros H. rewrite (nth_indep _ d (f O)) by (rewrite length_map, length_seq; lia).
  rewrite map_nth, seq_nth by lia. reflexivity.
Qed.

Lemma nth_slice (v : vec) (lo hi j : nat) :
  (hi <= length v)%nat -> (lo + j < hi)%nat ->
  nth j (slice v lo hi) 0 = nth (lo + j) v 0.
Proof.
  intros Hhi Hj. unfold slice.
  rewrite nth_skipn.
  rewrite nth_firstn.
  replace (lo + j <? hi)%nat with true; [reflexivity|].
  symmetry; apply Nat.ltb_lt; lia.
Qed.

Lemma length_slice (v : vec) (lo hi : nat) :
  (hi <= length v)%nat -> length (slice v lo hi) = (hi - lo)%nat.
Proof.
  intros H. unfold slice. rewrite length_skipn, length_firstn. lia.
Qed.

Lemma sum_range_empty (lo hi : nat) (t : nat -> R) :
  (hi <= lo)%nat -> sum_range lo hi t = 0.
Proof.
  intros H. unfold sum_range. replace (hi - lo)%nat with O by lia.
  reflexivity.
Qed.

Lemma sum_range_first (lo hi : nat) (t : nat -> R) :
  (lo < hi)%nat -> sum_range lo hi t = t lo + sum_range (S lo) hi t.
Proof.
  intros H. unfold sum_range.
  replace (hi - lo)%nat with (S (hi - S lo)) by lia. reflexivity.
Qed.

Lemma sum_range_ext (lo hi : nat) (t u : nat -> R) :
  (forall j, (lo <= j < hi)%nat -> t j = u j) ->
  sum_range lo hi t = sum_range lo hi u.
Proof.
  intros H. unfold sum_range. f_equal.
  apply map_ext_in. intros j Hj. apply in_seq in Hj. apply H. lia.
Qed.

Lemma sum_range_split (lo mid hi : nat) (t : nat -> R) :
  (lo <= mid <= hi)%nat ->
  sum_range lo hi t = sum_range lo mid t + sum_range mid hi t.
Proof.
  intros H. unfold sum_range.
  replace (hi - lo)%nat with ((mid - lo) + (hi - mid))%nat by lia.
  rewrite seq_app, map_app.
  replace (lo + (mid - lo))%nat with mid by lia.
  generalize (map t (seq lo (mid - lo))) as l1.
  induction l1 as [|a l1 IH]; simpl; [lra|]. rewrite IH. lra.
Qed.

Lemma sum_range_zero (lo hi : nat) (t : nat -> R) :
  (forall j, (lo <= j < hi)%nat -> t j = 0) -> sum_range lo hi t = 0.
Proof.
  intros H. rewrite (sum_range_ext lo hi t (fun _ => 0) H).
  unfold sum_range. generalize (seq lo (hi - lo)) as l.
  induction l as [|a l IH]; simpl; [reflexivity | rewrite IH; lra].
Qed.

(** The sum without [i] is the sum below [i] plus the sum above [i]. *)
Lemma sum_except_split (i N : nat) (t : nat -> R) :
  (i < N)%nat ->
  sum_except i N t = sum_range 0 i t + sum_range (S i) N t.
Proof.
  intros H. unfold sum_except.
  rewrite (sum_range_split 0 i N) by lia.
  rewrite (sum_range_first i N) by lia.
  rewrite Nat.eqb_refl.
  rewrite (sum_range_ext 0 i _ t).
  - rewrite (sum_range_ext (S i) N _ t); [lra|].
    intros j Hj. destruct (Nat.eqb_spec j i); [lia | reflexivity].
  - intros j Hj. destruct (Nat.eqb_spec j i); [lia | reflexivity].
Qed.

(** [dot] of two arrays of one length is the sum of the products. *)
Lemma dot_sum (u v : vec) :
  length u = length v ->
  dot u v = OK (sum_range 0 (length u) (fun j => nth j u 0 * nth j v 0)).
Proof.
  revert v; induction u as [|a u IH]; intros [|b v] H; simpl in H;
    try discriminate.
  - reflexivity.
  - simpl dot. rewrite IH by lia. simpl bind.
    rewrite (sum_range_first 0 (length (a :: u))) by (simpl; lia).
    simpl nth at 1 2.
    do 2 f_equal. unfold sum_range. simpl length.
    rewrite !Nat.sub_0_r. replace (S (length u) - 1)%nat with (length u) by lia.
    rewrite <- seq_shift, map_map. reflexivity.
Qed.

Lemma sum_range_shift (lo hi d : nat) (t : nat -> R) :
  sum_range (lo + d) (hi + d) t = sum_range lo hi (fun j => t (j + d)%nat).
Proof.
  unfold sum_range. replace (hi + d - (lo + d))%nat with (hi - lo)%nat by lia.
  generalize (hi - lo)%nat as n. intros n. revert lo.
  induction n as [|n IH]; intros lo; simpl; [reflexivity|].
  f_equal. apply (IH (S lo)).
Qed.

(** [dot(row[lo:hi], x[lo:hi])] is the sum of [row_j * x_j] over
    [lo <= j < hi]. *)
Lemma dot_slices (row x : vec) (lo hi : nat) :
  (lo <= hi)%nat -> (hi <= length row)%nat -> (hi <= length x)%nat ->
  dot (slice row lo hi) (slice x lo hi)
  = OK (sum_range lo hi (fun j => nth j row 0 * nth j x 0)).
Proof.
  intros Hlo Hr Hx.
  rewrite dot_sum by (rewrite !length_slice; lia).
  rewrite length_slice by lia. f_equal.
  set (F := fun j => nth j row 0 * nth j x 0).
  replace (sum_range lo hi F)
    with (sum_range (0 + lo) ((hi - lo) + lo) F) by (f_equal; lia).
  rewrite sum_range_shift. unfold F.
  apply sum_range_ext. intros j Hj.
  rewrite !nth_slice by lia.
  replace (lo + j)%nat with (j + lo)%nat by lia. reflexivity.
Qed.

(** ** Loops *)

Lemma iterate_front {S : Type} (k : nat) (body : S -> result S) (s : S) :
  iterate (Datatypes.S k) body s = (s' <- body s ;; iterate k body s').
Proof.
  induction k as [|k IH].
  - simpl. destruct (body s); reflexivity.
  - change (iterate (Datatypes.S (Datatypes.S k)) body s)
      with (s' <- iterate (Datatypes.S k) body s ;; body s').
    rewrite IH. destruct (body s); reflexivity.
Qed.

(** A loop whose body keeps an invariant indexed by the number of runs, and
    whose guard fails at the latest after [B] runs, ends when it has fuel
    for [B] runs; it ends in the first state where the guard fails. *)
Lemma while_spec {S : Type} (cond : S -> bool) (body : S -> result S)
  (Inv : nat -> S -> Prop) (B : nat) :
  (forall j s, Inv j s -> cond s = true ->
               (j < B)%nat /\ exists s', body s = OK s' /\ Inv (Datatypes.S j) s') ->
  forall fuel j s, Inv j s -> (B <= j + fuel)%nat ->
  exists n s',
    while_ fuel cond body s = OK s' /\
    iterate n body s = OK s' /\
    Inv (j + n)%nat s' /\ cond s' = false /\
    forall m, (m < n)%nat ->
      exists sm, iterate m body s = OK sm /\ Inv (j + m)%nat sm /\
                 cond sm = true.
Proof.
  intros Hstep fuel. induction fuel as [|fuel IH]; intros j s HI HB.
  - destruct (cond s) eqn:Hc.
    + destruct (Hstep j s HI Hc) as [Hlt _]. lia.
    + exists O, s. simpl. rewrite Hc, Nat.add_0_r.
      repeat split; auto. intros m Hm; lia.
  - destruct (cond s) eqn:Hc.
    + destruct (Hstep j s HI Hc) as [Hlt (s1 & Hb & HI1)].
      destruct (IH (Datatypes.S j) s1 HI1) as (n & s' & Hw & Hit & HI' & Hc' & Hm);
        [lia|].
      exists (Datatypes.S n), s'. simpl while_. rewrite Hc, Hb. simpl bind.
      rewrite iterate_front, Hb. simpl bind.
      replace (j + Datatypes.S n)%nat with (Datatypes.S j + n)%nat by lia.
      repeat split; auto.
      intros [|m] Hlt'.
      * exists s. simpl. rewrite Nat.add_0_r. auto.
      * destruct (Hm m) as (sm & Hsm & HIm & Hcm); [lia|].
        exists sm. rewrite iterate_front, Hb. simpl bind.
        replace (j + Datatypes.S m)%nat with (Datatypes.S j + m)%nat by lia.
        auto.
    + exists O, s. simpl. rewrite Hc, Nat.add_0_r.
      repeat split; auto. intros m Hm; lia.
Qed.

Lemma Rgtb_true (a b : R) : Rgtb a b = true <-> a > b.
Proof.
  unfold Rgtb. destruct (Rlt_dec b a); split; intros H;
    try discriminate; auto; lra.
Qed.

Lemma Rgtb_false (a b : R) : Rgtb a b = false <-> a <= b.
Proof.
  unfold Rgtb. destruct (Rlt_dec b a); split; intros H;
    try discriminate; auto; lra.
Qed.

(** ** The sweeps *)

Lemma length_zeros_like (b : vec) : length (zeros_like b) = length b.
Proof. apply length_map. Qed.

Lemma length_ones_like (b : vec) : length (ones_like b) = length b.
Proof. apply length_map. Qed.

Lemma getitem_ok (v : vec) (i : nat) :
  (i < length v)%nat -> getitem v i = OK (at_ v i).
Proof.
  intros H. unfold getitem, at_. rewrite (nth_error_nth_lt v i 0 H).
  reflexivity.
Qed.

Lemma getrow_ok (A : matrix) (i : nat) :
  (i < length A)%nat -> getrow A i = OK (nth i A []).
Proof.
  intros H. unfold getrow. rewrite (nth_error_nth_lt A i [] H).
  reflexivity.
Qed.

Lemma setitem_ok (v : vec) (i : nat) (r : R) :
  (i < length v)%nat -> setitem v i r = OK (upd v i r).
Proof.
  intros H. unfold setitem.
  destruct (Nat.ltb_spec i (length v)); [reflexivity | lia].
Qed.

(** A sweep [for i in range(N): x[i] = g(i, x)], where [g(i, x)] reads [x]
    below [i] only, ends with an array whose every entry is [g] of the
    final array. *)
Lemma for_sweep (N : nat) (body : nat -> vec -> result vec)
  (g : nat -> vec -> R) :
  (forall i x, (i < N)%nat -> length x = N ->
               body i x = OK (upd x i (g i x))) ->
  (forall i x x', firstn i x = firstn i x' -> g i x = g i x') ->
  forall x0, length x0 = N ->
  exists x', for_ (range N) body x0 = OK x' /\ length x' = N /\
             forall i, (i < N)%nat -> at_ x' i = g i x'.
Proof.
  intros Hbody Hg.
  assert (G : forall m k x, (k + m = N)%nat -> length x = N ->
            (forall i, (i < k)%nat -> at_ x i = g i x) ->
            exists x', for_ (seq k m) body x = OK x' /\ length x' = N /\
                       forall i, (i < N)%nat -> at_ x' i = g i x').
  { induction m as [|m IH]; intros k x Hk Hlen Hdone.
    - exists x. simpl. repeat split; auto. intros i Hi. apply Hdone. lia.
    - simpl. rewrite Hbody by lia. simpl bind.
      apply IH; [lia | rewrite length_upd; assumption |].
      intros i Hi. unfold at_.
      destruct (Nat.eq_dec i k) as [->|Hne].
      + rewrite nth_upd_eq by lia. apply Hg.
        symmetry. apply firstn_upd. lia.
      + rewrite nth_upd_neq by lia.
        transitivity (g i x); [apply Hdone; lia|].
        apply Hg. symmetry. apply firstn_upd. lia. }
  intros x0 Hlen. apply (G N O x0); auto. intros i Hi; lia.
Qed.

Lemma gauss_seidel_assign_ok (A : matrix) (b : vec) (N : nat)
  (x_old x : vec) (i : nat) :
  shaped A b N -> length x_old = N -> length x = N -> (i < N)%nat ->
  gauss_seidel_assign A b N x_old i x
  = OK (upd x i (gauss_seidel_value A b N x_old i x)).
Proof.
  intros (HA & Hrow & Hb) Hold Hx Hi.
  unfold gauss_seidel_assign, getitem2, rowslice.
  rewrite getrow_ok by lia. simpl bind.
  rewrite getitem_ok by (rewrite Hrow; lia).
  rewrite getitem_ok by lia. simpl bind.
  rewrite dot_slices by (rewrite ?Hrow; lia). simpl bind.
  rewrite dot_slices by (rewrite ?Hrow; lia). simpl bind.
  rewrite setitem_ok by lia. reflexivity.
Qed.

Lemma jacobi_assign_ok (A : matrix) (b : vec) (N : nat)
  (x_old x : vec) (i : nat) :
  shaped A b N -> length x_old = N -> length x = N -> (i < N)%nat ->
  jacobi_assign A b N x_old i x
  = OK (upd x i (jacobi_value A b N x_old i)).
Proof.
  intros (HA & Hrow & Hb) Hold Hx Hi.
  unfold jacobi_assign, getitem2, rowslice.
  rewrite getrow_ok by lia. simpl bind.
  rewrite getitem_ok by (rewrite Hrow; lia).
  rewrite getitem_ok by lia. simpl bind.
  rewrite dot_slices by (rewrite ?Hrow; lia). simpl bind.
  rewrite dot_slices by (rewrite ?Hrow; lia). simpl bind.
  rewrite setitem_ok by lia. reflexivity.
Qed.

Lemma nth_firstn_eq (x x' : vec) (i j : nat) :
  firstn i x = firstn i x' -> (j < i)%nat -> at_ x j = at_ x' j.
Proof.
  intros H Hj. unfold at_.
  rewrite <- (firstn_skipn i x), <- (firstn_skipn i x'), H.
  destruct (Nat.lt_ge_cases j (length (firstn i x'))) as [Hlt|Hge].
  - rewrite !app_nth1 by assumption. reflexivity.
  - assert (Hx : length (firstn i x) = length (firstn i x')) by (rewrite H; auto).
    rewrite !length_firstn in *.
    rewrite !nth_overflow; auto; rewrite length_app, length_firstn, length_skipn; lia.
Qed.

Lemma gauss_seidel_value_prefix (A : matrix) (b : vec) (N : nat)
  (x_old : vec) (i : nat) (x x' : vec) :
  firstn i x = firstn i x' ->
  gauss_seidel_value A b N x_old i x = gauss_seidel_value A b N x_old i x'.
Proof.
  intros H. unfold gauss_seidel_value. do 3 f_equal.
  apply sum_range_ext. intros j Hj.
  rewrite (nth_firstn_eq x x' i j H) by lia. reflexivity.
Qed.

(** The value the code stores is the Jacobi formula. *)
Lemma jacobi_value_formula (A : matrix) (b : vec) (N : nat) (x_old : vec)
  (i : nat) :
  (i < N)%nat ->
  jacobi_value A b N x_old i
  = (at_ b i - sum_except i N (fun j => entry A i j * at_ x_old j))
    / entry A i i.
Proof.
  intros Hi. unfold jacobi_value.
  rewrite sum_except_split by assumption.
  replace (i + 1)%nat with (S i) by lia.
  unfold Rdiv. ring.
Qed.

(** One sweep of [jacobi] from any [x] of the right length is the Jacobi
    formula applied to [x_old]. *)
Lemma jacobi_sweep (A : matrix) (b : vec) (N : nat) (x_old x : vec) :
  shaped A b N -> length x_old = N -> length x = N ->
  for_ (range N) (jacobi_assign A b N x_old) x = OK (jacobi_step A b x_old).
Proof.
  intros Hs Hold Hx.
  destruct (for_sweep N (jacobi_assign A b N x_old)
              (fun i _ => jacobi_value A b N x_old i)) with (x0 := x)
    as (x' & Hfor & Hlen & Hval); auto.
  - intros i y Hi Hy. apply jacobi_assign_ok; auto.
  - rewrite Hfor. f_equal.
    destruct Hs as (HA & _ & _).
    apply (nth_ext _ _ 0 0).
    + unfold jacobi_step. rewrite length_map, length_seq. lia.
    + intros i Hi. rewrite Hlen in Hi.
      fold (at_ x' i). rewrite Hval by assumption.
      unfold jacobi_step. rewrite nth_map_seq by lia.
      rewrite HA. apply jacobi_value_formula. assumption.
Qed.

(** ** The residual *)

Lemma matvec_ok (A : matrix) (x : vec) :
  (forall i, (i < length A)%nat -> length (nth i A []) = length x) ->
  exists y, matvec A x = OK y /\ length y = length A /\
            forall i, (i < length A)%nat ->
              at_ y i = sum_range 0 (length x)
                          (fun j => entry A i j * at_ x j).
Proof.
  induction A as [|row A IH]; intros Hrows.
  - exists []. simpl. repeat split; auto. intros i Hi; simpl in Hi; lia.
  - destruct IH as (y & Hy & Hlen & Hval).
    { intros i Hi. apply (Hrows (S i)). simpl; lia. }
    assert (Hr : length row = length x) by (apply (Hrows O); simpl; lia).
    exists (sum_range 0 (length x) (fun j => nth j row 0 * at_ x j) :: y).
    simpl matvec. rewrite dot_sum by assumption. rewrite Hy, Hr. simpl bind.
    repeat split; [simpl; lia|].
    intros [|i] Hi; [reflexivity|].
    simpl in Hi. unfold at_ at 1. simpl nth. fold (at_ y i).
    rewrite Hval by lia. reflexivity.
Qed.

Lemma nth_zipsub (u v : vec) (i : nat) :
  length u = length v -> (i < length u)%nat ->
  at_ (zipsub u v) i = at_ u i - at_ v i.
Proof.
  unfold at_.
  revert v i; induction u as [|a u IH]; intros [|b v] [|i] Hl Hi;
    simpl in *; try lia; auto.
  apply IH; lia.
Qed.

Lemma length_zipsub (u v : vec) :
  length u = length v -> length (zipsub u v) = length u.
Proof.
  revert v; induction u as [|a u IH]; intros [|b v] Hl; simpl in *;
    try lia; auto.
Qed.

(** On a system of the right shape the residual is defined, and its entry
    [i] is [b_i] minus row [i] of [A] against [x]. *)
Lemma residual_ok (A : matrix) (b x : vec) (N : nat) :
  shaped A b N -> length x = N ->
  exists res, residual A b x = OK res /\ length res = N /\
              forall i, (i < N)%nat ->
                at_ res i = at_ b i
                            - sum_range 0 N (fun j => entry A i j * at_ x j).
Proof.
  intros (HA & Hrow & Hb) Hx.
  destruct (matvec_ok A x) as (y & Hy & Hlen & Hval).
  { intros i Hi. rewrite Hrow; lia. }
  exists (zipsub b y). unfold residual. rewrite Hy. simpl bind.
  unfold vsub. replace (length b =? length y)%nat with true
    by (symmetry; apply Nat.eqb_eq; lia).
  repeat split.
  - rewrite length_zipsub; lia.
  - intros i Hi. rewrite nth_zipsub by lia. rewrite Hval by lia.
    rewrite Hx. reflexivity.
Qed.

(** ** Jacobi *)

Lemma length_jacobi_step (A : matrix) (b xk : vec) :
  length (jacobi_step A b xk) = length A.
Proof. unfold jacobi_step. rewrite length_map, length_seq. reflexivity. Qed.

Lemma jacobi_body_inv (A : matrix) (b : vec) (N : nat) (eps : R)
  (j : nat) (s : locals) :
  shaped A b N -> jacobi_inv A b N eps j s ->
  exists s', jacobi_body A b N s = OK s' /\ jacobi_inv A b N eps (S j) s'.
Proof.
  intros Hs (Hit & Htol & Hold & Hlen & _ & _).
  unfold jacobi_body.
  rewrite Hold, (jacobi_sweep A b N (ones_like b) (l_x s) Hs)
    by (rewrite ?length_ones_like; destruct Hs as (_ & _ & Hb); auto).
  simpl bind. eexists; split; [reflexivity|].
  unfold jacobi_inv; simpl. repeat split; auto; try lia.
  rewrite length_jacobi_step. destruct Hs as (HA & _); auto.
Qed.

(** The loop of [jacobi], for any cap: it runs [nmax] times (not at all for
    [nmax <= 0]), the tolerance test never fails, and every run writes the
    same array. *)
Lemma jacobi_loop (A : matrix) (b : vec) (N : nat) (nmax : Z) (eps : R) :
  shaped A b N ->
  exists s,
    while_ (Z.to_nat nmax) (guard nmax eps) (jacobi_body A b N) (initial b eps)
    = OK s /\
    iterate (Z.to_nat nmax) (jacobi_body A b N) (initial b eps) = OK s /\
    jacobi_inv A b N eps (Z.to_nat nmax) s /\
    forall m, (m < Z.to_nat nmax)%nat ->
      exists sm, iterate m (jacobi_body A b N) (initial b eps) = OK sm /\
                 jacobi_inv A b N eps m sm /\ guard nmax eps sm = true.
Proof.
  intros Hs.
  assert (Hstep : forall j s, jacobi_inv A b N eps j s ->
            guard nmax eps s = true ->
            (j < Z.to_nat nmax)%nat /\
            exists s', jacobi_body A b N s = OK s' /\
                       jacobi_inv A b N eps (S j) s').
  { intros j s HI Hg. split; [|apply jacobi_body_inv; auto].
    destruct HI as (Hit & _). unfold guard in Hg.
    apply andb_prop in Hg. destruct Hg as [Hg _].
    apply Z.ltb_lt in Hg. lia. }
  destruct (while_spec (guard nmax eps) (jacobi_body A b N)
              (jacobi_inv A b N eps) (Z.to_nat nmax) Hstep
              (Z.to_nat nmax) O (initial b eps))
    as (n & s & Hw & Hit & HI & Hc & Hm); [| lia |].
  { unfold jacobi_inv, initial; simpl. repeat split; auto; try lia.
    rewrite length_zeros_like. destruct Hs as (_ & _ & Hb); auto. }
  simpl in HI.
  assert (Hn : n = Z.to_nat nmax).
  { destruct HI as (Hi & Ht & _). unfold guard in Hc.
    rewrite Ht in Hc.
    replace (Rgtb (eps + 1) eps) with true in Hc
      by (symmetry; apply Rgtb_true; lra).
    rewrite andb_true_r in Hc. apply Z.ltb_ge in Hc.
    destruct n as [|n]; [lia|].
    destruct (Hm n) as (sm & _ & (Him & _) & Hgm); [lia|].
    unfold guard in Hgm. apply andb_prop in Hgm. destruct Hgm as [Hgm _].
    apply Z.ltb_lt in Hgm. simpl in Him. lia. }
  subst n. exists s. split; [|split; [|split]]; auto.
Qed.

(** A call of [jacobi] on a system of the right shape: the counter ends at
    the cap, the printed tolerance is the residual norm of the returned
    array, and the returned array is the one left by the last sweep. *)
Lemma jacobi_call (A : matrix) (b : vec) (N : nat) (nmax : Z) (eps : R) :
  shaped A b N ->
  exists s res,
    iterate (Z.to_nat nmax) (jacobi_body A b N) (initial b eps) = OK s /\
    jacobi_inv A b N eps (Z.to_nat nmax) s /\
    residual A b (l_x s) = OK res /\
    jacobi A b nmax eps
    = OK (mkOutcome (Z.of_nat (Z.to_nat nmax)) (norm2 res) (l_x s)).
Proof.
  intros Hs.
  destruct (jacobi_loop A b N nmax eps Hs) as (s & Hw & Hit & HI & _).
  destruct (residual_ok A b (l_x s) N Hs) as (res & Hres & _).
  { destruct HI as (_ & _ & _ & Hlen & _); exact Hlen. }
  exists s, res. split; [|split; [|split]]; auto.
  unfold jacobi. destruct Hs as (HA & _). rewrite HA.
  fold (initial b eps). rewrite Hw. simpl bind. rewrite Hres. simpl bind.
  destruct HI as (Hi & _). rewrite Hi. reflexivity.
Qed.

Lemma default_eps_pos : 0 < default_eps.
Proof. unfold default_eps. lra. Qed.

Lemma shaped_1 (a c : R) : shaped [[a]] [c] 1.
Proof.
  unfold shaped; simpl. repeat split; auto.
  intros i Hi. destruct i as [|i]; [reflexivity | lia].
Qed.

Lemma shaped_2 (a11 a12 a21 a22 c1 c2 : R) :
  shaped [[a11; a12]; [a21; a22]] [c1; c2] 2.
Proof.
  unfold shaped; simpl. repeat split; auto.
  intros i Hi. destruct i as [|[|i]]; [reflexivity | reflexivity | lia].
Qed.

Lemma norm2_zero : norm2 [0] = 0.
Proof.
  unfold norm2, sumsq; simpl.
  replace (0 * 0 + 0) with 0 by lra. apply sqrt_0.
Qed.

(** C2. The system [1 x = 1] with cap 3 and the default tolerance: after the
    first sweep the residual is zero, so its norm is below the tolerance,
    yet the guard of the loop still holds there and the call ends after 3
    sweeps, printing 3.  The residual norm is computed after the loop only
    and never reaches the guard. *)
Theorem jacobi_sweeps_past_tolerance :
  exists s1,
    iterate 1 (jacobi_body [[1]] [1] 1) (initial [1] default_eps) = OK s1 /\
    l_x s1 = [1] /\
    residual [[1]] [1] (l_x s1) = OK [0] /\
    norm2 [0] <= default_eps /\
    guard 3 default_eps s1 = true /\
    jacobi [[1]] [1] 3 default_eps = OK (mkOutcome 3 0 [1]).
Proof.
  pose proof (shaped_1 1 1) as Hs.
  assert (Hstep : jacobi_step [[1]] [1] (ones_like [1]) = [1]).
  { unfold jacobi_step, sum_except, sum_range, entry, at_; simpl.
    f_equal. lra. }
  assert (Hres : residual [[1]] [1] [1] = OK [0]).
  { unfold residual, vsub; simpl. do 2 f_equal. lra. }
  destruct (jacobi_loop [[1]] [1] 1 3 default_eps Hs) as (s & _ & _ & _ & Hm).
  destruct (Hm 1%nat) as (s1 & H1 & HI & Hg); [simpl; lia|].
  destruct HI as (_ & _ & _ & _ & _ & Hx). rewrite Hstep in Hx.
  exists s1. split; [exact H1|]. split; [apply Hx; lia|].
  rewrite Hx by lia. split; [exact Hres|].
  split; [rewrite norm2_zero; pose proof default_eps_pos; lra|].
  split; [exact Hg|].
  destruct (jacobi_call [[1]] [1] 1 3 default_eps Hs)
    as (s' & res & _ & HI' & Hres' & Hj).
  destruct HI' as (_ & _ & _ & _ & _ & Hx').
  rewrite Hx', Hstep in * by (simpl; lia).
  rewrite Hres in Hres'. injection Hres' as <-.
  rewrite Hj, norm2_zero. reflexivity.
Qed.

(** C3. The system [[2,1],[1,2]] x = [1,1] with cap 2: the first sweep
    leaves [x = [0,0]]; the Jacobi formula applied to that iterate gives
    [[1/2,1/2]]; the second sweep of the code reads the all-ones [x_old]
    again and leaves [[0,0]], which is what the call returns. *)
Theorem jacobi_second_sweep_reads_ones :
  exists s1 s2,
    iterate 1 (jacobi_body [[2; 1]; [1; 2]] [1; 1] 2) (initial [1; 1] default_eps)
    = OK s1 /\
    iterate 2 (jacobi_body [[2; 1]; [1; 2]] [1; 1] 2) (initial [1; 1] default_eps)
    = OK s2 /\
    l_x s1 = [0; 0] /\ l_x_old s1 = [1; 1] /\
    jacobi_step [[2; 1]; [1; 2]] [1; 1] (l_x s1) = [1 / 2; 1 / 2] /\
    l_x s2 = [0; 0] /\
    l_x s2 <> jacobi_step [[2; 1]; [1; 2]] [1; 1] (l_x s1) /\
    exists tol,
      jacobi [[2; 1]; [1; 2]] [1; 1] 2 default_eps
      = OK (mkOutcome 2 tol [0; 0]).
Proof.
  pose proof (shaped_2 2 1 1 2 1 1) as Hs.
  assert (Hstep : jacobi_step [[2; 1]; [1; 2]] [1; 1] (ones_like [1; 1])
                  = [0; 0]).
  { unfold jacobi_step, sum_except, sum_range, entry, at_; simpl.
    f_equal; [lra | f_equal; lra]. }
  assert (Hnext : jacobi_step [[2; 1]; [1; 2]] [1; 1] [0; 0]
                  = [1 / 2; 1 / 2]).
  { unfold jacobi_step, sum_except, sum_range, entry, at_; simpl.
    f_equal; [lra | f_equal; lra]. }
  destruct (jacobi_loop [[2; 1]; [1; 2]] [1; 1] 2 2 default_eps Hs)
    as (s2 & _ & H2 & HI2 & Hm).
  destruct (Hm 1%nat) as (s1 & H1 & HI1 & _); [simpl; lia|].
  destruct HI1 as (_ & _ & Hold1 & _ & _ & Hx1).
  destruct HI2 as (_ & _ & _ & _ & _ & Hx2).
  rewrite Hstep in Hx1, Hx2.
  exists s1, s2. split; [exact H1|]. split; [exact H2|].
  rewrite Hx1 by lia. rewrite Hx2 by (simpl; lia). rewrite Hnext.
  split; [reflexivity|]. split; [exact Hold1|]. split; [reflexivity|].
  split; [reflexivity|].
  split.
  - intros Heq. injection Heq as Heq _. lra.
  - destruct (jacobi_call [[2; 1]; [1; 2]] [1; 1] 2 2 default_eps Hs)
      as (s' & res & _ & HI' & _ & Hj).
    destruct HI' as (_ & _ & _ & _ & _ & Hx').
    rewrite Hx', Hstep in Hj by (simpl; lia).
    exists (norm2 res). exact Hj.
Qed.

(** ** Gauss-Seidel *)

(** The value the code stores is the Gauss-Seidel formula. *)
Lemma gauss_seidel_value_formula (A : matrix) (b : vec) (N : nat)
  (x_old : vec) (i : nat) (x : vec) :
  gauss_seidel_value A b N x_old i x
  = (at_ b i
     - sum_range 0 i (fun j => entry A i j * at_ x j)
     - sum_range (S i) N (fun j => entry A i j * at_ x_old j))
    / entry A i i.
Proof.
  unfold gauss_seidel_value. replace (i + 1)%nat with (S i) by lia.
  unfold Rdiv. ring.
Qed.

(** One run of the loop body of [gauss_seidel]. *)
Lemma gauss_seidel_body_ok (A : matrix) (b : vec) (N : nat) (s : locals) :
  shaped A b N -> length (l_x s) = N -> length (l_x_old s) = N ->
  exists s' res,
    gauss_seidel_body A b N s = OK s' /\
    l_it s' = (l_it s + 1)%Z /\
    length (l_x s') = N /\ l_x_old s' = l_x s' /\
    residual A b (l_x s') = OK res /\ l_tol s' = norm2 res /\
    forall i, (i < N)%nat ->
      at_ (l_x s') i
      = (at_ b i
         - sum_range 0 i (fun j => entry A i j * at_ (l_x s') j)
         - sum_range (S i) N (fun j => entry A i j * at_ (l_x_old s) j))
        / entry A i i.
Proof.
  intros Hs Hx Hold.
  destruct (for_sweep N (gauss_seidel_assign A b N (l_x_old s))
              (gauss_seidel_value A b N (l_x_old s))) with (x0 := l_x s)
    as (x' & Hfor & Hlen & Hval); auto.
  { intros i y Hi Hy. apply gauss_seidel_assign_ok; auto. }
  { intros i y y' Hp. apply gauss_seidel_value_prefix; auto. }
  destruct (residual_ok A b x' N Hs Hlen) as (res & Hres & _).
  exists (mkLocals (l_it s + 1) (norm2 res) x' x'), res.
  unfold gauss_seidel_body. rewrite Hfor. simpl bind. rewrite Hres.
  simpl. repeat split; auto.
  intros i Hi. rewrite Hval by assumption.
  apply gauss_seidel_value_formula.
Qed.

Lemma gauss_seidel_body_inv (A : matrix) (b : vec) (N : nat) (eps : R)
  (j : nat) (s : locals) :
  shaped A b N -> gauss_seidel_inv A b N eps j s ->
  exists s', gauss_seidel_body A b N s = OK s' /\
             gauss_seidel_inv A b N eps (S j) s'.
Proof.
  intros Hs (Hit & Hx & Hold & _).
  destruct (gauss_seidel_body_ok A b N s Hs Hx Hold)
    as (s' & res & Hb & Hit' & Hlen & Hxo & Hres & Htol & _).
  exists s'. split; [exact Hb|].
  unfold gauss_seidel_inv. rewrite Hit', Hit, Hxo.
  repeat split; auto; try lia. exists res; auto.
Qed.

(** The loop of [gauss_seidel]: it ends, after [n] runs; [n] is the first
    count at which the cap is reached or the tolerance is met. *)
Lemma gauss_seidel_loop (A : matrix) (b : vec) (N : nat) (nmax : Z) (eps : R) :
  shaped A b N ->
  exists n s,
    while_ (Z.to_nat nmax) (guard nmax eps) (gauss_seidel_body A b N)
      (initial b eps) = OK s /\
    iterate n (gauss_seidel_body A b N) (initial b eps) = OK s /\
    gauss_seidel_inv A b N eps n s /\ guard nmax eps s = false /\
    forall m, (m < n)%nat ->
      exists sm, iterate m (gauss_seidel_body A b N) (initial b eps) = OK sm /\
                 gauss_seidel_inv A b N eps m sm /\ guard nmax eps sm = true.
Proof.
  intros Hs.
  assert (Hstep : forall j s, gauss_seidel_inv A b N eps j s ->
            guard nmax eps s = true ->
            (j < Z.to_nat nmax)%nat /\
            exists s', gauss_seidel_body A b N s = OK s' /\
                       gauss_seidel_inv A b N eps (S j) s').
  { intros j s HI Hg. split; [|apply gauss_seidel_body_inv; auto].
    destruct HI as (Hit & _). unfold guard in Hg.
    apply andb_prop in Hg. destruct Hg as [Hg _].
    apply Z.ltb_lt in Hg. lia. }
  destruct (while_spec (guard nmax eps) (gauss_seidel_body A b N)
              (gauss_seidel_inv A b N eps) (Z.to_nat nmax) Hstep
              (Z.to_nat nmax) O (initial b eps))
    as (n & s & Hw & Hit & HI & Hc & Hm); [| lia |].
  { destruct Hs as (_ & _ & Hb).
    unfold gauss_seidel_inv, initial; simpl.
    rewrite length_zeros_like, length_ones_like.
    repeat split; auto; lia. }
  exists n, s. split; [|split; [|split; [|split]]]; auto.
Qed.

Lemma guard_true (nmax : Z) (eps : R) (s : locals) :
  guard nmax eps s = true <-> (l_it s < nmax)%Z /\ l_tol s > eps.
Proof.
  unfold guard. rewrite andb_true_iff, Z.ltb_lt, Rgtb_true. tauto.
Qed.

Lemma guard_false (nmax : Z) (eps : R) (s : locals) :
  guard nmax eps s = false <-> (nmax <= l_it s)%Z \/ l_tol s <= eps.
Proof.
  unfold guard. rewrite andb_false_iff, Z.ltb_ge, Rgtb_false. tauto.
Qed.

(** ** Assembly *)

Lemma upd_map_seq {T : Type} (f : nat -> T) (s k i : nat) (v : T) :
  upd (map f (seq s k)) i v
  = map (fun i' => if (i' =? s + i)%nat then v else f i') (seq s k).
Proof.
  revert s i; induction k as [|k IH]; intros s i; [reflexivity|].
  destruct i as [|i]; simpl.
  - rewrite Nat.add_0_r, Nat.eqb_refl. f_equal.
    apply map_ext_in. intros a Ha. apply in_seq in Ha.
    destruct (Nat.eqb_spec a s); [lia | reflexivity].
  - destruct (Nat.eqb_spec s (s + S i)); [lia|]. f_equal.
    rewrite IH. apply map_ext. intros a.
    replace (S s + i)%nat with (s + S i)%nat by lia. reflexivity.
Qed.

Lemma zipwith_map_seq {T : Type} (op : T -> T -> T) (f g : nat -> T)
  (s k : nat) :
  zipwith op (map f (seq s k)) (map g (seq s k))
  = map (fun i => op (f i) (g i)) (seq s k).
Proof.
  revert s; induction k as [|k IH]; intros s; simpl; [reflexivity|].
  f_equal. apply IH.
Qed.

Lemma tab_ext (k : nat) (F G : nat -> nat -> R) :
  (forall i j, (i < k)%nat -> (j < k)%nat -> F i j = G i j) ->
  tab k F = tab k G.
Proof.
  intros H. unfold tab. apply map_ext_in. intros i Hi. apply in_seq in Hi.
  apply map_ext_in. intros j Hj. apply in_seq in Hj. apply H; lia.
Qed.

Lemma length_tab (k : nat) (F : nat -> nat -> R) : length (tab k F) = k.
Proof. unfold tab. rewrite length_map, length_seq. reflexivity. Qed.

Lemma nth_tab (k : nat) (F : nat -> nat -> R) (i : nat) :
  (i < k)%nat -> nth i (tab k F) [] = map (F i) (seq 0 k).
Proof.
  intros H. unfold tab.
  exact (nth_map_seq (fun a => map (F a) (seq 0 k)) k i [] H).
Qed.

Lemma entry_tab (k : nat) (F : nat -> nat -> R) (i j : nat) :
  (i < k)%nat -> (j < k)%nat -> entry (tab k F) i j = F i j.
Proof.
  intros Hi Hj. unfold entry. rewrite nth_tab by assumption.
  apply nth_map_seq. assumption.
Qed.

Lemma ncols_tab (k : nat) (F : nat -> nat -> R) :
  (1 <= k)%nat -> ncols (tab k F) = k.
Proof.
  intros H. destruct k as [|k]; [lia|].
  change (ncols (tab (S k) F)) with (length (map (F O) (seq 0 (S k)))).
  rewrite length_map, length_seq. reflexivity.
Qed.

Lemma shaped_tab (k : nat) (F : nat -> nat -> R) (b : vec) :
  length b = k -> shaped (tab k F) b k.
Proof.
  intros Hb. unfold shaped. rewrite length_tab. repeat split; auto.
  intros i Hi. rewrite nth_tab by assumption.
  rewrite length_map, length_seq. reflexivity.
Qed.

Lemma diag_tab (v : vec) (k0 : Z) :
  diag v k0
  = tab (length v + Z.abs_nat k0)
      (fun i j => if (Z.of_nat j - Z.of_nat i =? k0)%Z
                  then nth (Nat.min i j) v 0 else 0).
Proof. reflexivity. Qed.

Lemma madd_tab (k : nat) (F G : nat -> nat -> R) :
  madd (tab k F) (tab k G) = tab k (fun i j => F i j + G i j).
Proof.
  unfold madd, tab. rewrite zipwith_map_seq.
  apply map_ext. intros i. apply zipwith_map_seq.
Qed.

Lemma mdiv_tab (k : nat) (F : nat -> nat -> R) (c : R) :
  mdiv (tab k F) c = tab k (fun i j => F i j / c).
Proof.
  unfold mdiv, tab. rewrite map_map. apply map_ext. intros i.
  apply map_map.
Qed.

Lemma py_index_first (k : nat) : (1 <= k)%nat -> py_index k 0 = OK O.
Proof.
  intros H. unfold py_index.
  replace ((0 <=? 0)%Z && (0 <? Z.of_nat k)%Z) with true; [reflexivity|].
  symmetry. apply andb_true_iff. split; [reflexivity | apply Z.ltb_lt; lia].
Qed.

Lemma py_index_last (k : nat) :
  (1 <= k)%nat -> py_index k (-1) = OK (k - 1)%nat.
Proof.
  intros H. unfold py_index. simpl andb at 1.
  replace ((-1 <? 0)%Z && (- Z.of_nat k <=? -1)%Z) with true.
  - f_equal. lia.
  - symmetry. apply andb_true_iff. split; [reflexivity | apply Z.leb_le; lia].
Qed.

Lemma setrow_tab (k : nat) (F : nat -> nat -> R) (i : Z) (i' : nat) (c : R) :
  py_index k i = OK i' -> (i' < k)%nat ->
  setrow (tab k F) i c
  = OK (tab k (fun a j => if (a =? i')%nat then c else F a j)).
Proof.
  intros Hi Hlt. unfold setrow. rewrite length_tab, Hi. simpl bind. apply f_equal.
  rewrite nth_tab by assumption. unfold tab at 1.
  rewrite upd_map_seq. unfold tab. apply map_ext. intros a. simpl.
  destruct (Nat.eqb_spec a i').
  - rewrite map_map. reflexivity.
  - reflexivity.
Qed.

Lemma setcol_tab (k : nat) (F : nat -> nat -> R) (j : Z) (j' : nat) (c : R) :
  py_index k j = OK j' -> (1 <= k)%nat ->
  setcol (tab k F) j c
  = OK (tab k (fun a j0 => if (j0 =? j')%nat then c else F a j0)).
Proof.
  intros Hj Hk. unfold setcol. rewrite ncols_tab, Hj by assumption.
  simpl bind. apply f_equal. unfold tab. rewrite map_map.
  apply map_ext. intros a. apply upd_map_seq.
Qed.

Lemma setitem2_tab (k : nat) (F : nat -> nat -> R) (i j : Z) (i' j' : nat)
  (c : R) :
  py_index k i = OK i' -> py_index k j = OK j' -> (i' < k)%nat ->
  setitem2 (tab k F) i j c
  = OK (tab k (fun a j0 => if (a =? i')%nat
                           then (if (j0 =? j')%nat then c else F a j0)
                           else F a j0)).
Proof.
  intros Hi Hj Hlt. unfold setitem2.
  rewrite length_tab, Hi. simpl bind.
  rewrite ncols_tab, Hj by lia. simpl bind. apply f_equal.
  rewrite nth_tab by assumption. unfold tab at 1.
  rewrite upd_map_seq. unfold tab. apply map_ext. intros a. simpl.
  destruct (Nat.eqb_spec a i') as [->|]; [|reflexivity].
  apply upd_map_seq.
Qed.

Lemma setitem_py_map (k : nat) (g : nat -> R) (i : Z) (i' : nat) (c : R) :
  py_index k i = OK i' ->
  setitem_py (map g (seq 0 k)) i c
  = OK (map (fun a => if (a =? i')%nat then c else g a) (seq 0 k)).
Proof.
  intros Hi. unfold setitem_py. rewrite length_map, length_seq, Hi.
  simpl bind. apply f_equal. apply upd_map_seq.
Qed.

Lemma nth_map_repeat (f : R -> R) (c : R) (k m : nat) :
  (m < k)%nat -> nth m (map f (repeat c k)) 0 = f c.
Proof.
  revert m; induction k as [|k IH]; intros [|m] H; simpl; try lia; auto.
  apply IH; lia.
Qed.

Lemma linspace_unit (n : Z) :
  (2 <= n)%Z ->
  linspace 0 1 n
  = map (fun i => IZR (Z.of_nat i) * (1 / IZR (n - 1))) (seq 0 (Z.to_nat n)).
Proof.
  intros H. unfold linspace.
  destruct (Z.leb_spec n 0); [lia|].
  destruct (Z.eqb_spec n 1); [lia|].
  apply map_ext. intros i. unfold Rdiv. ring.
Qed.

Lemma assemble_ok (n : Z) :
  (2 <= n)%Z ->
  assemble n
  = OK (tab (Z.to_nat n) (poisson_entry (Z.to_nat n) (1 / IZR (n - 1))),
        map (poisson_rhs (Z.to_nat n) (1 / IZR (n - 1))) (seq 0 (Z.to_nat n))).
Proof.
  intros Hn. unfold assemble, float_div_int, ones.
  destruct (Z.eqb_spec (n - 1) 0); [lia|].
  destruct (Z.ltb_spec (n - 1) 0); [lia|].
  destruct (Z.ltb_spec n 0); [lia|].
  simpl bind.
  set (N := Z.to_nat n). set (h := 1 / IZR (n - 1)).
  rewrite !diag_tab.
  rewrite !length_map, !repeat_length.
  replace (Z.to_nat (n - 1) + Z.abs_nat (-1))%nat with N by (unfold N; lia).
  replace (N + Z.abs_nat 0)%nat with N by (simpl; lia).
  replace (Z.to_nat (n - 1) + Z.abs_nat 1)%nat with N by (unfold N; lia).
  rewrite !madd_tab, mdiv_tab.
  assert (HN : (2 <= N)%nat) by (unfold N; lia).
  rewrite (setrow_tab N _ 0 O) by (try apply py_index_first; lia).
  simpl bind.
  rewrite (setcol_tab N _ 0 O) by (try apply py_index_first; lia).
  simpl bind.
  rewrite (setitem2_tab N _ 0 0 O O) by (try apply py_index_first; lia).
  simpl bind.
  rewrite (setcol_tab N _ (-1) (N - 1)) by (try apply py_index_last; lia).
  simpl bind.
  rewrite (setrow_tab N _ (-1) (N - 1)) by (try apply py_index_last; lia).
  simpl bind.
  rewrite (setitem2_tab N _ (-1) (-1) (N - 1) (N - 1))
    by (try apply py_index_last; lia).
  simpl bind.
  rewrite linspace_unit by assumption. fold N. fold h. rewrite map_map.
  rewrite (setitem_py_map N _ 0 O) by (apply py_index_first; lia).
  simpl bind.
  rewrite (setitem_py_map N _ (-1) (N - 1)) by (apply py_index_last; lia).
  simpl bind.
  apply f_equal. apply f_equal2.
  - apply tab_ext. intros i j Hi Hj. unfold poisson_entry.
    destruct (Nat.eqb_spec i (N - 1)); destruct (Nat.eqb_spec j (N - 1));
      destruct (Nat.eqb_spec i 0); destruct (Nat.eqb_spec j 0);
      destruct (Nat.eqb_spec i j); simpl orb; cbv iota; try lia;
      try reflexivity.
    + replace (Z.of_nat j - Z.of_nat i =? -1)%Z with false
        by (symmetry; apply Z.eqb_neq; lia).
      replace (Z.of_nat j - Z.of_nat i =? 1)%Z with false
        by (symmetry; apply Z.eqb_neq; lia).
      replace (Z.of_nat j - Z.of_nat i =? 0)%Z with true
        by (symmetry; apply Z.eqb_eq; lia).
      rewrite nth_map_repeat by lia. simpl pow. unfold Rdiv. ring.
    + destruct (Nat.eqb_spec i (j + 1)); destruct (Nat.eqb_spec j (i + 1));
        simpl orb; cbv iota; try lia.
      * replace (Z.of_nat j - Z.of_nat i =? -1)%Z with true
          by (symmetry; apply Z.eqb_eq; lia).
        replace (Z.of_nat j - Z.of_nat i =? 1)%Z with false
          by (symmetry; apply Z.eqb_neq; lia).
        replace (Z.of_nat j - Z.of_nat i =? 0)%Z with false
          by (symmetry; apply Z.eqb_neq; lia).
        rewrite nth_map_repeat by lia. simpl pow. unfold Rdiv. ring.
      * replace (Z.of_nat j - Z.of_nat i =? -1)%Z with false
          by (symmetry; apply Z.eqb_neq; lia).
        replace (Z.of_nat j - Z.of_nat i =? 1)%Z with true
          by (symmetry; apply Z.eqb_eq; lia).
        replace (Z.of_nat j - Z.of_nat i =? 0)%Z with false
          by (symmetry; apply Z.eqb_neq; lia).
        rewrite nth_map_repeat by lia. simpl pow. unfold Rdiv. ring.
      * replace (Z.of_nat j - Z.of_nat i =? -1)%Z with false
          by (symmetry; apply Z.eqb_neq; lia).
        replace (Z.of_nat j - Z.of_nat i =? 1)%Z with false
          by (symmetry; apply Z.eqb_neq; lia).
        replace (Z.of_nat j - Z.of_nat i =? 0)%Z with false
          by (symmetry; apply Z.eqb_neq; lia).
        simpl pow. unfold Rdiv. ring.
  - apply map_ext. intros i. unfold poisson_rhs.
    destruct (Nat.eqb_spec i (N - 1)); destruct (Nat.eqb_spec i 0);
      simpl orb; cbv iota; reflexivity.
Qed.

(** C8. For [n >= 2] points the assembly succeeds.  With [N = n] and
    [h = 1/(n-1)], which is not zero (so the scaling by [1/h^2] divides by
    a nonzero number and every entry is a real number), the matrix is [N]
    by [N] and symmetric; inside (both indices away from [0] and [N-1]) it
    has [2/h^2] on the diagonal, [-1/h^2] next to it and zero elsewhere;
    rows and columns [0] and [N-1] are zero except for a one on the
    diagonal; the right-hand side has [N] entries, the first and the last
    of them zero. *)
Theorem assemble_poisson_system (n : Z) :
  (2 <= n)%Z ->
  exists A f,
    assemble n = OK (A, f) /\
    1 / IZR (n - 1) <> 0 /\ (1 / IZR (n - 1)) ^ 2 <> 0 /\
    shaped A f (Z.to_nat n) /\
    (forall i j, (i < Z.to_nat n)%nat -> (j < Z.to_nat n)%nat ->
       entry A i j = entry A j i) /\
    (forall i j, (0 < i < Z.to_nat n - 1)%nat ->
                 (0 < j < Z.to_nat n - 1)%nat ->
       entry A i j
       = if (i =? j)%nat then 2 / (1 / IZR (n - 1)) ^ 2
         else if ((i =? j + 1) || (j =? i + 1))%nat
              then - 1 / (1 / IZR (n - 1)) ^ 2
              else 0) /\
    (forall i j, (i < Z.to_nat n)%nat -> (j < Z.to_nat n)%nat ->
       i = O \/ i = (Z.to_nat n - 1)%nat \/
       j = O \/ j = (Z.to_nat n - 1)%nat ->
       entry A i j = if (i =? j)%nat then 1 else 0) /\
    at_ f 0 = 0 /\ at_ f (Z.to_nat n - 1) = 0.
Proof.
  intros Hn.
  set (N := Z.to_nat n). set (h := 1 / IZR (n - 1)).
  assert (HN : (2 <= N)%nat) by (unfold N; lia).
  assert (Hh : h <> 0).
  { unfold h. assert (0 < IZR (n - 1)) by (apply IZR_lt; lia).
    apply Rgt_not_eq. apply Rdiv_lt_0_compat; lra. }
  exists (tab N (poisson_entry N h)), (map (poisson_rhs N h) (seq 0 N)).
  split; [apply assemble_ok; assumption|].
  split; [exact Hh|].
  split; [apply pow_nonzero; exact Hh|].
  split; [apply shaped_tab; rewrite length_map, length_seq; reflexivity|].
  split.
  { intros i j Hi Hj. rewrite !entry_tab by assumption.
    unfold poisson_entry.
    rewrite (Nat.eqb_sym j i).
    rewrite (orb_comm (i =? j + 1)%nat).
    destruct ((i =? 0)%nat); destruct ((i =? N - 1)%nat);
      destruct ((j =? 0)%nat); destruct ((j =? N - 1)%nat); reflexivity. }
  split.
  { intros i j Hi Hj. rewrite entry_tab by lia. unfold poisson_entry.
    destruct (Nat.eqb_spec i 0); [lia|].
    destruct (Nat.eqb_spec i (N - 1)); [lia|].
    destruct (Nat.eqb_spec j 0); [lia|].
    destruct (Nat.eqb_spec j (N - 1)); [lia|]. reflexivity. }
  split.
  { intros i j Hi Hj Hb. rewrite entry_tab by lia. unfold poisson_entry.
    destruct (Nat.eqb_spec i 0); destruct (Nat.eqb_spec i (N - 1));
      destruct (Nat.eqb_spec j 0); destruct (Nat.eqb_spec j (N - 1));
      simpl orb; cbv iota; try reflexivity; lia. }
  unfold at_. split.
  - rewrite nth_map_seq by lia. reflexivity.
  - rewrite nth_map_seq by lia. unfold poisson_rhs.
    rewrite Nat.eqb_refl, orb_true_r. reflexivity.
Qed.

(** The theorem at the notebook's own [n = 33]. *)
Lemma assemble_poisson_system_witness :
  (2 <= 33)%Z /\
  exists A f,
    assemble 33 = OK (A, f) /\
    1 / IZR (33 - 1) <> 0 /\ (1 / IZR (33 - 1)) ^ 2 <> 0 /\
    shaped A f (Z.to_nat 33) /\
    (forall i j, (i < Z.to_nat 33)%nat -> (j < Z.to_nat 33)%nat ->
       entry A i j = entry A j i) /\
    (forall i j, (0 < i < Z.to_nat 33 - 1)%nat ->
                 (0 < j < Z.to_nat 33 - 1)%nat ->
       entry A i j
       = if (i =? j)%nat then 2 / (1 / IZR (33 - 1)) ^ 2
         else if ((i =? j + 1) || (j =? i + 1))%nat
              then - 1 / (1 / IZR (33 - 1)) ^ 2
              else 0) /\
    (forall i j, (i < Z.to_nat 33)%nat -> (j < Z.to_nat 33)%nat ->
       i = O \/ i = (Z.to_nat 33 - 1)%nat \/
       j = O \/ j = (Z.to_nat 33 - 1)%nat ->
       entry A i j = if (i =? j)%nat then 1 else 0) /\
    at_ f 0 = 0 /\ at_ f (Z.to_nat 33 - 1) = 0.
Proof.
  assert (H : (2 <= 33)%Z) by lia.
  split; [exact H|].
  exact (assemble_poisson_system 33 H).
Defined.

(** ** The notebook's system *)

Lemma A33_tab : A33 = tab 33 (poisson_entry 33 (1 / 32)).
Proof.
  unfold A33, n_points. rewrite (assemble_ok 33) by lia. reflexivity.
Qed.

Lemma f33_map : f33 = map (poisson_rhs 33 (1 / 32)) (seq 0 33).
Proof.
  unfold f33, n_points. rewrite (assemble_ok 33) by lia. reflexivity.
Qed.

Lemma assemble_33 : assemble n_points = OK (A33, f33).
Proof.
  unfold A33, f33, n_points. rewrite (assemble_ok 33) by lia. reflexivity.
Qed.

Lemma shaped_33 : shaped A33 f33 33.
Proof.
  rewrite A33_tab, f33_map. apply shaped_tab.
  rewrite length_map, length_seq. reflexivity.
Qed.

(** ** Gradient *)

(** C5. Every call of [gradient], whatever the arguments, raises
    [UnboundLocalError]: the first statement that mentions [x] is the read
    in [r=b-dot(A,x)], and [x] has no value there.  The result is the same
    for every behaviour of [linalg.solve], the first statement of the loop
    body, also for one that raises at every call: the loop body is never
    entered, and no result is returned. *)
Theorem gradient_raises_unbound_local
  (linalg_solve : matrix -> vec -> result vec)
  (A : matrix) (b : vec) (P : matrix) (nmax : Z) (eps : R) :
  load (None : option vec) = Raise UnboundLocalError /\
  gradient linalg_solve A b P nmax eps = Raise UnboundLocalError /\
  gradient (fun _ _ => Raise ValueError) A b P nmax eps
  = Raise UnboundLocalError /\
  forall out, gradient linalg_solve A b P nmax eps <> OK out.
Proof.
  repeat split. intros out H. discriminate H.
Qed.

(** C6. The call [gradient(A,f,A)] of cell 12, with the matrix as its own
    preconditioner, raises [UnboundLocalError] before the first solve: it
    does not end after one iteration, it performs none. *)
Theorem gradient_preconditioned_by_A_raises
  (linalg_solve : matrix -> vec -> result vec) :
  assemble n_points = OK (A33, f33) /\
  gradient linalg_solve A33 f33 A33 gradient_nmax default_eps
  = Raise UnboundLocalError /\
  forall nmax eps,
    gradient linalg_solve A33 f33 A33 nmax eps = Raise UnboundLocalError.
Proof.
  split; [apply assemble_33 | split; reflexivity].
Qed.

(** ** Residual or cap *)

(** [jacobi] on a system of the right shape, for a cap [nmax >= 0]: the
    counter it prints is the cap. *)
Lemma jacobi_residual_or_cap (A : matrix) (b : vec) (N : nat) (nmax : Z)
  (eps : R) :
  shaped A b N -> (0 <= nmax)%Z ->
  exists out res,
    jacobi A b nmax eps = OK out /\
    residual A b (returned out) = OK res /\
    printed_tol out = norm2 res /\
    (norm2 res <= eps \/ printed_it out = nmax).
Proof.
  intros Hs Hn.
  destruct (jacobi_call A b N nmax eps Hs) as (s & res & _ & _ & Hres & Hj).
  eexists; exists res. split; [exact Hj|]. simpl.
  split; [exact Hres|]. split; [reflexivity|]. right. lia.
Qed.

(** [gauss_seidel] on a system of the right shape, for a cap [nmax >= 0]:
    the array it returns has a residual norm within the tolerance, or the
    counter it prints is the cap. *)
Lemma gauss_seidel_residual_or_cap (A : matrix) (b : vec) (N : nat)
  (nmax : Z) (eps : R) :
  shaped A b N -> (0 <= nmax)%Z ->
  exists out res,
    gauss_seidel A b nmax eps = OK out /\
    residual A b (returned out) = OK res /\
    (norm2 res <= eps \/ printed_it out = nmax).
Proof.
  intros Hs Hn.
  destruct (gauss_seidel_loop A b N nmax eps Hs)
    as (n & s & Hw & _ & HI & Hc & Hm).
  assert (Hout : gauss_seidel A b nmax eps
                 = OK (mkOutcome (l_it s) (l_tol s) (l_x s))).
  { unfold gauss_seidel. destruct Hs as (HA & _). rewrite HA.
    fold (initial b eps). rewrite Hw. reflexivity. }
  apply guard_false in Hc.
  destruct HI as (Hi & Hx & _ & H0 & H1).
  destruct n as [|n].
  - destruct (residual_ok A b (l_x s) N Hs Hx) as (res & Hres & _).
    eexists; exists res. split; [exact Hout|]. simpl.
    split; [exact Hres|]. right.
    rewrite (H0 eq_refl) in Hc. simpl in Hc.
    destruct Hc as [Hc|Hc]; [|lra]. simpl in Hi. lia.
  - destruct H1 as (_ & res & Hres & Htol); [lia|].
    eexists; exists res. split; [exact Hout|]. simpl.
    split; [exact Hres|].
    destruct Hc as [Hc|Hc]; [right | left; rewrite <- Htol; exact Hc].
    destruct (Hm n) as (sm & _ & (Him & _) & Hg); [lia|].
    apply guard_true in Hg. lia.
Qed.

(** ** Boundary values *)

(** On such a system the value a sweep stores at either end is zero,
    whatever the arrays it reads. *)
Lemma boundary_value (A : matrix) (b : vec) (N : nat) (x_old x : vec) (i : nat) :
  dirichlet A b N -> (1 <= N)%nat -> i = O \/ i = (N - 1)%nat ->
  gauss_seidel_value A b N x_old i x = 0.
Proof.
  intros (H0 & HN & Hb0 & HbN) HN1 Hi.
  assert (Hrow : forall j, (j < N)%nat ->
            entry A i j = if (j =? i)%nat then 1 else 0).
  { destruct Hi as [-> | ->]; assumption. }
  assert (Hb : at_ b i = 0) by (destruct Hi as [-> | ->]; assumption).
  assert (Hlt : (i < N)%nat) by lia.
  unfold gauss_seidel_value.
  rewrite Hb, (Hrow i Hlt), Nat.eqb_refl.
  rewrite !sum_range_zero; [unfold Rdiv; lra | |].
  - intros j Hj. rewrite Hrow by lia.
    destruct (Nat.eqb_spec j i); [lia | lra].
  - intros j Hj. rewrite Hrow by lia.
    destruct (Nat.eqb_spec j i); [lia | lra].
Qed.

Lemma at_zeros_like (b : vec) (i : nat) : at_ (zeros_like b) i = 0.
Proof.
  unfold at_, zeros_like. revert i.
  induction b as [|a b IH]; intros [|i]; simpl; auto.
Qed.

(** [jacobi] keeps the boundary values: both ends of [x] are zero at the
    start and after every sweep, and so in the returned array. *)
Lemma jacobi_boundary (A : matrix) (b : vec) (N : nat) (nmax : Z) (eps : R) :
  shaped A b N -> dirichlet A b N -> (1 <= N)%nat ->
  (exists out, jacobi A b nmax eps = OK out /\
               at_ (returned out) 0 = 0 /\ at_ (returned out) (N - 1) = 0) /\
  (forall k, (k <= Z.to_nat nmax)%nat ->
     exists s, iterate k (jacobi_body A b N) (initial b eps) = OK s /\
               at_ (l_x s) 0 = 0 /\ at_ (l_x s) (N - 1) = 0).
Proof.
  intros Hs Hd HN.
  assert (Hends : forall i, i = O \/ i = (N - 1)%nat ->
            at_ (jacobi_step A b (ones_like b)) i = 0).
  { intros i Hi. destruct Hs as (HA & _).
    unfold at_, jacobi_step. rewrite nth_map_seq by lia.
    rewrite HA, <- jacobi_value_formula by lia.
    apply (boundary_value A b N (ones_like b) (ones_like b) i Hd HN Hi). }
  assert (Hinv : forall j s, jacobi_inv A b N eps j s ->
            at_ (l_x s) 0 = 0 /\ at_ (l_x s) (N - 1) = 0).
  { intros j s (_ & _ & _ & _ & H0 & H1). destruct j as [|j].
    - rewrite (H0 eq_refl). split; apply at_zeros_like.
    - rewrite H1 by lia. split; apply Hends; auto. }
  split.
  - destruct (jacobi_call A b N nmax eps Hs) as (s & res & _ & HI & _ & Hj).
    eexists. split; [exact Hj|]. simpl. apply (Hinv _ _ HI).
  - intros k Hk.
    destruct (jacobi_loop A b N nmax eps Hs) as (s & _ & Hit & HI & Hm).
    assert (Hk' : (k < Z.to_nat nmax)%nat \/ k = Z.to_nat nmax) by lia.
    destruct Hk' as [Hlt | ->].
    + destruct (Hm k Hlt) as (sm & Hsm & HIm & _).
      exists sm. split; [exact Hsm | apply (Hinv _ _ HIm)].
    + exists s. split; [exact Hit | apply (Hinv _ _ HI)].
Qed.

(** [gauss_seidel] keeps the boundary values: both ends of [x] are zero at
    the start and after every sweep, and so in the returned array. *)
Lemma gauss_seidel_boundary (A : matrix) (b : vec) (N : nat) (nmax : Z)
  (eps : R) :
  shaped A b N -> dirichlet A b N -> (1 <= N)%nat ->
  exists n out,
    gauss_seidel A b nmax eps = OK out /\ printed_it out = Z.of_nat n /\
    at_ (returned out) 0 = 0 /\ at_ (returned out) (N - 1) = 0 /\
    forall k, (k <= n)%nat ->
      exists s, iterate k (gauss_seidel_body A b N) (initial b eps) = OK s /\
                at_ (l_x s) 0 = 0 /\ at_ (l_x s) (N - 1) = 0.
Proof.
  intros Hs Hd HN.
  destruct (gauss_seidel_loop A b N nmax eps Hs)
    as (n & s & Hw & Hit & HI & _ & Hm).
  assert (Hall : forall k, (k <= n)%nat ->
            exists sk, iterate k (gauss_seidel_body A b N) (initial b eps)
                       = OK sk /\
                       at_ (l_x sk) 0 = 0 /\ at_ (l_x sk) (N - 1) = 0).
  { intros [|k] Hk.
    - exists (initial b eps). split; [reflexivity|].
      simpl. split; apply at_zeros_like.
    - destruct (Hm k) as (sm & Hsm & (_ & Hx & Hold & _) & _); [lia|].
      destruct (gauss_seidel_body_ok A b N sm Hs Hx Hold)
        as (s' & res & Hb & _ & _ & _ & _ & _ & Hval).
      exists s'. split; [simpl; rewrite Hsm; exact Hb|].
      split.
      + rewrite Hval by lia. rewrite <- gauss_seidel_value_formula.
        apply boundary_value; auto.
      + rewrite Hval by lia. rewrite <- gauss_seidel_value_formula.
        apply boundary_value; auto. }
  exists n, (mkOutcome (l_it s) (l_tol s) (l_x s)).
  split.
  { unfold gauss_seidel. destruct Hs as (HA & _). rewrite HA.
    fold (initial b eps). rewrite Hw. reflexivity. }
  simpl. split; [destruct HI as (Hi & _); exact Hi|].
  destruct (Hall n (Nat.le_refl n)) as (sn & Hsn & H0 & H1).
  rewrite Hit in Hsn. injection Hsn as <-.
  split; [exact H0|]. split; [exact H1|]. exact Hall.
Qed.

Lemma dirichlet_33 : dirichlet A33 f33 33.
Proof.
  rewrite A33_tab, f33_map. unfold dirichlet. repeat split.
  - intros j Hj. rewrite entry_tab by lia. unfold poisson_entry.
    simpl. destruct j; reflexivity.
  - intros j Hj. change (33 - 1)%nat with 32%nat.
    rewrite entry_tab by lia. unfold poisson_entry.
    change (33 - 1)%nat with 32%nat.
    rewrite (Nat.eqb_refl 32), orb_true_r. simpl orb. cbv iota.
    rewrite (Nat.eqb_sym 32 j). reflexivity.
Qed.

(** The two solvers that return an array, on the notebook's system with
    their default arguments. *)
Lemma jacobi_on_poisson_system :
  exists out res,
    jacobi A33 f33 jacobi_nmax default_eps = OK out /\
    residual A33 f33 (returned out) = OK res /\
    (norm2 res <= default_eps \/ printed_it out = jacobi_nmax) /\
    at_ (returned out) 0 = 0 /\ at_ (returned out) 32 = 0.
Proof.
  destruct (jacobi_residual_or_cap A33 f33 33 jacobi_nmax default_eps
              shaped_33) as (out & res & Hj & Hres & _ & Hor);
    [unfold jacobi_nmax; lia|].
  destruct (jacobi_boundary A33 f33 33 jacobi_nmax default_eps
              shaped_33 dirichlet_33) as ((out' & Hj' & H0 & H1) & _); [lia|].
  rewrite Hj in Hj'. injection Hj' as <-.
  exists out, res. auto.
Qed.

Lemma gauss_seidel_on_poisson_system :
  exists out res,
    gauss_seidel A33 f33 gauss_seidel_nmax default_eps = OK out /\
    residual A33 f33 (returned out) = OK res /\
    (norm2 res <= default_eps \/ printed_it out = gauss_seidel_nmax) /\
    at_ (returned out) 0 = 0 /\ at_ (returned out) 32 = 0.
Proof.
  destruct (gauss_seidel_residual_or_cap A33 f33 33 gauss_seidel_nmax
              default_eps shaped_33) as (out & res & Hj & Hres & Hor);
    [unfold gauss_seidel_nmax; lia|].
  destruct (gauss_seidel_boundary A33 f33 33 gauss_seidel_nmax default_eps
              shaped_33 dirichlet_33) as (n & out' & Hj' & _ & H0 & H1 & _);
    [lia|].
  rewrite Hj in Hj'. injection Hj' as <-.
  exists out, res. auto.
Qed.

(** C1. The three solvers of the notebook on the assembled system of 33
    points, for every cap and tolerance.  [jacobi] and [gauss_seidel]
    return an array whose residual norm is within the tolerance, or they
    stop with the counter at the cap.  The call
    [gradient(A,f,identity(len(A)))] of cell 12 raises [UnboundLocalError]:
    it returns no array at all, so none whose residual is below the
    tolerance, and it counts no iteration. *)
Theorem solvers_on_poisson_system_residual
  (linalg_solve : matrix -> vec -> result vec) :
  assemble n_points = OK (A33, f33) /\
  (forall (cap : nat) (eps : R),
     exists out res,
       jacobi A33 f33 (Z.of_nat cap) eps = OK out /\
       residual A33 f33 (returned out) = OK res /\
       (norm2 res <= eps \/ printed_it out = Z.of_nat cap)) /\
  (forall (cap : nat) (eps : R),
     exists out res,
       gauss_seidel A33 f33 (Z.of_nat cap) eps = OK out /\
       residual A33 f33 (returned out) = OK res /\
       (norm2 res <= eps \/ printed_it out = Z.of_nat cap)) /\
  gradient linalg_solve A33 f33 (identity (length A33)) gradient_nmax
    default_eps
  = Raise UnboundLocalError /\
  forall nmax eps out,
    gradient linalg_solve A33 f33 (identity (length A33)) nmax eps <> OK out.
Proof.
  split; [apply assemble_33|]. split; [|split; [|split]].
  - intros cap eps.
    destruct (jacobi_residual_or_cap A33 f33 33 (Z.of_nat cap) eps
                shaped_33 ltac:(lia)) as (out & res & Hj & Hres & _ & Hor).
    exists out, res. auto.
  - intros cap eps.
    destruct (gauss_seidel_residual_or_cap A33 f33 33 (Z.of_nat cap) eps
                shaped_33 ltac:(lia)) as (out & res & Hj & Hres & Hor).
    exists out, res. auto.
  - reflexivity.
  - intros nmax eps out H. discriminate H.
Qed.

(** C9. The three solvers of the notebook on the assembled system of 33
    points, for every cap and tolerance.  [jacobi] and [gauss_seidel] keep
    [x[0]] and [x[32]] at zero, at the start, after every sweep and in the
    array they return.  [gradient] returns no array, for any
    preconditioner, so there are no entries [x[0]] and [x[N-1]] to compare
    with the boundary values. *)
Theorem solvers_on_poisson_system_boundary
  (linalg_solve : matrix -> vec -> result vec) :
  assemble n_points = OK (A33, f33) /\
  (forall (cap : nat) (eps : R),
     (exists out,
        jacobi A33 f33 (Z.of_nat cap) eps = OK out /\
        at_ (returned out) 0 = 0 /\ at_ (returned out) 32 = 0) /\
     forall k, (k <= cap)%nat ->
       exists s,
         iterate k (jacobi_body A33 f33 33) (initial f33 eps) = OK s /\
         at_ (l_x s) 0 = 0 /\ at_ (l_x s) 32 = 0) /\
  (forall (cap : nat) (eps : R),
     exists n out,
       gauss_seidel A33 f33 (Z.of_nat cap) eps = OK out /\
       printed_it out = Z.of_nat n /\
       at_ (returned out) 0 = 0 /\ at_ (returned out) 32 = 0 /\
       forall k, (k <= n)%nat ->
         exists s,
           iterate k (gauss_seidel_body A33 f33 33) (initial f33 eps)
           = OK s /\
           at_ (l_x s) 0 = 0 /\ at_ (l_x s) 32 = 0) /\
  forall P nmax eps,
    gradient linalg_solve A33 f33 P nmax eps = Raise UnboundLocalError /\
    forall out, gradient linalg_solve A33 f33 P nmax eps <> OK out.
Proof.
  split; [apply assemble_33|]. split; [|split].
  - intros cap eps.
    destruct (jacobi_boundary A33 f33 33 (Z.of_nat cap) eps shaped_33
                dirichlet_33 ltac:(lia)) as (Hout & Hall).
    split; [exact Hout|].
    intros k Hk. apply Hall. lia.
  - intros cap eps.
    exact (gauss_seidel_boundary A33 f33 33 (Z.of_nat cap) eps shaped_33
             dirichlet_33 ltac:(lia)).
  - intros P nmax eps. split; [reflexivity|].
    intros out H. discriminate H.
Qed.

Lemma sumsq_nonneg (v : vec) : 0 <= sumsq v.
Proof.
  induction v as [|a v IH]; simpl; [lra | nra].
Qed.

Lemma sumsq_ge_entry (v : vec) (i : nat) :
  (i < length v)%nat -> at_ v i * at_ v i <= sumsq v.
Proof.
  unfold at_. revert i; induction v as [|a v IH]; intros [|i] H;
    simpl in *; try lia.
  - pose proof (sumsq_nonneg v). fold (sumsq v). lra.
  - specialize (IH i ltac:(lia)). fold (sumsq v). nra.
Qed.

(** An entry of an array is at most its norm, in absolute value. *)
Lemma norm2_ge_entry (v : vec) (i : nat) :
  (i < length v)%nat -> Rabs (at_ v i) <= norm2 v.
Proof.
  intros H. unfold norm2.
  rewrite <- sqrt_Rsqr_abs. apply sqrt_le_1_alt.
  unfold Rsqr. apply sumsq_ge_entry. assumption.
Qed.

(** ** Rows of the notebook's system *)

Lemma entry_33 (i j : nat) :
  (i < 33)%nat -> (j < 33)%nat ->
  entry A33 i j = poisson_entry 33 (1 / 32) i j.
Proof. intros Hi Hj. rewrite A33_tab. apply entry_tab; assumption. Qed.

Lemma at_f33 (i : nat) :
  (i < 33)%nat -> at_ f33 i = poisson_rhs 33 (1 / 32) i.
Proof.
  intros Hi. rewrite f33_map. unfold at_. apply nth_map_seq. assumption.
Qed.

(** Away from the three diagonals the matrix is zero. *)
Lemma poisson_entry_far (N : nat) (h : R) (i j : nat) :
  (j + 1 < i)%nat \/ (i + 1 < j)%nat -> poisson_entry N h i j = 0.
Proof.
  intros H. unfold poisson_entry.
  destruct (Nat.eqb_spec i j); [lia|].
  destruct (Nat.eqb_spec i (j + 1)); [lia|].
  destruct (Nat.eqb_spec j (i + 1)); [lia|].
  simpl. destruct ((i =? 0) || (i =? N - 1) || (j =? 0) || (j =? N - 1))%nat;
    reflexivity.
Qed.

(** The three entries of an inner row. *)
Lemma poisson_entry_diag (i : nat) :
  (1 <= i <= 31)%nat -> poisson_entry 33 (1 / 32) i i = 2048.
Proof.
  intros H. unfold poisson_entry. rewrite Nat.eqb_refl.
  destruct (Nat.eqb_spec i 0); [lia|].
  destruct (Nat.eqb_spec i (33 - 1)); [simpl in *; lia|].
  simpl orb. cbv iota. lra.
Qed.

Lemma poisson_entry_left (i : nat) :
  (1 <= i <= 31)%nat ->
  poisson_entry 33 (1 / 32) i (i - 1)
  = if (i =? 1)%nat then 0 else - 1024.
Proof.
  intros H. unfold poisson_entry.
  destruct (Nat.eqb_spec i 0); [lia|].
  destruct (Nat.eqb_spec i (33 - 1)); [simpl in *; lia|].
  destruct (Nat.eqb_spec i (i - 1)); [lia|].
  destruct (Nat.eqb_spec (i - 1) (33 - 1)); [simpl in *; lia|].
  destruct (Nat.eqb_spec i 1) as [->|Hne].
  - reflexivity.
  - destruct (Nat.eqb_spec (i - 1) 0); [lia|].
    destruct (Nat.eqb_spec i (i - 1 + 1)); [|lia].
    simpl orb. cbv iota. lra.
Qed.

Lemma poisson_entry_right (i : nat) :
  (1 <= i <= 31)%nat ->
  poisson_entry 33 (1 / 32) i (i + 1)
  = if (i =? 31)%nat then 0 else - 1024.
Proof.
  intros H. unfold poisson_entry.
  destruct (Nat.eqb_spec i 0); [lia|].
  destruct (Nat.eqb_spec i (33 - 1)); [simpl in *; lia|].
  destruct (Nat.eqb_spec i (i + 1)); [lia|].
  destruct (Nat.eqb_spec (i + 1) 0); [lia|].
  destruct (Nat.eqb_spec i 31) as [->|Hne].
  - reflexivity.
  - destruct (Nat.eqb_spec (i + 1) (33 - 1)); [simpl in *; lia|].
    destruct (Nat.eqb_spec (i + 1) (i + 1)); [|lia].
    rewrite orb_true_r. simpl orb. cbv iota. lra.
Qed.

(** The part of an inner row left of the diagonal, against [X]. *)
Lemma row_left_sum (X : nat -> R) (i : nat) :
  (1 <= i <= 31)%nat ->
  sum_range 0 i (fun j => entry A33 i j * X j)
  = (if (i =? 1)%nat then 0 else - 1024) * X (i - 1)%nat.
Proof.
  intros H.
  rewrite (sum_range_split 0 (i - 1) i) by lia.
  rewrite sum_range_zero.
  - rewrite (sum_range_first (i - 1) i) by lia.
    rewrite sum_range_empty by lia.
    rewrite entry_33, poisson_entry_left by lia. lra.
  - intros j Hj. rewrite entry_33, poisson_entry_far by lia. lra.
Qed.

(** The part of an inner row right of the diagonal, against [Y]. *)
Lemma row_right_sum (Y : nat -> R) (i : nat) :
  (1 <= i <= 31)%nat ->
  sum_range (S i) 33 (fun j => entry A33 i j * Y j)
  = (if (i =? 31)%nat then 0 else - 1024) * Y (i + 1)%nat.
Proof.
  intros H.
  rewrite (sum_range_first (S i) 33) by lia.
  rewrite (sum_range_zero (S (S i))).
  - replace (S i) with (i + 1)%nat by lia.
    rewrite entry_33, poisson_entry_right by lia. lra.
  - intros j Hj. rewrite entry_33, poisson_entry_far by lia. lra.
Qed.

(** A boundary row against [X]: rows [0] and [32] are rows of the
    identity. *)
Lemma row_boundary_sum (X : nat -> R) (i lo hi : nat) :
  i = O \/ i = 32%nat -> (hi <= 33)%nat ->
  sum_range lo hi (fun j => entry A33 i j * X j)
  = if ((lo <=? i) && (i <? hi))%nat then X i else 0.
Proof.
  intros Hi Hhi.
  assert (Hrow : forall j, (j < 33)%nat ->
            entry A33 i j = if (j =? i)%nat then 1 else 0).
  { destruct dirichlet_33 as (H0 & H32 & _).
    destruct Hi as [-> | ->]; assumption. }
  destruct (Nat.leb_spec lo i); destruct (Nat.ltb_spec i hi); simpl andb;
    cbv iota.
  - rewrite (sum_range_split lo i hi) by lia.
    rewrite (sum_range_first i hi) by lia.
    rewrite !sum_range_zero.
    + rewrite Hrow, Nat.eqb_refl by lia. lra.
    + intros j Hj. rewrite Hrow by lia.
      destruct (Nat.eqb_spec j i); [lia | lra].
    + intros j Hj. rewrite Hrow by lia.
      destruct (Nat.eqb_spec j i); [lia | lra].
  - apply sum_range_zero. intros j Hj. rewrite Hrow by lia.
    destruct (Nat.eqb_spec j i); [lia | lra].
  - apply sum_range_zero. intros j Hj. rewrite Hrow by lia.
    destruct (Nat.eqb_spec j i); [lia | lra].
  - apply sum_range_zero. intros j Hj. rewrite Hrow by lia.
    destruct (Nat.eqb_spec j i); [lia | lra].
Qed.

(** What a sweep of [gauss_seidel] stores on the notebook's system. *)
Lemma gs33_row (X Y : nat -> R) (i : nat) :
  (i < 33)%nat ->
  (at_ f33 i
   - sum_range 0 i (fun j => entry A33 i j * X j)
   - sum_range (S i) 33 (fun j => entry A33 i j * Y j)) / entry A33 i i
  = gs33_update X Y i.
Proof.
  intros Hi. unfold gs33_update.
  destruct (Nat.eqb_spec i 0) as [->|H0];
    [|destruct (Nat.eqb_spec i 32) as [->|H32]]; simpl orb; cbv iota.
  - rewrite !row_boundary_sum by (auto; lia). simpl.
    rewrite at_f33 by lia. unfold poisson_rhs. simpl. unfold Rdiv. ring.
  - rewrite !row_boundary_sum by (auto; lia). simpl.
    rewrite at_f33 by lia. unfold poisson_rhs. simpl. unfold Rdiv. ring.
  - rewrite row_left_sum, row_right_sum by lia.
    rewrite at_f33, entry_33, poisson_entry_diag by lia.
    destruct (i =? 1)%nat; destruct (i =? 31)%nat; lra.
Qed.

(** An entry of the residual on the notebook's system. *)
Lemma res33_row (X : nat -> R) (i : nat) :
  (i < 33)%nat ->
  at_ f33 i - sum_range 0 33 (fun j => entry A33 i j * X j) = res33 X i.
Proof.
  intros Hi. unfold res33.
  destruct (Nat.eqb_spec i 0) as [->|H0];
    [|destruct (Nat.eqb_spec i 32) as [->|H32]].
  - rewrite row_boundary_sum by (auto; lia). simpl.
    rewrite at_f33 by lia. unfold poisson_rhs. simpl. lra.
  - rewrite row_boundary_sum by (auto; lia). simpl.
    rewrite at_f33 by lia. unfold poisson_rhs. simpl. lra.
  - rewrite (sum_range_split 0 i 33) by lia.
    rewrite (sum_range_first i 33) by lia.
    rewrite row_left_sum, row_right_sum by lia.
    rewrite at_f33, entry_33, poisson_entry_diag by lia.
    destruct (i =? 1)%nat; destruct (i =? 31)%nat; lra.
Qed.

(** ** Soundness of the interval sweep *)

Lemma IZR_box_scale : IZR box_scale = 4722366482869645213696.
Proof. reflexivity. Qed.

Lemma IZR_res_scale : IZR res_scale = 4611686018427387904.
Proof. reflexivity. Qed.

Lemma div2_lower (a : Z) : 2 * IZR (Z.div2 a) <= IZR a.
Proof.
  rewrite <- mult_IZR. apply IZR_le.
  pose proof (Z.div2_odd a) as H. destruct (Z.odd a); unfold Z.b2z in H; lia.
Qed.

Lemma div2_upper (a : Z) : IZR a <= 2 * IZR (Z.div2 (a + 1)).
Proof.
  rewrite <- mult_IZR. apply IZR_le.
  pose proof (Z.div2_odd (a + 1)) as H.
  destruct (Z.odd (a + 1)); unfold Z.b2z in H; lia.
Qed.

(** [gs_shift i] is [f_i / 1024] in units of [1/box_scale], exactly. *)
Lemma IZR_gs_shift (i : nat) :
  (1 <= i <= 31)%nat ->
  IZR (gs_shift i) = poisson_rhs 33 (1 / 32) i / 1024 * IZR box_scale.
Proof.
  intros H. unfold gs_shift, poisson_rhs.
  destruct (Nat.eqb_spec i 0); [lia|].
  destruct (Nat.eqb_spec i (33 - 1)); [simpl in *; lia|].
  simpl orb. cbv iota.
  rewrite IZR_box_scale, !mult_IZR, minus_IZR. field.
Qed.

Lemma tl_skipn {T : Type} (l : list T) (i : nat) :
  tl (skipn i l) = skipn (S i) l.
Proof.
  revert l; induction i as [|i IH]; intros l.
  - destruct l; reflexivity.
  - destruct l as [|a l]; [reflexivity|]. exact (IH l).
Qed.

Lemma gs33_update_first (X Y : nat -> R) : gs33_update X Y 0 = 0.
Proof. reflexivity. Qed.

Lemma gs33_update_last (X Y : nat -> R) : gs33_update X Y 32 = 0.
Proof. reflexivity. Qed.

Lemma box_sweep_from_sound (old : box) (xold x' : vec) :
  in_box old xold ->
  (forall i, (i < 33)%nat ->
     at_ x' i = gs33_update (at_ x') (at_ xold) i) ->
  forall tbl i prev,
    (1 <= i)%nat -> (i + length tbl = 32)%nat ->
    (forall j, (j < length tbl)%nat -> nth j tbl 0%Z = gs_shift (i + j)) ->
    bounds prev (at_ x' (i - 1)) ->
    forall j, (j <= length tbl)%nat ->
      bounds (nth j (box_sweep_from tbl prev (skipn i old)) (0, 0)%Z)
             (at_ x' (i + j)).
Proof.
  intros Hold Hx.
  assert (H0 : at_ x' 0 = 0) by (rewrite Hx by lia; reflexivity).
  induction tbl as [|g tbl IH]; intros i prev Hi Hk Htbl Hprev j Hj.
  - simpl in Hk, Hj. assert (j = O) by lia. subst j.
    replace (i + 0)%nat with 32%nat by lia.
    unfold bounds. cbn [box_sweep_from nth fst snd].
    rewrite Hx, gs33_update_last by lia. lra.
  - simpl in Hk, Hj.
    assert (Hg : g = gs_shift i).
    { specialize (Htbl O ltac:(simpl; lia)). simpl in Htbl.
      rewrite Htbl. f_equal. lia. }
    subst g.
    set (nxt := match tbl with
                | [] => (0, 0)%Z
                | _ :: _ => nth 1 (skipn i old) (0, 0)%Z
                end).
    assert (Hnxt : exists Y,
      bounds nxt Y /\
      at_ x' i = (poisson_rhs 33 (1 / 32) i / 1024 + at_ x' (i - 1) + Y) / 2).
    { rewrite (Hx i) by lia. unfold gs33_update.
      destruct (Nat.eqb_spec i 0); [lia|].
      destruct (Nat.eqb_spec i 32); [lia|]. simpl orb. cbv iota.
      unfold nxt. destruct tbl as [|g' tbl].
      - exists 0. simpl in Hk. assert (i = 31%nat) by lia. subst i.
        cbn [Nat.eqb Nat.sub].
        split; [unfold bounds; cbn [fst snd]; lra | reflexivity].
      - exists (at_ xold (i + 1)). simpl in Hk.
        destruct (Nat.eqb_spec i 31); [lia|].
        rewrite nth_skipn. split.
        + apply Hold. lia.
        + destruct (Nat.eqb_spec i 1) as [->|]; [|reflexivity].
          cbn [Nat.sub]. rewrite H0. reflexivity. }
    destruct Hnxt as (Y & (HY1 & HY2) & Heq).
    assert (Hcur :
      bounds (Z.div2 (gs_shift i + fst prev + fst nxt),
              Z.div2 (gs_shift i + snd prev + snd nxt + 1))%Z
             (at_ x' i)).
    { destruct Hprev as (Hp1 & Hp2).
      assert (Hgs := IZR_gs_shift i ltac:(lia)).
      unfold bounds. cbn [fst snd]. split.
      - pose proof (div2_lower (gs_shift i + fst prev + fst nxt)) as Hd.
        rewrite !plus_IZR in Hd. rewrite Heq. lra.
      - pose proof (div2_upper (gs_shift i + snd prev + snd nxt)) as Hd.
        rewrite !plus_IZR in Hd. rewrite Heq. lra. }
    cbn [box_sweep_from]. fold nxt.
    destruct j as [|j].
    + replace (i + 0)%nat with i by lia. cbn [nth]. exact Hcur.
    + cbn [nth]. rewrite tl_skipn.
      replace (i + S j)%nat with (S i + j)%nat by lia.
      apply IH; try lia.
      * intros j' Hj'. specialize (Htbl (S j') ltac:(simpl; lia)).
        simpl in Htbl. rewrite Htbl. f_equal. lia.
      * replace (S i - 1)%nat with i by lia. exact Hcur.
Qed.

Lemma nth_map_seq_from {T : Type} (f : nat -> T) (s n i : nat) (d : T) :
  (i < n)%nat -> nth i (map f (seq s n)) d = f (s + i)%nat.
Proof.
  intros H. rewrite (nth_indep _ d (f O)) by (rewrite length_map, length_seq; lia).
  rewrite map_nth, seq_nth by lia. reflexivity.
Qed.

Lemma gs_table_ok : is_gs_table gs_table.
Proof.
  unfold is_gs_table, gs_table. split.
  - rewrite length_map, length_seq. reflexivity.
  - intros j Hj. apply nth_map_seq_from. assumption.
Qed.

(** A box that encloses the array a sweep reads encloses, after
    [box_sweep], the array the sweep writes. *)
Lemma box_sweep_sound (tbl : list Z) (old : box) (xold x' : vec) :
  is_gs_table tbl ->
  in_box old xold ->
  (forall i, (i < 33)%nat ->
     at_ x' i = gs33_update (at_ x') (at_ xold) i) ->
  in_box (box_sweep tbl old) x'.
Proof.
  intros (Hlen & Htbl) Hold Hx.
  assert (H0 : bounds (0, 0)%Z (at_ x' (1 - 1))).
  { unfold bounds. cbn [fst snd Nat.sub].
    rewrite Hx, gs33_update_first by lia. lra. }
  pose proof (box_sweep_from_sound old xold x' Hold Hx tbl 1 (0, 0)%Z) as H.
  replace (skipn 1 old) with (tl old) in H by (destruct old; reflexivity).
  rewrite Hlen in H.
  specialize (H ltac:(lia) ltac:(lia) Htbl H0).
  intros i Hi. destruct i as [|i].
  - exact H0.
  - unfold box_sweep. cbn [nth].
    replace (S i) with (1 + i)%nat by lia. apply H. lia.
Qed.

(** ** Soundness of the residual intervals *)

Lemma length_box_sweep_from (tbl : list Z) (prev : Z * Z) (rest : box) :
  length (box_sweep_from tbl prev rest) = S (length tbl).
Proof.
  revert prev rest; induction tbl as [|g tbl IH]; intros prev rest;
    [reflexivity|].
  cbn [box_sweep_from length]. rewrite IH. reflexivity.
Qed.

Lemma length_box_sweep (tbl : list Z) (old : box) :
  length (box_sweep tbl old) = S (S (length tbl)).
Proof.
  unfold box_sweep. cbn [length]. rewrite length_box_sweep_from. reflexivity.
Qed.

Lemma length_res_list (tbl : list Z) (b : box) :
  (length tbl + 2 = length b)%nat -> length (res_list tbl b) = length tbl.
Proof.
  revert b; induction tbl as [|g tbl IH]; intros b H.
  - reflexivity.
  - destruct b as [|p [|c [|n b]]]; simpl in H; try lia.
    cbn [res_list length]. rewrite IH; [reflexivity|]. simpl. lia.
Qed.

Lemma res_list_nth (tbl : list Z) (b : box) (j : nat) :
  (j < length tbl)%nat -> (length tbl + 2 = length b)%nat ->
  nth j (res_list tbl b) (0, 0)%Z
  = res_entry (nth j tbl 0%Z) (nth j b (0, 0)%Z) (nth (S j) b (0, 0)%Z)
      (nth (S (S j)) b (0, 0)%Z).
Proof.
  revert b j; induction tbl as [|g tbl IH]; intros b j Hj H.
  - simpl in Hj. lia.
  - destruct b as [|p [|c [|n b]]]; simpl in H; try lia.
    cbn [res_list]. destruct j as [|j]; [reflexivity|].
    cbn [nth]. simpl in Hj. rewrite IH by (simpl; lia). reflexivity.
Qed.

(** The interval of an inner entry of the residual, in units of
    [1/res_scale]. *)
Lemma res_entry_sound (b : box) (x : vec) (i : nat) :
  in_box b x -> at_ x 0 = 0 -> at_ x 32 = 0 -> (1 <= i <= 31)%nat ->
  IZR (fst (res_entry (gs_shift i) (nth (i - 1) b (0, 0)%Z)
              (nth i b (0, 0)%Z) (nth (i + 1) b (0, 0)%Z)))
  <= res33 (at_ x) i * IZR res_scale
  <= IZR (snd (res_entry (gs_shift i) (nth (i - 1) b (0, 0)%Z)
                 (nth i b (0, 0)%Z) (nth (i + 1) b (0, 0)%Z))).
Proof.
  intros Hb H0 H32 Hi.
  destruct (Hb (i - 1)%nat ltac:(lia)) as (Hp1 & Hp2).
  destruct (Hb i ltac:(lia)) as (Hc1 & Hc2).
  destruct (Hb (i + 1)%nat ltac:(lia)) as (Hn1 & Hn2).
  assert (Hg := IZR_gs_shift i Hi).
  assert (Hres : res33 (at_ x) i * IZR res_scale
                 = IZR (gs_shift i) - 2 * (at_ x i * IZR box_scale)
                   + (at_ x (i - 1) * IZR box_scale + at_ x (i + 1) * IZR box_scale)).
  { unfold res33.
    destruct (Nat.eqb_spec i 0); [lia|].
    destruct (Nat.eqb_spec i 32); [lia|].
    rewrite Hg, IZR_box_scale, IZR_res_scale.
    destruct (Nat.eqb_spec i 1) as [E1|E1];
      destruct (Nat.eqb_spec i 31) as [E31|E31]; try lia.
    - subst i. cbn [Nat.sub Nat.add]. rewrite H0. lra.
    - subst i. cbn [Nat.sub Nat.add]. rewrite H32. lra.
    - lra. }
  rewrite Hres. unfold res_entry. cbn [fst snd].
  repeat rewrite plus_IZR. repeat rewrite minus_IZR.
  rewrite (Z.double_spec (snd (nth i b (0, 0)%Z))).
  rewrite (Z.double_spec (fst (nth i b (0, 0)%Z))).
  repeat rewrite mult_IZR.
  clear Hg Hres. lra.
Qed.

Lemma sumsq_sum (v : vec) :
  sumsq v = sum_range 0 (length v) (fun i => at_ v i * at_ v i).
Proof.
  induction v as [|a v IH]; [reflexivity|].
  rewrite (sum_range_first 0 (length (a :: v))) by (simpl; lia).
  change (sumsq (a :: v)) with (a * a + sumsq v). rewrite IH.
  unfold at_ at 3 4. cbn [nth]. f_equal.
  unfold sum_range. cbn [length].
  rewrite !Nat.sub_0_r. replace (S (length v) - 1)%nat with (length v) by lia.
  rewrite <- seq_shift, map_map. reflexivity.
Qed.

Lemma IZR_zsum_map (f : Z * Z -> Z) (l : list (Z * Z)) :
  IZR (zsum (map f l))
  = sum_range 0 (length l) (fun j => IZR (f (nth j l (0, 0)%Z))).
Proof.
  induction l as [|a l IH]; [reflexivity|].
  rewrite (sum_range_first 0 (length (a :: l))) by (simpl; lia).
  change (zsum (map f (a :: l))) with (f a + zsum (map f l))%Z.
  rewrite plus_IZR, IH. cbn [nth]. f_equal.
  unfold sum_range. cbn [length].
  rewrite !Nat.sub_0_r. replace (S (length l) - 1)%nat with (length l) by lia.
  rewrite <- seq_shift, map_map. reflexivity.
Qed.

Lemma sum_range_le (lo hi : nat) (t u : nat -> R) :
  (forall j, (lo <= j < hi)%nat -> t j <= u j) ->
  sum_range lo hi t <= sum_range lo hi u.
Proof.
  unfold sum_range. intros H.
  assert (G : forall l, (forall j, In j l -> t j <= u j) ->
            fold_right Rplus 0 (map t l) <= fold_right Rplus 0 (map u l)).
  { induction l as [|a l IH]; intros Hl; simpl; [lra|].
    pose proof (Hl a (or_introl eq_refl)).
    pose proof (IH (fun j Hj => Hl j (or_intror Hj))). lra. }
  apply G. intros j Hj. apply in_seq in Hj. apply H. lia.
Qed.

Lemma sum_range_scale (lo hi : nat) (t : nat -> R) (c : R) :
  sum_range lo hi t * c = sum_range lo hi (fun j => t j * c).
Proof.
  unfold sum_range. generalize (seq lo (hi - lo)) as l.
  induction l as [|a l IH]; simpl; [lra|]. rewrite <- IH. lra.
Qed.

Lemma sq_max_bound (r : Z * Z) (v : R) :
  IZR (fst r) <= v <= IZR (snd r) -> v * v <= IZR (sq_max r).
Proof.
  intros (H1 & H2). unfold sq_max.
  pose proof (Z.le_max_l (fst r * fst r) (snd r * snd r)) as Hl.
  pose proof (Z.le_max_r (fst r * fst r) (snd r * snd r)) as Hr.
  apply IZR_le in Hl. apply IZR_le in Hr. rewrite mult_IZR in Hl, Hr.
  destruct (Rle_dec 0 v); nra.
Qed.

Lemma sq_min_bound (r : Z * Z) (v : R) :
  IZR (fst r) <= v <= IZR (snd r) -> IZR (sq_min r) <= v * v.
Proof.
  intros (H1 & H2). unfold sq_min.
  destruct (Z.ltb_spec 0 (fst r)) as [Hl|Hl].
  - apply IZR_lt in Hl. rewrite mult_IZR. nra.
  - destruct (Z.ltb_spec (snd r) 0) as [Hu|Hu].
    + apply IZR_lt in Hu. rewrite mult_IZR. nra.
    + nra.
Qed.

(** The residual intervals enclose the residual of every array of the
    box whose two ends are zero. *)
Lemma residual_in_box (tbl : list Z) (b : box) (x res : vec) :
  is_gs_table tbl -> length b = 33%nat -> length x = 33%nat ->
  in_box b x -> at_ x 0 = 0 -> at_ x 32 = 0 ->
  residual A33 f33 x = OK res ->
  length res = 33%nat /\
  (forall j, (j < 31)%nat ->
     IZR (fst (nth j (res_list tbl b) (0, 0)%Z))
     <= at_ res (S j) * IZR res_scale
     <= IZR (snd (nth j (res_list tbl b) (0, 0)%Z))) /\
  IZR (zsum (map sq_min (res_list tbl b)))
  <= sumsq res * (IZR res_scale * IZR res_scale)
  <= IZR (zsum (map sq_max (res_list tbl b))).
Proof.
  intros (Hlen & Htbl) Hb Hx Hin H0 H32 Hres.
  destruct (residual_ok A33 f33 x 33 shaped_33 Hx) as (res' & Hres' & Hl & Hv).
  rewrite Hres in Hres'. injection Hres' as <-.
  assert (Hval : forall i, (i < 33)%nat -> at_ res i = res33 (at_ x) i).
  { intros i Hi. rewrite Hv by assumption. apply res33_row. assumption. }
  assert (Hent : forall j, (j < 31)%nat ->
     IZR (fst (nth j (res_list tbl b) (0, 0)%Z))
     <= at_ res (S j) * IZR res_scale
     <= IZR (snd (nth j (res_list tbl b) (0, 0)%Z))).
  { intros j Hj. rewrite res_list_nth by lia.
    rewrite Htbl by assumption. rewrite Hval by lia.
    pose proof (res_entry_sound b x (1 + j) Hin H0 H32 ltac:(lia)) as H.
    replace (1 + j - 1)%nat with j in H by lia.
    replace (1 + j + 1)%nat with (S (S j)) in H by lia.
    exact H. }
  split; [exact Hl|]. split; [exact Hent|].
  assert (Hsum : sumsq res * (IZR res_scale * IZR res_scale)
                 = sum_range 0 31
                     (fun j => (at_ res (S j) * IZR res_scale)
                               * (at_ res (S j) * IZR res_scale))).
  { rewrite sumsq_sum, Hl.
    rewrite (sum_range_first 0 33) by lia.
    rewrite (sum_range_split 1 32 33) by lia.
    rewrite (sum_range_first 32 33) by lia.
    rewrite (sum_range_empty 33 33) by lia.
    rewrite (Hval 0%nat), (Hval 32%nat) by lia.
    unfold res33 at 1 2 3 4. cbn [Nat.eqb]. rewrite H0, H32.
    replace 1%nat with (0 + 1)%nat at 1 by lia.
    replace 32%nat with (31 + 1)%nat at 1 by lia.
    rewrite sum_range_shift.
    replace (- 0 * - 0 + (sum_range 0 31
               (fun j => at_ res (j + 1) * at_ res (j + 1))
             + (- 0 * - 0 + 0)))
      with (sum_range 0 31 (fun j => at_ res (j + 1) * at_ res (j + 1)))
      by lra.
    rewrite sum_range_scale. apply sum_range_ext. intros j Hj.
    replace (j + 1)%nat with (S j) by lia. ring. }
  rewrite Hsum, !IZR_zsum_map.
  rewrite length_res_list by lia. rewrite Hlen.
  split; apply sum_range_le; intros j Hj.
  - apply sq_min_bound. apply Hent. lia.
  - apply sq_max_bound. apply Hent. lia.
Qed.

(** ** Soundness of the certificate *)

Lemma default_eps_sq : default_eps * default_eps = 1 / 100000000000000000000.
Proof. unfold default_eps. field. Qed.

Lemma norm2_le (v : vec) (e : R) :
  0 <= e -> sumsq v <= e * e -> norm2 v <= e.
Proof.
  intros He H. unfold norm2. rewrite <- (sqrt_square e He).
  apply sqrt_le_1_alt. exact H.
Qed.

Lemma norm2_gt (v : vec) (e : R) :
  0 <= e -> e * e < sumsq v -> norm2 v > e.
Proof.
  intros He H. unfold norm2. rewrite <- (sqrt_square e He).
  apply sqrt_lt_1_alt. split; [nra | exact H].
Qed.

Lemma below_sound (tbl : list Z) (b : box) (x res : vec) :
  is_gs_table tbl -> length b = 33%nat -> length x = 33%nat ->
  in_box b x -> at_ x 0 = 0 -> at_ x 32 = 0 ->
  residual A33 f33 x = OK res ->
  below tbl b = true -> norm2 res <= default_eps.
Proof.
  intros Ht Hb Hx Hin H0 H32 Hres Hbelow.
  destruct (residual_in_box tbl b x res Ht Hb Hx Hin H0 H32 Hres)
    as (_ & _ & _ & Hmax).
  unfold below in Hbelow. apply Z.leb_le in Hbelow.
  apply IZR_le in Hbelow. rewrite !mult_IZR in Hbelow.
  rewrite IZR_res_scale in *.
  apply norm2_le; [pose proof default_eps_pos; lra|].
  rewrite default_eps_sq. lra.
Qed.

Lemma any_above_exists (rs : list (Z * Z)) :
  any_above rs = true ->
  exists j, (j < length rs)%nat /\
    ((eps_unit <= fst (nth j rs (0, 0)%Z))%Z \/
     (snd (nth j rs (0, 0)%Z) <= - eps_unit)%Z).
Proof.
  induction rs as [|r rs IH]; [discriminate|].
  cbn [any_above]. intros H.
  destruct (Z.leb_spec eps_unit (fst r)) as [Hl|Hl].
  - exists O. split; [simpl; lia | left; exact Hl].
  - destruct (Z.leb_spec (snd r) (- eps_unit)) as [Hu|Hu].
    + exists O. split; [simpl; lia | right; exact Hu].
    + destruct (IH H) as (j & Hj & Hor).
      exists (S j). split; [simpl; lia | exact Hor].
Qed.

Lemma above_sound (tbl : list Z) (b : box) (x res : vec) :
  is_gs_table tbl -> length b = 33%nat -> length x = 33%nat ->
  in_box b x -> at_ x 0 = 0 -> at_ x 32 = 0 ->
  residual A33 f33 x = OK res ->
  above tbl b = true -> norm2 res > default_eps.
Proof.
  intros Ht Hb Hx Hin H0 H32 Hres Habove.
  destruct (residual_in_box tbl b x res Ht Hb Hx Hin H0 H32 Hres)
    as (Hlen & Hent & Hmin & _).
  pose proof default_eps_pos as Hpos.
  unfold above in Habove.
  destruct (any_above (res_list tbl b)) eqn:Hany.
  - destruct (any_above_exists _ Hany) as (j & Hj & Hor).
    destruct Ht as (Htl & _).
    rewrite length_res_list in Hj by lia.
    destruct (Hent j ltac:(lia)) as (H1 & H2).
    pose proof (norm2_ge_entry res (S j) ltac:(lia)) as Hn.
    rewrite IZR_res_scale in *. unfold default_eps in *.
    destruct Hor as [Hor|Hor]; apply IZR_le in Hor.
    + change (IZR eps_unit) with 461168602 in Hor.
      assert (at_ res (S j) > 1 / 10 ^ 10) by lra.
      rewrite Rabs_right in Hn by lra. lra.
    + rewrite opp_IZR in Hor. change (IZR eps_unit) with 461168602 in Hor.
      assert (at_ res (S j) < - (1 / 10 ^ 10)) by lra.
      rewrite Rabs_left in Hn by lra. lra.
  - apply Z.ltb_lt in Habove. apply IZR_lt in Habove.
    rewrite !mult_IZR in Habove. rewrite IZR_res_scale in *.
    apply norm2_gt; [lra|]. rewrite default_eps_sq. lra.
Qed.

Lemma iter_front {T : Type} (f : T -> T) (k : nat) (a : T) :
  Nat.iter (S k) f a = Nat.iter k f (f a).
Proof.
  induction k as [|k IH]; [reflexivity|].
  change (Nat.iter (S (S k)) f a) with (f (Nat.iter (S k) f a)).
  rewrite IH. reflexivity.
Qed.

Lemma near_sound (tbl : list Z) (b : box) (x res : vec) :
  is_gs_table tbl -> length b = 33%nat -> length x = 33%nat ->
  in_box b x -> at_ x 0 = 0 -> at_ x 32 = 0 ->
  residual A33 f33 x = OK res ->
  near tbl b = true -> norm2 res > 9994 / 10 ^ 14.
Proof.
  intros Ht Hb Hx Hin H0 H32 Hres Hnear.
  destruct (residual_in_box tbl b x res Ht Hb Hx Hin H0 H32 Hres)
    as (_ & _ & Hmin & _).
  unfold near in Hnear. apply Z.ltb_lt in Hnear. apply IZR_lt in Hnear.
  rewrite !mult_IZR in Hnear. rewrite IZR_res_scale in *.
  apply norm2_gt; [lra|].
  replace (9994 / 10 ^ 14 * (9994 / 10 ^ 14))
    with (99880036 / 10000000000000000000000000000) by field.
  lra.
Qed.

(** What a successful run of [certify] has checked. *)
Lemma certify_sound (tbl : list Z) (fuel : nat) (b : box) :
  certify tbl fuel b = true ->
  (forall j, (j < fuel)%nat ->
     above tbl (Nat.iter (S j) (box_sweep tbl) b) = true) /\
  below tbl (Nat.iter (S fuel) (box_sweep tbl) b) = true /\
  near tbl (Nat.iter (S fuel) (box_sweep tbl) b) = true.
Proof.
  revert b; induction fuel as [|fuel IH]; intros b H.
  - cbn [certify] in H.
    destruct (below tbl (box_sweep tbl b)) eqn:Hb; [|discriminate].
    split; [intros j Hj; lia|]. split; [exact Hb | exact H].
  - cbn [certify] in H.
    destruct (above tbl (box_sweep tbl b)) eqn:Ha; [|discriminate].
    destruct (IH _ H) as (Hab & Hbe & Hne). split.
    + intros [|j] Hj; [exact Ha|]. rewrite iter_front. apply Hab. lia.
    + split; rewrite iter_front; assumption.
Qed.

(** ** The run of [gauss_seidel] on the notebook's system *)

(** The states of the loop of [gauss_seidel] exist for every number of
    runs of the body, whatever the guard says. *)
Lemma gauss_seidel_states (A : matrix) (b : vec) (N : nat) (eps : R) :
  shaped A b N ->
  forall k, exists s,
    iterate k (gauss_seidel_body A b N) (initial b eps) = OK s /\
    gauss_seidel_inv A b N eps k s.
Proof.
  intros Hs. induction k as [|k (s & Hit & HI)].
  - exists (initial b eps). split; [reflexivity|].
    destruct Hs as (_ & _ & Hb).
    unfold gauss_seidel_inv, initial; simpl.
    rewrite length_zeros_like, length_ones_like.
    repeat split; auto; lia.
  - destruct (gauss_seidel_body_inv A b N eps k s Hs HI) as (s' & Hb & HI').
    exists s'. split; [simpl; rewrite Hit; exact Hb | exact HI'].
Qed.

Lemma at_ones_like (b : vec) (i : nat) :
  (i < length b)%nat -> at_ (ones_like b) i = 1.
Proof.
  unfold at_, ones_like. revert i.
  induction b as [|a b IH]; intros [|i] H; simpl in *; try lia; auto.
  apply IH. lia.
Qed.

Lemma in_box0 : in_box box0 (ones_like f33).
Proof.
  intros i Hi. unfold box0. rewrite nth_repeat_lt by assumption.
  rewrite at_ones_like by (destruct shaped_33 as (_ & _ & Hb); lia).
  cbn [fst snd]. lra.
Qed.

Lemma length_iter_box (tbl : list Z) (k : nat) :
  is_gs_table tbl -> length (Nat.iter k (box_sweep tbl) box0) = 33%nat.
Proof.
  intros (Hlen & _). destruct k as [|k].
  - apply repeat_length.
  - rewrite Nat.iter_succ, length_box_sweep, Hlen. reflexivity.
Qed.

(** The box after [k] interval sweeps encloses the array [x_old] after [k]
    runs of the loop body; from the first run on that array is [x], and
    its two ends are zero. *)
Lemma gauss_seidel_in_box (tbl : list Z) :
  is_gs_table tbl ->
  forall k s,
    iterate k (gauss_seidel_body A33 f33 33) (initial f33 default_eps)
    = OK s ->
    in_box (Nat.iter k (box_sweep tbl) box0) (l_x_old s) /\
    length (l_x s) = 33%nat /\ length (l_x_old s) = 33%nat /\
    ((1 <= k)%nat ->
     l_x_old s = l_x s /\ at_ (l_x s) 0 = 0 /\ at_ (l_x s) 32 = 0).
Proof.
  intros Ht. induction k as [|k IH]; intros s Hs.
  - simpl in Hs. injection Hs as <-. unfold initial; cbn [l_x l_x_old].
    rewrite length_zeros_like, length_ones_like.
    destruct shaped_33 as (_ & _ & Hb).
    split; [exact in_box0|]. repeat split; auto. lia.
  - cbn [iterate] in Hs.
    destruct (iterate k (gauss_seidel_body A33 f33 33)
                (initial f33 default_eps)) as [sk| |] eqn:Hk;
      try discriminate.
    cbn [bind] in Hs.
    destruct (IH sk eq_refl) as (Hin & Hx & Hold & _).
    destruct (gauss_seidel_body_ok A33 f33 33 sk shaped_33 Hx Hold)
      as (s' & res & Hb & _ & Hlen & Hxo & _ & _ & Hval).
    rewrite Hs in Hb. injection Hb as <-.
    assert (Hupd : forall i, (i < 33)%nat ->
              at_ (l_x s) i = gs33_update (at_ (l_x s)) (at_ (l_x_old sk)) i).
    { intros i Hi. rewrite (Hval i Hi) at 1. apply gs33_row. assumption. }
    rewrite Hxo. split.
    + rewrite Nat.iter_succ.
      apply (box_sweep_sound tbl _ (l_x_old sk)); assumption.
    + split; [exact Hlen|]. split; [exact Hlen|]. intros _.
      split; [reflexivity|].
      rewrite (Hupd 0%nat), (Hupd 32%nat) by lia.
      rewrite gs33_update_first, gs33_update_last. split; reflexivity.
Qed.

(** If [certify] succeeds with [K] for fuel, the call of [gauss_seidel] on
    the notebook's system with a cap above [K] stops after exactly [K + 1]
    sweeps, with the tolerance met. *)
Lemma gauss_seidel_count (tbl : list Z) (K : nat) (nmax : Z) :
  is_gs_table tbl -> certify tbl K box0 = true ->
  (Z.of_nat (S K) <= nmax)%Z ->
  exists out res,
    gauss_seidel A33 f33 nmax default_eps = OK out /\
    printed_it out = Z.of_nat (S K) /\
    residual A33 f33 (returned out) = OK res /\
    printed_tol out = norm2 res /\
    9994 / 10 ^ 14 < printed_tol out <= default_eps.
Proof.
  intros Ht Hcert Hcap.
  destruct (certify_sound tbl K box0 Hcert) as (Habove & Hbelow & Hnear).
  (* the tolerance after [j] sweeps *)
  assert (Htol : forall j s, (1 <= j)%nat ->
            iterate j (gauss_seidel_body A33 f33 33)
              (initial f33 default_eps) = OK s ->
            gauss_seidel_inv A33 f33 33 default_eps j s ->
            forall ok : bool,
              (if ok then below tbl (Nat.iter j (box_sweep tbl) box0)
               else above tbl (Nat.iter j (box_sweep tbl) box0)) = true ->
              if ok then l_tol s <= default_eps else l_tol s > default_eps).
  { intros j s Hj Hs HI ok Hchk.
    destruct (gauss_seidel_in_box tbl Ht j s Hs) as (Hin & Hx & _ & H1).
    destruct (H1 Hj) as (Hxo & H0 & H32).
    destruct HI as (_ & _ & _ & _ & HI). destruct (HI Hj) as (_ & res & Hres & Ht').
    rewrite Hxo in Hin. rewrite Ht'.
    pose proof (length_iter_box tbl j Ht) as Hlb.
    destruct ok.
    - apply (below_sound tbl (Nat.iter j (box_sweep tbl) box0) (l_x s) res);
        assumption.
    - apply (above_sound tbl (Nat.iter j (box_sweep tbl) box0) (l_x s) res);
        assumption. }
  destruct (gauss_seidel_loop A33 f33 33 nmax default_eps shaped_33)
    as (n & s & Hw & Hit & HI & Hc & Hm).
  assert (Hn : n = S K).
  { destruct (Nat.lt_trichotomy n (S K)) as [Hlt | [Heq | Hgt]];
      [exfalso | exact Heq | exfalso].
    - apply guard_false in Hc.
      pose proof HI as (Hi & _ & _ & H0 & _).
      destruct Hc as [Hc|Hc]; [lia|].
      destruct n as [|n].
      + rewrite (H0 eq_refl) in Hc. simpl in Hc. lra.
      + pose proof (Htol (S n) s ltac:(lia) Hit HI false
                      (Habove n ltac:(lia))) as Hgt.
        simpl in Hgt. lra.
    - destruct (Hm (S K) Hgt) as (sm & Hsm & HIm & Hg).
      apply guard_true in Hg. destruct Hg as (_ & Hg).
      pose proof (Htol (S K) sm ltac:(lia) Hsm HIm true Hbelow) as Hle.
      simpl in Hle. lra. }
  subst n.
  pose proof (Htol (S K) s ltac:(lia) Hit HI true Hbelow) as Hle.
  simpl in Hle.
  pose proof HI as (Hi & _ & _ & _ & H1).
  destruct (H1 ltac:(lia)) as (_ & res & Hres & Ht').
  assert (Hlow : norm2 res > 9994 / 10 ^ 14).
  { destruct (gauss_seidel_in_box tbl Ht (S K) s Hit) as (Hin & Hx & _ & H2).
    destruct (H2 ltac:(lia)) as (Hxo & H0 & H32).
    rewrite Hxo in Hin.
    apply (near_sound tbl (Nat.iter (S K) (box_sweep tbl) box0) (l_x s) res);
      try assumption.
    apply length_iter_box. assumption. }
  exists (mkOutcome (l_it s) (l_tol s) (l_x s)), res.
  split.
  { unfold gauss_seidel. destruct shaped_33 as (HA & _). rewrite HA.
    fold (initial f33 default_eps). rewrite Hw. reflexivity. }
  cbn [printed_it printed_tol returned]. rewrite Ht' in *.
  split; [exact Hi|]. split; [exact Hres|]. split; [reflexivity|].
  split; [exact Hlow | exact Hle].
Qed.

(** The certificate: 2789 sweeps above the tolerance, the next one within
    it and above [9.994e-11]. *)
Lemma certificate_2790 : certify gs_table 2789 box0 = true.
Proof. vm_compute. reflexivity. Qed.

(** The call [gauss_seidel(A,f)] of cell 10 stops after exactly 2790
    sweeps, the count the notebook prints, with the residual norm of the
    returned array within the tolerance and above [9.994e-11]; the
    notebook prints [2790 9.99401683743e-11]. *)
Lemma gauss_seidel_on_poisson_system_count :
  exists out res,
    gauss_seidel A33 f33 gauss_seidel_nmax default_eps = OK out /\
    printed_it out = 2790%Z /\
    residual A33 f33 (returned out) = OK res /\
    printed_tol out = norm2 res /\
    9994 / 10 ^ 14 < printed_tol out <= default_eps.
Proof.
  exact (gauss_seidel_count gs_table 2789 gauss_seidel_nmax gs_table_ok
           certificate_2790 ltac:(unfold gauss_seidel_nmax; lia)).
Qed.

Lemma jacobi_step_33 (i : nat) :
  (i < 33)%nat ->
  at_ (jacobi_step A33 f33 (ones_like f33)) i = jacobi_x33 i.
Proof.
  intros Hi. destruct shaped_33 as (HA & _ & Hb).
  unfold at_ at 1, jacobi_step. rewrite HA, nth_map_seq by assumption.
  rewrite <- jacobi_value_formula by assumption.
  unfold jacobi_value. replace (i + 1)%nat with (S i) by lia.
  rewrite (sum_range_ext 0 i _ (fun j => entry A33 i j * 1))
    by (intros j Hj; rewrite at_ones_like by lia; reflexivity).
  rewrite (sum_range_ext (S i) 33 _ (fun j => entry A33 i j * 1))
    by (intros j Hj; rewrite at_ones_like by lia; reflexivity).
  unfold jacobi_x33. rewrite <- (gs33_row (fun _ => 1) (fun _ => 1) i Hi).
  unfold Rdiv. ring.
Qed.

(** The residual norm [jacobi] prints on the notebook's system, to four
    decimals; the notebook prints [10000 723.996585827]. *)
Lemma jacobi_residual_norm_33 (res : vec) :
  residual A33 f33 (jacobi_step A33 f33 (ones_like f33)) = OK res ->
  723.9965 < norm2 res < 723.9966.
Proof.
  intros Hres.
  destruct (residual_ok A33 f33 (jacobi_step A33 f33 (ones_like f33)) 33
              shaped_33) as (res' & Hres' & Hlen & Hval).
  { rewrite length_jacobi_step. destruct shaped_33 as (HA & _). exact HA. }
  rewrite Hres in Hres'. injection Hres' as <-.
  assert (Hsq : sumsq res
                = sum_range 0 33 (fun i => res33 jacobi_x33 i
                                           * res33 jacobi_x33 i)).
  { rewrite sumsq_sum, Hlen. apply sum_range_ext. intros i Hi.
    rewrite Hval, res33_row by lia.
    assert (E : res33 (at_ (jacobi_step A33 f33 (ones_like f33))) i
                = res33 jacobi_x33 i).
    { unfold res33.
      destruct (Nat.eqb_spec i 0) as [->|]; [rewrite jacobi_step_33 by lia; reflexivity|].
      destruct (Nat.eqb_spec i 32) as [->|]; [rewrite jacobi_step_33 by lia; reflexivity|].
      rewrite (jacobi_step_33 i) by lia.
      destruct (Nat.eqb_spec i 1); destruct (Nat.eqb_spec i 31);
        rewrite ?jacobi_step_33 by lia; reflexivity. }
    rewrite E. reflexivity. }
  assert (Hnum : 723.9965 * 723.9965 < sumsq res < 723.9966 * 723.9966).
  { rewrite Hsq.
    cbv [sum_range jacobi_x33 gs33_update res33 poisson_rhs
         map seq fold_right Nat.eqb Nat.sub Nat.add orb
         Z.of_nat Pos.of_succ_nat Pos.succ].
    split; lra. }
  split.
  - apply norm2_gt; lra.
  - apply Rlt_le_trans with (sqrt (723.9966 * 723.9966)).
    + unfold norm2. apply sqrt_lt_1_alt. split; [apply sumsq_nonneg | lra].
    + rewrite sqrt_square by lra. lra.
Qed.

(** Whatever the cap, [jacobi] on the notebook's system ends at the cap
    with the same residual norm, far above the tolerance. *)
Lemma jacobi_never_converges_on_poisson_system (nmax : Z) :
  (1 <= nmax)%Z ->
  exists out,
    jacobi A33 f33 nmax default_eps = OK out /\
    printed_it out = nmax /\
    723.9965 < printed_tol out < 723.9966.
Proof.
  intros Hn.
  destruct (jacobi_call A33 f33 33 nmax default_eps shaped_33)
    as (s & res & _ & HI & Hres & Hj).
  destruct HI as (_ & _ & _ & _ & _ & Hx).
  rewrite Hx in * by lia.
  eexists. split; [exact Hj|]. simpl.
  split; [lia|]. exact (jacobi_residual_norm_33 res Hres).
Qed.

(** C7. On the assembled system of 33 points, with the default cap and
    tolerance, [jacobi] ends because its counter reaches the cap of 10000,
    and the residual norm it prints is 723.9965...: it does not reach the
    tolerance, so there is no count of sweeps at which it does.
    [gauss_seidel] on the same system reaches the tolerance after exactly
    2790 sweeps.  The two printed counts are 2790 and 10000, as in the
    notebook's recorded output, but the second is the cap and not a count
    of sweeps to the tolerance. *)
Theorem jacobi_misses_tolerance_on_poisson_system :
  (exists out,
     jacobi A33 f33 jacobi_nmax default_eps = OK out /\
     printed_it out = jacobi_nmax /\
     723.9965 < printed_tol out < 723.9966 /\
     printed_tol out > default_eps) /\
  (exists out,
     gauss_seidel A33 f33 gauss_seidel_nmax default_eps = OK out /\
     printed_it out = 2790%Z /\
     9994 / 10 ^ 14 < printed_tol out <= default_eps).
Proof.
  split.
  - destruct (jacobi_call A33 f33 33 jacobi_nmax default_eps shaped_33)
      as (s & res & _ & HI & Hres & Hj).
    destruct HI as (_ & _ & _ & _ & _ & Hx).
    rewrite Hx in * by (unfold jacobi_nmax; lia).
    eexists. split; [exact Hj|]. simpl.
    split; [reflexivity|].
    pose proof (jacobi_residual_norm_33 res Hres) as H2.
    split; [exact H2|].
    unfold default_eps. lra.
  - destruct gauss_seidel_on_poisson_system_count
      as (out & res & Hg & Hit & _ & _ & Htol).
    exists out. auto.
Qed.

(** ** The two loops side by side *)

Lemma while_step {S : Type} (fuel : nat) (cond : S -> bool)
  (body : S -> result S) (s : S) :
  cond s = true ->
  while_ (Datatypes.S fuel) cond body s
  = (s' <- body s ;; while_ fuel cond body s').
Proof. intros H. simpl. rewrite H. reflexivity. Qed.

Lemma while_stop {S : Type} (fuel : nat) (cond : S -> bool)
  (body : S -> result S) (s : S) :
  cond s = false -> while_ fuel cond body s = OK s.
Proof. intros H. destruct fuel; simpl; rewrite H; reflexivity. Qed.

(** On the system [1 x = 1] with cap 3, [gauss_seidel] stops after the
    first sweep, where the residual is zero; [jacobi] on the same input
    goes on to the cap (see [jacobi_sweeps_past_tolerance]). *)
Example gauss_seidel_stops_at_tolerance :
  gauss_seidel [[1]] [1] 3 default_eps = OK (mkOutcome 1 0 [1]).
Proof.
  pose proof default_eps_pos as He.
  assert (Hbody : gauss_seidel_body [[1]] [1] 1 (initial [1] default_eps)
                  = OK (mkLocals 1 0 [1] [1])).
  { unfold gauss_seidel_body, initial, residual, vsub. simpl.
    replace (1 / 1 * (1 - 0 - 0)) with 1 by lra.
    replace (1 - (1 * 1 + 0)) with 0 by lra.
    rewrite norm2_zero. reflexivity. }
  assert (Hw : while_ 3 (guard 3 default_eps) (gauss_seidel_body [[1]] [1] 1)
                 (initial [1] default_eps)
               = OK (mkLocals 1 0 [1] [1])).
  { rewrite while_step by (apply guard_true; simpl; split; [lia | lra]).
    rewrite Hbody. cbn [bind].
    apply while_stop. apply guard_false. right. simpl. lra. }
  unfold gauss_seidel.
  change (length [[1]]) with 1%nat. change (Z.to_nat 3) with 3%nat.
  fold (initial [1] default_eps). rewrite Hw. reflexivity.
Qed.

(** * Further properties of the notebook's code

    The solvers with a cap that lets no sweep run, the assembled system for
    any number of points, the loop body of [gradient], and what a sweep
    reads. *)

(** ** The solvers at the edges of their domain *)

Lemma guard_cap_not_positive (nmax : Z) (eps : R) (b : vec) :
  (nmax <= 0)%Z -> guard nmax eps (initial b eps) = false.
Proof. intros H. apply guard_false. left. simpl. lia. Qed.

Lemma vec_ext (u v : vec) :
  length u = length v ->
  (forall i, (i < length u)%nat -> at_ u i = at_ v i) -> u = v.
Proof.
  intros Hl H. apply (nth_ext u v 0 0 Hl). exact H.
Qed.

Lemma residual_zeros (A : matrix) (b : vec) (N : nat) :
  shaped A b N -> residual A b (zeros_like b) = OK b.
Proof.
  intros Hs.
  assert (Hb : length b = N) by (destruct Hs as (_ & _ & Hb); exact Hb).
  destruct (residual_ok A b (zeros_like b) N Hs) as (res & Hr & Hl & He).
  { rewrite length_zeros_like. exact Hb. }
  rewrite Hr. apply f_equal. apply vec_ext.
  - congruence.
  - intros i Hi. rewrite Hl in Hi. rewrite (He i Hi).
    rewrite sum_range_zero.
    + lra.
    + intros j _. rewrite at_zeros_like. lra.
Qed.

(** X1. With a cap of zero or less [gauss_seidel] never enters its loop: it
    touches neither [A] nor [b]'s entries, returns the array of zeros and
    prints the counter [0] and the start value [eps+1] of [tol], which is
    not a residual norm.  *)
Theorem gauss_seidel_cap_not_positive (A : matrix) (b : vec) (nmax : Z)
  (eps : R) :
  (nmax <= 0)%Z ->
  gauss_seidel A b nmax eps = OK (mkOutcome 0 (eps + 1) (zeros_like b)).
Proof.
  intros H. unfold gauss_seidel.
  change (mkLocals 0 (eps + 1) (zeros_like b) (ones_like b))
    with (initial b eps).
  rewrite while_stop by (apply guard_cap_not_positive; exact H).
  reflexivity.
Qed.

Lemma gauss_seidel_cap_not_positive_witness :
  (0 <= 0)%Z /\
  gauss_seidel [[2]] [4] 0 default_eps
  = OK (mkOutcome 0 (default_eps + 1) (zeros_like [4])).
Proof.
  split; [lia | apply gauss_seidel_cap_not_positive; lia].
Defined.

(** X2. With a cap of zero or less [jacobi] runs no sweep either, but its
    residual lines follow the loop: it returns the array of zeros and
    prints [0] and the norm of [b]. *)
Theorem jacobi_cap_not_positive (A : matrix) (b : vec) (N : nat) (nmax : Z)
  (eps : R) :
  shaped A b N -> (nmax <= 0)%Z ->
  jacobi A b nmax eps = OK (mkOutcome 0 (norm2 b) (zeros_like b)).
Proof.
  intros Hs H. unfold jacobi.
  change (mkLocals 0 (eps + 1) (zeros_like b) (ones_like b))
    with (initial b eps).
  rewrite while_stop by (apply guard_cap_not_positive; exact H).
  cbn [bind initial l_x l_it].
  rewrite (residual_zeros A b N Hs). reflexivity.
Qed.

Lemma jacobi_cap_not_positive_witness :
  shaped [[2]] [4] 1 /\ (0 <= 0)%Z /\
  jacobi [[2]] [4] 0 default_eps = OK (mkOutcome 0 (norm2 [4]) (zeros_like [4])).
Proof.
  split; [apply shaped_1 | split; [lia |]].
  apply (jacobi_cap_not_positive [[2]] [4] 1); [apply shaped_1 | lia].
Defined.

(** ** Two loops with the same body *)

(** Two results that agree up to a relation on the values. *)
Lemma while_related {S : Type} (Rel : S -> S -> Prop)
  (c1 c2 : S -> bool) (body : S -> result S) :
  (forall s1 s2, Rel s1 s2 -> c1 s1 = c2 s2) ->
  (forall s1 s2, Rel s1 s2 ->
     match body s1, body s2 with
     | OK a1, OK a2 => Rel a1 a2
     | Raise e1, Raise e2 => e1 = e2
     | OutOfFuel, OutOfFuel => True
     | _, _ => False
     end) ->
  forall fuel s1 s2, Rel s1 s2 ->
    match while_ fuel c1 body s1, while_ fuel c2 body s2 with
    | OK a1, OK a2 => Rel a1 a2
    | Raise e1, Raise e2 => e1 = e2
    | OutOfFuel, OutOfFuel => True
    | _, _ => False
    end.
Proof.
  intros Hc Hb. induction fuel as [|fuel IH]; intros s1 s2 HR.
  - simpl. rewrite (Hc s1 s2 HR). destruct (c2 s2); [exact I | exact HR].
  - simpl. rewrite (Hc s1 s2 HR). destruct (c2 s2); [| exact HR].
    specialize (Hb s1 s2 HR).
    destruct (body s1) as [a1| e1 |], (body s2) as [a2| e2 |];
      simpl; try contradiction; try exact Hb.
    apply IH. exact Hb.
Qed.

(** ** Operands of different lengths *)



Lemma for_range_first {S : Type} (N : nat) (body : nat -> S -> result S)
  (s : S) :
  (1 <= N)%nat ->
  for_ (range N) body s = (s' <- body O s ;; for_ (seq 1 (N - 1)) body s').
Proof.
  intros H. destruct N as [|N]; [lia|].
  unfold range. replace (Datatypes.S N - 1)%nat with N by lia. reflexivity.
Qed.


(** ** The assembly for any number of points *)

(** X8. The three cells run through for two points or more; for one point the
    spacing [1./(n-1)] divides by zero, and for none or a negative number
    [ones((n-1,))] is asked for a negative length. *)
Theorem assemble_by_point_count (n : Z) :
  assemble n
  = if (n =? 1)%Z then Raise ZeroDivisionError
    else if (n <=? 0)%Z then Raise ValueError
    else OK (tab (Z.to_nat n) (poisson_entry (Z.to_nat n) (1 / IZR (n - 1))),
             map (poisson_rhs (Z.to_nat n) (1 / IZR (n - 1)))
                 (seq 0 (Z.to_nat n))).
Proof.
  destruct (Z.eqb_spec n 1) as [->|H1].
  - reflexivity.
  - destruct (Z.leb_spec n 0) as [H0|H0].
    + unfold assemble, float_div_int, ones.
      destruct (Z.eqb_spec (n - 1) 0) as [E|_]; [lia|].
      cbn [bind].
      destruct (Z.ltb_spec (n - 1) 0) as [_|E]; [|lia].
      reflexivity.
    + apply assemble_ok. lia.
Qed.

(** ** The grid and the right-hand side *)

Lemma IZR_last (n : Z) :
  (2 <= n)%Z -> IZR (Z.of_nat (Z.to_nat n - 1)) = IZR (n - 1).
Proof.
  intros H. f_equal. lia.
Qed.

Lemma IZR_pred_pos (n : Z) : (2 <= n)%Z -> 0 < IZR (n - 1).
Proof. intros H. apply IZR_lt. lia. Qed.

Lemma at_linspace (n : Z) (i : nat) :
  (2 <= n)%Z -> (i < Z.to_nat n)%nat ->
  at_ (linspace 0 1 n) i = IZR (Z.of_nat i) * (1 / IZR (n - 1)).
Proof.
  intros Hn Hi. rewrite linspace_unit by exact Hn. unfold at_.
  exact (nth_map_seq (fun i => IZR (Z.of_nat i) * (1 / IZR (n - 1)))
           (Z.to_nat n) i 0 Hi).
Qed.

Lemma grid_range (n : Z) (i : nat) :
  (2 <= n)%Z -> (i < Z.to_nat n)%nat ->
  0 <= IZR (Z.of_nat i) * (1 / IZR (n - 1)) <= 1.
Proof.
  intros Hn Hi.
  assert (Hp := IZR_pred_pos n Hn).
  assert (H0 : 0 <= IZR (Z.of_nat i)) by (apply IZR_le; lia).
  assert (H1 : IZR (Z.of_nat i) <= IZR (n - 1)) by (apply IZR_le; lia).
  unfold Rdiv. rewrite Rmult_1_l.
  assert (Hi' : 0 < / IZR (n - 1)) by (apply Rinv_0_lt_compat; exact Hp).
  split.
  - apply Rmult_le_pos; lra.
  - apply Rmult_le_reg_r with (IZR (n - 1)); [exact Hp|].
    rewrite Rmult_assoc, Rinv_l by lra. lra.
Qed.

(** X9. The grid [x] starts at [0] and ends at [1], and the right-hand side
    the assembly returns is [x[i]*(1.-x[i])] at the inner points and zero at
    both ends; all its entries lie between [0] and [1/4]. *)
Theorem assembled_rhs_values (n : Z) (A : matrix) (f : vec) (i : nat) :
  (2 <= n)%Z -> assemble n = OK (A, f) -> (i < Z.to_nat n)%nat ->
  let x := linspace 0 1 n in
  at_ x 0 = 0 /\ at_ x (Z.to_nat n - 1) = 1 /\
  at_ f i = (if ((i =? 0) || (i =? Z.to_nat n - 1))%nat then 0
             else at_ x i * (1 - at_ x i)) /\
  0 <= at_ f i <= 1 / 4.
Proof.
  intros Hn Ha Hi x. subst x.
  rewrite assemble_ok in Ha by exact Hn. injection Ha as _ <-.
  assert (Hp := IZR_pred_pos n Hn).
  rewrite !at_linspace by (try exact Hn; lia).
  rewrite IZR_last by exact Hn.
  assert (Hf : at_ (map (poisson_rhs (Z.to_nat n) (1 / IZR (n - 1)))
                      (seq 0 (Z.to_nat n))) i
               = poisson_rhs (Z.to_nat n) (1 / IZR (n - 1)) i).
  { unfold at_. exact (nth_map_seq _ (Z.to_nat n) i 0 Hi). }
  rewrite Hf. unfold poisson_rhs.
  assert (Hg := grid_range n i Hn Hi).
  set (xi := IZR (Z.of_nat i) * (1 / IZR (n - 1))) in *.
  split; [simpl; lra|].
  split; [field; lra|].
  split; [reflexivity|].
  destruct ((i =? 0) || (i =? Z.to_nat n - 1))%nat; [lra|].
  split; [apply Rmult_le_pos; lra|].
  assert (0 <= (xi - 1 / 2) * (xi - 1 / 2)) by apply Rle_0_sqr.
  lra.
Qed.

Lemma assembled_rhs_values_witness :
  let x := linspace 0 1 3 in
  let f := map (poisson_rhs 3 (1 / IZR (3 - 1))) (seq 0 3) in
  at_ x 0 = 0 /\ at_ x (Z.to_nat 3 - 1) = 1 /\
  at_ f 1 = (if ((1 =? 0) || (1 =? Z.to_nat 3 - 1))%nat then 0
             else at_ x 1 * (1 - at_ x 1)) /\
  0 <= at_ f 1 <= 1 / 4.
Proof.
  apply (assembled_rhs_values 3
           (tab 3 (poisson_entry 3 (1 / IZR (3 - 1))))
           (map (poisson_rhs 3 (1 / IZR (3 - 1))) (seq 0 3)) 1).
  - lia.
  - apply (assemble_ok 3). lia.
  - simpl. lia.
Defined.

(** ** Sums *)






(** ** The rows of the assembled matrix *)

Lemma poisson_entry_boundary (N : nat) (h : R) (i j : nat) :
  i = O \/ i = (N - 1)%nat ->
  poisson_entry N h i j = if (i =? j)%nat then 1 else 0.
Proof.
  intros [-> | ->]; unfold poisson_entry.
  - reflexivity.
  - rewrite Nat.eqb_refl, orb_true_r. reflexivity.
Qed.









(** ** The energy of the assembled matrix *)










(** ** The loop body of [gradient] *)










Section GradientBody.

Variable linalg_solve : matrix -> vec -> result vec.



End GradientBody.


(** ** The solvers on the assembled system of any size *)

Lemma dirichlet_assembled (N : nat) (h : R) (b : vec) :
  (2 <= N)%nat -> at_ b 0 = 0 -> at_ b (N - 1) = 0 ->
  dirichlet (tab N (poisson_entry N h)) b N.
Proof.
  intros HN H0 H1. unfold dirichlet.
  split; [| split; [| split; assumption]].
  - intros j Hj. rewrite entry_tab by lia.
    rewrite poisson_entry_boundary by (left; reflexivity).
    rewrite Nat.eqb_sym. reflexivity.
  - intros j Hj. rewrite entry_tab by lia.
    rewrite poisson_entry_boundary by (right; reflexivity).
    rewrite Nat.eqb_sym. reflexivity.
Qed.

Lemma at_poisson_rhs (N : nat) (h : R) (i : nat) :
  (i < N)%nat ->
  at_ (map (poisson_rhs N h) (seq 0 N)) i = poisson_rhs N h i.
Proof.
  intros H. unfold at_. exact (nth_map_seq (poisson_rhs N h) N i 0 H).
Qed.

(** X16. For any number [n >= 2] of points, any cap and any tolerance, [jacobi]
    and [gauss_seidel] run on the assembled system without an exception,
    and the array they return has the boundary values [x[0] = 0] and
    [x[n-1] = 0]. *)
Theorem solvers_on_assembled_system (n : Z) (A : matrix) (f : vec)
  (nmax : Z) (eps : R) :
  (2 <= n)%Z -> assemble n = OK (A, f) ->
  (exists out,
     jacobi A f nmax eps = OK out /\ length (returned out) = Z.to_nat n /\
     at_ (returned out) 0 = 0 /\ at_ (returned out) (Z.to_nat n - 1) = 0) /\
  (exists out,
     gauss_seidel A f nmax eps = OK out /\
     length (returned out) = Z.to_nat n /\
     at_ (returned out) 0 = 0 /\ at_ (returned out) (Z.to_nat n - 1) = 0).
Proof.
  intros Hn Ha.
  rewrite assemble_ok in Ha by exact Hn. injection Ha as <- <-.
  set (N := Z.to_nat n). set (h := 1 / IZR (n - 1)).
  assert (HN : (2 <= N)%nat) by (unfold N; lia).
  assert (Hs : shaped (tab N (poisson_entry N h))
                 (map (poisson_rhs N h) (seq 0 N)) N).
  { apply shaped_tab. rewrite length_map, length_seq. reflexivity. }
  assert (Hd : dirichlet (tab N (poisson_entry N h))
                 (map (poisson_rhs N h) (seq 0 N)) N).
  { apply dirichlet_assembled; [exact HN | |].
    - rewrite at_poisson_rhs by lia. reflexivity.
    - rewrite at_poisson_rhs by lia. unfold poisson_rhs.
      rewrite Nat.eqb_refl, orb_true_r. reflexivity. }
  split.
  - destruct (jacobi_boundary _ _ N nmax eps Hs Hd ltac:(lia))
      as ((out & Ho & H0 & H1) & _).
    exists out. split; [exact Ho|]. split; [| split; assumption].
    destruct (jacobi_call _ _ N nmax eps Hs) as (s & res & _ & Hinv & _ & Hc).
    rewrite Hc in Ho. injection Ho as <-. cbn [returned].
    destruct Hinv as (_ & _ & _ & Hl & _). exact Hl.
  - destruct (gauss_seidel_boundary _ _ N nmax eps Hs Hd ltac:(lia))
      as (k & out & Ho & _ & H0 & H1 & _).
    exists out. split; [exact Ho|]. split; [| split; assumption].
    destruct (gauss_seidel_loop _ _ N nmax eps Hs)
      as (k' & s & Hw & _ & Hinv & _).
    unfold gauss_seidel in Ho.
    change (mkLocals 0 (eps + 1)
              (zeros_like (map (poisson_rhs N h) (seq 0 N)))
              (ones_like (map (poisson_rhs N h) (seq 0 N))))
      with (initial (map (poisson_rhs N h) (seq 0 N)) eps) in Ho.
    rewrite length_tab in Ho. rewrite Hw in Ho. cbn [bind] in Ho.
    injection Ho as <-. cbn [returned].
    destruct Hinv as (_ & Hl & _). exact Hl.
Qed.

Lemma solvers_on_assembled_system_witness :
  let A := tab 3 (poisson_entry 3 (1 / IZR (3 - 1))) in
  let f := map (poisson_rhs 3 (1 / IZR (3 - 1))) (seq 0 3) in
  (exists out,
     jacobi A f 5 default_eps = OK out /\ length (returned out) = Z.to_nat 3 /\
     at_ (returned out) 0 = 0 /\ at_ (returned out) (Z.to_nat 3 - 1) = 0) /\
  (exists out,
     gauss_seidel A f 5 default_eps = OK out /\
     length (returned out) = Z.to_nat 3 /\
     at_ (returned out) 0 = 0 /\ at_ (returned out) (Z.to_nat 3 - 1) = 0).
Proof.
  apply (solvers_on_assembled_system 3).
  - lia.
  - apply (assemble_ok 3). lia.
Defined.

(** ** What a sweep reads *)

(** X18. A sweep of either solver writes every entry of [x] before it reads it:
    the result depends on [x_old] alone.  The array of zeros that [x]
    starts as is never read, and the start vector of both iterations is
    the array of ones in [x_old]. *)
Theorem sweep_overwrites_x (A : matrix) (b : vec) (N : nat)
  (x_old x1 x2 : vec) :
  shaped A b N -> length x_old = N -> length x1 = N -> length x2 = N ->
  (exists x', for_ (range N) (jacobi_assign A b N x_old) x1 = OK x' /\
              for_ (range N) (jacobi_assign A b N x_old) x2 = OK x') /\
  (exists x', for_ (range N) (gauss_seidel_assign A b N x_old) x1 = OK x' /\
              for_ (range N) (gauss_seidel_assign A b N x_old) x2 = OK x').
Proof.
  intros Hs Hold H1 H2. split.
  - exists (jacobi_step A b x_old).
    split; apply jacobi_sweep; assumption.
  - assert (Hsweep : forall x0, length x0 = N ->
      exists x', for_ (range N) (gauss_seidel_assign A b N x_old) x0 = OK x' /\
                 length x' = N /\
                 forall i, (i < N)%nat ->
                   at_ x' i = gauss_seidel_value A b N x_old i x').
    { intros x0 H0.
      apply (for_sweep N (gauss_seidel_assign A b N x_old)
               (fun i x => gauss_seidel_value A b N x_old i x)).
      - intros i x Hi Hx. apply gauss_seidel_assign_ok; assumption.
      - intros i x x' Hf. apply gauss_seidel_value_prefix. exact Hf.
      - exact H0. }
    destruct (Hsweep x1 H1) as (y1 & Hy1 & Hl1 & Hv1).
    destruct (Hsweep x2 H2) as (y2 & Hy2 & Hl2 & Hv2).
    assert (E : y1 = y2).
    { apply vec_ext; [congruence|].
      rewrite Hl1.
      assert (Hpre : forall k, (k <= N)%nat ->
                forall i, (i < k)%nat -> at_ y1 i = at_ y2 i).
      { induction k as [|k IH]; intros Hk i Hi; [lia|].
        destruct (Nat.eq_dec i k) as [->|Hne]; [| apply IH; lia].
        rewrite Hv1, Hv2 by lia.
        rewrite !gauss_seidel_value_formula.
        rewrite (sum_range_ext 0 k
                   (fun j => entry A k j * at_ y1 j)
                   (fun j => entry A k j * at_ y2 j)).
        - reflexivity.
        - intros j Hj. rewrite IH by lia. reflexivity. }
      intros i Hi. apply (Hpre N); lia. }
    exists y1. split; [exact Hy1 | rewrite E; exact Hy2].
Qed.

Lemma sweep_overwrites_x_witness :
  (exists x',
     for_ (range 2) (jacobi_assign [[2; 0]; [1; 1]] [4; 5] 2 [1; 1]) [0; 0]
     = OK x' /\
     for_ (range 2) (jacobi_assign [[2; 0]; [1; 1]] [4; 5] 2 [1; 1]) [7; 9]
     = OK x') /\
  (exists x',
     for_ (range 2) (gauss_seidel_assign [[2; 0]; [1; 1]] [4; 5] 2 [1; 1])
       [0; 0] = OK x' /\
     for_ (range 2) (gauss_seidel_assign [[2; 0]; [1; 1]] [4; 5] 2 [1; 1])
       [7; 9] = OK x').
Proof.
  apply (sweep_overwrites_x [[2; 0]; [1; 1]] [4; 5] 2 [1; 1] [0; 0] [7; 9]).
  - apply shaped_2.
  - reflexivity.
  - reflexivity.
  - reflexivity.
Defined.

(** * The solvers in binary64

    What holds of [jacobi] and [gauss_seidel] with the arithmetic of the
    machine: the values a sweep stores, the count at which the loops stop,
    and the calls on a right-hand side of the wrong length. *)

Module B64Facts.

Import Floats B64.
Local Open Scope float_scope.

(** ** Indexing and slices *)

Lemma f64_getrow_ok (A : matrix) (i : nat) :
  (i < length A)%nat -> getrow A i = OK (nth i A []).
Proof.
  intros H. unfold getrow. rewrite (nth_error_nth_lt A i [] H). reflexivity.
Qed.

Lemma f64_getitem2_ok (A : matrix) (i j : nat) :
  (i < length A)%nat -> (j < length (nth i A []))%nat ->
  getitem2 A i j = OK (entry A i j).
Proof.
  intros Hi Hj. unfold getitem2. rewrite f64_getrow_ok by exact Hi.
  cbn [bind]. rewrite (nth_error_nth_lt (nth i A []) j 0 Hj). reflexivity.
Qed.

Lemma f64_getitem_ok (l : list float) (i : nat) :
  (i < length l)%nat -> getitem (Float64 l) i = OK (nth i l 0).
Proof.
  intros H. unfold getitem. cbn [astype_float64].
  rewrite (nth_error_nth_lt l i 0 H). reflexivity.
Qed.

Lemma f64_setitem_ok (l : list float) (i : nat) (v : float) :
  (i < length l)%nat -> setitem (Float64 l) i v = OK (Float64 (upd l i v)).
Proof.
  intros H. unfold setitem. cbn [size].
  destruct (Nat.ltb_spec i (length l)); [reflexivity | lia].
Qed.

Lemma length_cut (l : list float) (lo hi : nat) :
  (hi <= length l)%nat -> length (cut l lo hi) = (hi - lo)%nat.
Proof.
  intros H. unfold cut. rewrite length_skipn, length_firstn. lia.
Qed.

Lemma cut_prefix (l : list float) (i : nat) : cut l 0 i = firstn i l.
Proof. reflexivity. Qed.

Lemma dot_cut (row x : list float) (lo hi : nat) :
  (hi <= length row)%nat -> (hi <= length x)%nat ->
  dot (cut row lo hi) (cut x lo hi)
  = OK (sum_products (cut row lo hi) (cut x lo hi)).
Proof.
  intros Hr Hx. unfold dot. rewrite !length_cut by assumption.
  rewrite Nat.eqb_refl. reflexivity.
Qed.

(** ** One sweep *)

Lemma sweep_value_prefix (A : matrix) (b : list float) (N : nat)
  (x_old : list float) (i : nat) (x x' : list float) :
  firstn i x = firstn i x' ->
  sweep_value A b N x_old i x = sweep_value A b N x_old i x'.
Proof.
  intros H. unfold sweep_value. rewrite !cut_prefix, H. reflexivity.
Qed.

Lemma f64_gauss_seidel_assign_ok (A : matrix) (b : list float) (N : nat)
  (x_old x : list float) (i : nat) :
  shaped A (Float64 b) N -> length x_old = N -> length x = N -> (i < N)%nat ->
  gauss_seidel_assign A (Float64 b) N (Float64 x_old) i (Float64 x)
  = OK (Float64 (upd x i (sweep_value A b N x_old i x))).
Proof.
  intros (HA & Hrow & Hb) Hold Hx Hi. cbn [size] in Hb.
  unfold gauss_seidel_assign, rowslice, slice. cbn [astype_float64].
  rewrite f64_getitem2_ok by (rewrite ?Hrow; lia). cbn [bind].
  rewrite f64_getitem_ok by lia. cbn [bind].
  rewrite f64_getrow_ok by lia. cbn [bind].
  rewrite dot_cut by (rewrite ?Hrow; lia). cbn [bind].
  rewrite dot_cut by (rewrite ?Hrow; lia). cbn [bind].
  rewrite f64_setitem_ok by lia. reflexivity.
Qed.

Lemma f64_jacobi_assign_ok (A : matrix) (b : list float) (N : nat)
  (x_old x : list float) (i : nat) :
  shaped A (Float64 b) N -> length x_old = N -> length x = N -> (i < N)%nat ->
  jacobi_assign A (Float64 b) N (Float64 x_old) i (Float64 x)
  = OK (Float64 (upd x i (sweep_value A b N x_old i x_old))).
Proof.
  intros (HA & Hrow & Hb) Hold Hx Hi. cbn [size] in Hb.
  unfold jacobi_assign, rowslice, slice. cbn [astype_float64].
  rewrite f64_getitem2_ok by (rewrite ?Hrow; lia). cbn [bind].
  rewrite f64_getitem_ok by lia. cbn [bind].
  rewrite f64_getrow_ok by lia. cbn [bind].
  rewrite dot_cut by (rewrite ?Hrow; lia). cbn [bind].
  rewrite dot_cut by (rewrite ?Hrow; lia). cbn [bind].
  rewrite f64_setitem_ok by lia. reflexivity.
Qed.

(** A sweep [for i in range(N): x[i] = g(i, x)] over a float64 array, where
    [g(i, x)] reads [x] below [i] only, ends with a float64 array whose
    every entry is [g] of the final array. *)
Lemma f64_for_sweep (N : nat) (body : nat -> ndarray -> result ndarray)
  (g : nat -> list float -> float) :
  (forall i x, (i < N)%nat -> length x = N ->
               body i (Float64 x) = OK (Float64 (upd x i (g i x)))) ->
  (forall i x x', firstn i x = firstn i x' -> g i x = g i x') ->
  forall x0, length x0 = N ->
  exists x', for_ (range N) body (Float64 x0) = OK (Float64 x') /\
             length x' = N /\
             forall i, (i < N)%nat -> nth i x' 0 = g i x'.
Proof.
  intros Hbody Hg.
  assert (G : forall m k x, (k + m = N)%nat -> length x = N ->
            (forall i, (i < k)%nat -> nth i x 0 = g i x) ->
            exists x', for_ (seq k m) body (Float64 x) = OK (Float64 x') /\
                       length x' = N /\
                       forall i, (i < N)%nat -> nth i x' 0 = g i x').
  { induction m as [|m IH]; intros k x Hk Hlen Hdone.
    - exists x. split; [reflexivity|]. split; [exact Hlen|].
      intros i Hi. apply Hdone. lia.
    - cbn [seq for_]. rewrite Hbody by lia. cbn [bind].
      apply IH; [lia | rewrite length_upd; exact Hlen |].
      intros i Hi.
      destruct (Nat.eq_dec i k) as [->|Hne].
      + rewrite nth_upd_eq by lia. apply Hg.
        symmetry. apply firstn_upd. lia.
      + rewrite nth_upd_neq by lia.
        transitivity (g i x); [apply Hdone; lia|].
        apply Hg. symmetry. apply firstn_upd. lia. }
  intros x0 Hlen. apply (G N O x0); [lia | exact Hlen |].
  intros i Hi. lia.
Qed.

(** ** The residual *)

Lemma f64_matvec_ok (A : matrix) (x : list float) :
  (forall i, (i < length A)%nat -> length (nth i A []) = length x) ->
  exists y, matvec A x = OK y /\ length y = length A.
Proof.
  induction A as [|row A IH]; intros Hrows.
  - exists []. split; reflexivity.
  - destruct IH as (y & Hy & Hlen).
    { intros i Hi. apply (Hrows (S i)). simpl. lia. }
    assert (Hr : length row = length x) by (apply (Hrows O); simpl; lia).
    exists (sum_products row x :: y). cbn [matvec]. unfold dot.
    rewrite Hr, Nat.eqb_refl. cbn [bind]. rewrite Hy. cbn [bind].
    split; [reflexivity | simpl; lia].
Qed.

Lemma f64_length_zipsub (u v : list float) :
  length u = length v -> length (zipsub u v) = length u.
Proof.
  revert v. induction u as [|a u IH]; intros [|c v] H; simpl in *;
    try lia; auto.
Qed.

Lemma f64_residual_ok (A : matrix) (b x : list float) (N : nat) :
  shaped A (Float64 b) N -> length x = N ->
  exists res, residual A (Float64 b) (Float64 x) = OK res /\ length res = N.
Proof.
  intros (HA & Hrow & Hb) Hx. cbn [size] in Hb.
  destruct (f64_matvec_ok A x) as (y & Hy & Hlen).
  { intros i Hi. rewrite Hrow; lia. }
  exists (zipsub b y). unfold residual. cbn [astype_float64].
  rewrite Hy. cbn [bind]. unfold vsub.
  replace (length b =? length y)%nat with true
    by (symmetry; apply Nat.eqb_eq; lia).
  split; [reflexivity|]. rewrite f64_length_zipsub; lia.
Qed.

(** ** The loop of [gauss_seidel] *)

Lemma f64_gauss_seidel_body_ok (A : matrix) (b : list float) (N : nat)
  (it : Z) (tol : float) (x x_old : list float) :
  shaped A (Float64 b) N -> length x = N -> length x_old = N ->
  exists x' res,
    gauss_seidel_body A (Float64 b) N
      (mkLocals it tol (Float64 x) (Float64 x_old))
    = OK (mkLocals (it + 1) (norm2 res) (Float64 x') (Float64 x')) /\
    length x' = N /\
    (forall i, (i < N)%nat -> nth i x' 0 = sweep_value A b N x_old i x') /\
    residual A (Float64 b) (Float64 x') = OK res.
Proof.
  intros Hs Hx Hold.
  destruct (f64_for_sweep N (gauss_seidel_assign A (Float64 b) N (Float64 x_old))
              (fun i y => sweep_value A b N x_old i y))
    with (x0 := x) as (x' & Hfor & Hlen & Hval).
  - intros i y Hi Hy. apply f64_gauss_seidel_assign_ok; assumption.
  - intros i y y' Hf. apply sweep_value_prefix. exact Hf.
  - exact Hx.
  - destruct (f64_residual_ok A b x' N Hs Hlen) as (res & Hres & _).
    exists x', res. unfold gauss_seidel_body. cbn [l_it l_tol l_x l_x_old].
    rewrite Hfor. cbn [bind]. rewrite Hres. cbn [bind].
    repeat split; assumption.
Qed.

Lemma f64_gauss_seidel_body_inv (A : matrix) (b : list float) (N : nat)
  (eps : float) (j : nat) (s : locals) :
  shaped A (Float64 b) N -> gauss_seidel_inv A b N eps j s ->
  exists s', gauss_seidel_body A (Float64 b) N s = OK s' /\
             gauss_seidel_inv A b N eps (S j) s'.
Proof.
  intros Hs (Hit & x & x_old & Hx & Hold & Hlx & Hlo & _).
  destruct s as [it tol sx so]. cbn [l_it l_x l_x_old] in *. subst sx so.
  destruct (f64_gauss_seidel_body_ok A b N it tol x x_old Hs Hlx Hlo)
    as (x' & res & Hb & Hlen & _ & Hres).
  eexists. split; [exact Hb|].
  unfold gauss_seidel_inv. cbn [l_it l_tol l_x l_x_old].
  split; [lia|]. exists x', x'.
  repeat split; try assumption; try reflexivity.
  - intros H. discriminate H.
  - exists res. split; [exact Hres | reflexivity].
Qed.

Lemma f64_guard_true (nmax : Z) (eps : float) (s : locals) :
  guard nmax eps s = true <-> (l_it s < nmax)%Z /\ (eps <? l_tol s) = true.
Proof.
  unfold guard. rewrite andb_true_iff, Z.ltb_lt. tauto.
Qed.

Lemma f64_guard_false (nmax : Z) (eps : float) (s : locals) :
  guard nmax eps s = false <-> (nmax <= l_it s)%Z \/ (eps <? l_tol s) = false.
Proof.
  unfold guard. rewrite andb_false_iff, Z.ltb_ge. tauto.
Qed.

(** The loop of [gauss_seidel] on float64 arrays: it ends, after [n] runs;
    [n] is the first count at which the guard fails. *)
Lemma f64_gauss_seidel_loop (A : matrix) (b : list float) (N : nat)
  (nmax : Z) (eps : float) :
  shaped A (Float64 b) N ->
  exists n s,
    while_ (Z.to_nat nmax) (guard nmax eps)
      (gauss_seidel_body A (Float64 b) N) (initial (Float64 b) eps) = OK s /\
    iterate n (gauss_seidel_body A (Float64 b) N) (initial (Float64 b) eps)
    = OK s /\
    gauss_seidel_inv A b N eps n s /\ guard nmax eps s = false /\
    forall m, (m < n)%nat ->
      exists sm,
        iterate m (gauss_seidel_body A (Float64 b) N)
          (initial (Float64 b) eps) = OK sm /\
        gauss_seidel_inv A b N eps m sm /\ guard nmax eps sm = true.
Proof.
  intros Hs.
  assert (Hstep : forall j s, gauss_seidel_inv A b N eps j s ->
            guard nmax eps s = true ->
            (j < Z.to_nat nmax)%nat /\
            exists s', gauss_seidel_body A (Float64 b) N s = OK s' /\
                       gauss_seidel_inv A b N eps (S j) s').
  { intros j s HI Hg. split; [| apply f64_gauss_seidel_body_inv; assumption].
    destruct HI as (Hit & _). apply f64_guard_true in Hg. lia. }
  destruct (while_spec (guard nmax eps) (gauss_seidel_body A (Float64 b) N)
              (gauss_seidel_inv A b N eps) (Z.to_nat nmax) Hstep
              (Z.to_nat nmax) O (initial (Float64 b) eps))
    as (n & s & Hw & Hit & HI & Hc & Hm); [| lia |].
  { destruct Hs as (_ & _ & Hb). cbn [size] in Hb.
    unfold gauss_seidel_inv, initial. cbn [l_it l_tol l_x l_x_old].
    split; [reflexivity|].
    exists (map (fun _ => 0) b), (map (fun _ => 1) b).
    rewrite !length_map.
    repeat split; try assumption; try reflexivity; try lia. }
  exists n, s. cbn [Nat.add] in HI, Hm.
  split; [exact Hw|]. split; [exact Hit|]. split; [exact HI|].
  split; [exact Hc | exact Hm].
Qed.

(** C4, as it holds of the code.  On float64 arrays of matching shape and
    for a cap [nmax >= 0], the call of [gauss_seidel] ends after some number
    [n <= nmax] of sweeps and returns the array of the last one, printing
    [n] and the last value of [tol].  The loop stops at the first count at
    which the counter has reached the cap or the test [tol>eps] is false:
    at [n] one of the two holds and at every [m < n] none does.  The test
    is the binary64 one: it is false for [tol <= eps] and also for a [tol]
    that is NaN, and before the first sweep [tol] is [eps+1] rounded.
    Every sweep stores in entry [i] the value
    [1./A[i,i]*(b[i]-dot(A[i,0:i],x[0:i]) - dot(A[i,i+1:N],x_old[i+1:N]))]
    in binary64, with the new values in [x[0:i]] and with [x_old] the
    all-ones array at the first sweep and the array of the sweep before at
    the later ones; after the sweep [tol] is the norm of [b - dot(A,x)]. *)
Theorem gauss_seidel_sweeps_and_stops
  (A : matrix) (b : list float) (N : nat) (nmax : Z) (eps : float) :
  shaped A (Float64 b) N -> (0 <= nmax)%Z ->
  exists n s,
    iterate n (gauss_seidel_body A (Float64 b) N) (initial (Float64 b) eps)
    = OK s /\
    gauss_seidel A (Float64 b) nmax eps
    = OK (mkOutcome (Z.of_nat n) (l_tol s) (l_x s)) /\
    (Z.of_nat n <= nmax)%Z /\
    (n = O -> s = initial (Float64 b) eps) /\
    (Z.of_nat n = nmax \/ (eps <? l_tol s) = false) /\
    (forall m, (m < n)%nat ->
       exists sm,
         iterate m (gauss_seidel_body A (Float64 b) N)
           (initial (Float64 b) eps) = OK sm /\
         (Z.of_nat m < nmax)%Z /\ (eps <? l_tol sm) = true) /\
    (forall m, (m < n)%nat ->
       exists sm sm' x_old x' res,
         iterate m (gauss_seidel_body A (Float64 b) N)
           (initial (Float64 b) eps) = OK sm /\
         iterate (S m) (gauss_seidel_body A (Float64 b) N)
           (initial (Float64 b) eps) = OK sm' /\
         l_x_old sm = Float64 x_old /\
         l_x sm' = Float64 x' /\ l_x_old sm' = Float64 x' /\
         (m = O -> x_old = map (fun _ => 1) b) /\
         ((1 <= m)%nat -> l_x sm = Float64 x_old) /\
         (forall i, (i < N)%nat ->
            nth i x' 0
            = 1 / entry A i i
              * (nth i b 0
                 - sum_products (cut (nth i A []) 0 i) (cut x' 0 i)
                 - sum_products (cut (nth i A []) (i + 1) N)
                     (cut x_old (i + 1) N))) /\
         residual A (Float64 b) (Float64 x') = OK res /\
         l_tol sm' = norm2 res).
Proof.
  intros Hs Hn.
  destruct (f64_gauss_seidel_loop A b N nmax eps Hs)
    as (n & s & Hw & Hit & HI & Hc & Hm).
  assert (Hle : (Z.of_nat n <= nmax)%Z).
  { destruct n as [|n]; [lia|].
    destruct (Hm n) as (sm & _ & (Him & _) & Hg); [lia|].
    apply f64_guard_true in Hg. lia. }
  exists n, s. split; [exact Hit|]. split.
  { unfold gauss_seidel. destruct Hs as (HA & _). rewrite HA.
    fold (initial (Float64 b) eps). rewrite Hw. cbn [bind].
    destruct HI as (Hi & _). rewrite Hi. reflexivity. }
  split; [exact Hle|]. split.
  { destruct HI as (_ & x & xo & _ & _ & _ & _ & H0 & _). exact H0. }
  split.
  { apply f64_guard_false in Hc. destruct HI as (Hi & _).
    destruct Hc as [Hc|Hc]; [left; lia | right; exact Hc]. }
  split.
  - intros m Hlt. destruct (Hm m Hlt) as (sm & Hsm & (Him & _) & Hg).
    apply f64_guard_true in Hg. exists sm. rewrite <- Him.
    split; [exact Hsm | exact Hg].
  - intros m Hlt. destruct (Hm m Hlt) as (sm & Hsm & HIm & _).
    destruct HIm as (Him & x & xo & Hx & Hold & Hlx & Hlo & H0 & H1).
    destruct sm as [it tol sx so]. cbn [l_it l_tol l_x l_x_old] in *.
    subst sx so.
    destruct (f64_gauss_seidel_body_ok A b N it tol x xo Hs Hlx Hlo)
      as (x' & res & Hb & Hlen & Hval & Hres).
    eexists. eexists. exists xo, x', res.
    split; [exact Hsm|].
    split; [cbn [iterate]; rewrite Hsm; exact Hb|].
    cbn [l_it l_tol l_x l_x_old].
    split; [reflexivity|]. split; [reflexivity|]. split; [reflexivity|].
    split.
    { intros E. specialize (H0 E). unfold initial in H0.
      injection H0 as _ _ _ Ho. exact Ho. }
    split.
    { intros E. destruct (H1 E) as [E1 _]. rewrite E1. reflexivity. }
    split; [exact Hval|]. split; [exact Hres | reflexivity].
Qed.

Lemma shaped_3 (a11 a12 a13 a21 a22 a23 a31 a32 a33 c1 c2 c3 : float) :
  shaped [[a11; a12; a13]; [a21; a22; a23]; [a31; a32; a33]]
    (Float64 [c1; c2; c3]) 3.
Proof.
  split; [reflexivity|]. split; [| reflexivity].
  intros [|[|[|i]]] Hi; try reflexivity. lia.
Qed.

(** The theorem at a three by three system, where both dot products of the
    middle row have an entry, with cap 100 and the default tolerance. *)
Lemma gauss_seidel_sweeps_and_stops_witness :
  let A := [[4; 1; 0]; [1; 4; 1]; [0; 1; 4]] in
  let b := [1; 2; 3] in
  shaped A (Float64 b) 3 /\ (0 <= 100)%Z /\
  exists n s,
    iterate n (gauss_seidel_body A (Float64 b) 3)
      (initial (Float64 b) default_eps) = OK s /\
    gauss_seidel A (Float64 b) 100 default_eps
    = OK (mkOutcome (Z.of_nat n) (l_tol s) (l_x s)) /\
    (Z.of_nat n <= 100)%Z /\
    (n = O -> s = initial (Float64 b) default_eps) /\
    (Z.of_nat n = 100%Z \/ (default_eps <? l_tol s) = false) /\
    (forall m, (m < n)%nat ->
       exists sm,
         iterate m (gauss_seidel_body A (Float64 b) 3)
           (initial (Float64 b) default_eps) = OK sm /\
         (Z.of_nat m < 100)%Z /\ (default_eps <? l_tol sm) = true) /\
    (forall m, (m < n)%nat ->
       exists sm sm' x_old x' res,
         iterate m (gauss_seidel_body A (Float64 b) 3)
           (initial (Float64 b) default_eps) = OK sm /\
         iterate (S m) (gauss_seidel_body A (Float64 b) 3)
           (initial (Float64 b) default_eps) = OK sm' /\
         l_x_old sm = Float64 x_old /\
         l_x sm' = Float64 x' /\ l_x_old sm' = Float64 x' /\
         (m = O -> x_old = map (fun _ => 1) b) /\
         ((1 <= m)%nat -> l_x sm = Float64 x_old) /\
         (forall i, (i < 3)%nat ->
            nth i x' 0
            = 1 / entry A i i
              * (nth i b 0
                 - sum_products (cut (nth i A []) 0 i) (cut x' 0 i)
                 - sum_products (cut (nth i A []) (i + 1) 3)
                     (cut x_old (i + 1) 3))) /\
         residual A (Float64 b) (Float64 x') = OK res /\
         l_tol sm' = norm2 res).
Proof.
  intros A b.
  assert (H1 : shaped A (Float64 b) 3) by apply shaped_3.
  assert (H2 : (0 <= 100)%Z) by lia.
  split; [exact H1|]. split; [exact H2|].
  exact (gauss_seidel_sweeps_and_stops A b 3 100 default_eps H1 H2).
Defined.

(** On that system the call makes twelve sweeps and stops below the
    tolerance. *)
Example gauss_seidel_three_by_three :
  exists out,
    gauss_seidel [[4; 1; 0]; [1; 4; 1]; [0; 1; 4]] (Float64 [1; 2; 3]) 100
      default_eps = OK out /\
    printed_it out = 12%Z /\ (printed_tol out <=? default_eps) = true.
Proof.
  eexists. split; [vm_compute; reflexivity|]. split; reflexivity.
Qed.

(** C4, where the claim fails.  On [A = [[0.]]], [b = [1.]] with cap 3 the
    first sweep stores [inf], the residual is NaN and [tol>eps] is false:
    the call ends after one sweep, with the counter below the cap and a
    [tol] that is not at most [eps].  On [[1,2],[2,1]], [b = [1,1]], whose
    diagonal is not zero, the iterates grow until they overflow, and the
    call ends in the same way after 513 sweeps of the 1000 allowed.  On
    [1 x = 1e17] with [eps = 1e16] the start value [eps+1] of [tol] is
    rounded to [eps]: the call runs no sweep and returns the array of
    zeros, whose residual norm is [1e17].  And the value a sweep stores is
    the product with [1./A[i,i]], not the quotient: on [49 x = 49] the sweep
    stores [0.9999999999999999], where [49./49.] is [1]. *)
Lemma gauss_seidel_stops_on_nan :
  (exists out,
     gauss_seidel [[0]] (Float64 [1]) 3 default_eps = OK out /\
     printed_it out = 1%Z /\ returned out = Float64 [infinity] /\
     (printed_it out <? 3)%Z = true /\
     is_nan (printed_tol out) = true /\
     (printed_tol out <=? default_eps) = false) /\
  (exists out,
     gauss_seidel [[1; 2]; [2; 1]] (Float64 [1; 1]) 1000 default_eps
     = OK out /\
     printed_it out = 513%Z /\
     (printed_it out <? 1000)%Z = true /\
     returned out = Float64 [neg_infinity; infinity] /\
     is_nan (printed_tol out) = true /\
     (printed_tol out <=? default_eps) = false) /\
  (exists out res,
     gauss_seidel [[1]] (Float64 [1e17]) 3 1e16 = OK out /\
     printed_it out = 0%Z /\ returned out = Float64 [0] /\
     residual [[1]] (Float64 [1e17]) (returned out) = OK res /\
     norm2 res = 1e17 /\ (norm2 res <=? 1e16) = false) /\
  (exists out,
     gauss_seidel [[49]] (Float64 [49]) 1 default_eps = OK out /\
     returned out = Float64 [0x1.fffffffffffffp-1] /\
     49 / 49 = 1 /\ (0x1.fffffffffffffp-1 <? 1) = true).
Proof.
  split; [| split; [| split]].
  - exists (mkOutcome 1 nan (Float64 [infinity])).
    split; [vm_compute; reflexivity|]. repeat split.
  - exists (mkOutcome 513 nan (Float64 [neg_infinity; infinity])).
    split; [vm_compute; reflexivity|]. repeat split.
  - exists (mkOutcome 0 1e16 (Float64 [0])), [1e17].
    split; [vm_compute; reflexivity|]. repeat split.
  - eexists. split; [vm_compute; reflexivity|]. repeat split.
Qed.

(** ** The loop of [jacobi] *)

Lemma length_jacobi_step_f64 (A : matrix) (b : list float) (N : nat) :
  length (jacobi_step A b N) = N.
Proof. unfold jacobi_step. rewrite length_map, length_seq. reflexivity. Qed.

(** One sweep of [jacobi] from any float64 [x] of the right length, with
    the all-ones array in [x_old]. *)
Lemma f64_jacobi_sweep (A : matrix) (b : list float) (N : nat)
  (x : list float) :
  shaped A (Float64 b) N -> length x = N ->
  for_ (range N)
    (jacobi_assign A (Float64 b) N (Float64 (map (fun _ => 1) b)))
    (Float64 x)
  = OK (Float64 (jacobi_step A b N)).
Proof.
  intros Hs Hx.
  assert (Hb : length b = N) by (destruct Hs as (_ & _ & Hb); exact Hb).
  destruct (f64_for_sweep N
              (jacobi_assign A (Float64 b) N (Float64 (map (fun _ => 1) b)))
              (fun i _ => sweep_value A b N (map (fun _ => 1) b) i
                            (map (fun _ => 1) b)))
    with (x0 := x) as (x' & Hfor & Hlen & Hval).
  - intros i y Hi Hy. apply f64_jacobi_assign_ok; try assumption.
    rewrite length_map. exact Hb.
  - reflexivity.
  - exact Hx.
  - rewrite Hfor. do 2 f_equal.
    apply (nth_ext _ _ 0 0).
    + rewrite length_jacobi_step_f64. exact Hlen.
    + intros i Hi. rewrite Hlen in Hi. rewrite (Hval i Hi).
      unfold jacobi_step. symmetry.
      exact (nth_map_seq _ N i 0 Hi).
Qed.

Lemma f64_jacobi_body_inv (A : matrix) (b : list float) (N : nat)
  (eps : float) (j : nat) (s : locals) :
  shaped A (Float64 b) N -> jacobi_inv A b N eps j s ->
  exists s', jacobi_body A (Float64 b) N s = OK s' /\
             jacobi_inv A b N eps (S j) s'.
Proof.
  intros Hs (Hit & Htol & Hold & x & Hx & Hlen & _).
  unfold jacobi_body. rewrite Hold, Hx.
  rewrite (f64_jacobi_sweep A b N x Hs Hlen). cbn [bind].
  eexists. split; [reflexivity|].
  unfold jacobi_inv. cbn [l_it l_tol l_x l_x_old].
  split; [lia|]. split; [exact Htol|]. split; [reflexivity|].
  exists (jacobi_step A b N).
  split; [reflexivity|]. split; [apply length_jacobi_step_f64|].
  split; [intros H; discriminate H | reflexivity].
Qed.

(** The loop of [jacobi] when the test [eps+1 > eps] holds: it runs
    [nmax] times, and every run writes the same array. *)
Lemma f64_jacobi_loop (A : matrix) (b : list float) (N : nat) (nmax : Z)
  (eps : float) :
  shaped A (Float64 b) N -> (eps <? eps + 1) = true ->
  exists s,
    while_ (Z.to_nat nmax) (guard nmax eps) (jacobi_body A (Float64 b) N)
      (initial (Float64 b) eps) = OK s /\
    iterate (Z.to_nat nmax) (jacobi_body A (Float64 b) N)
      (initial (Float64 b) eps) = OK s /\
    jacobi_inv A b N eps (Z.to_nat nmax) s /\
    forall m, (m < Z.to_nat nmax)%nat ->
      exists sm,
        iterate m (jacobi_body A (Float64 b) N) (initial (Float64 b) eps)
        = OK sm /\
        jacobi_inv A b N eps m sm /\ guard nmax eps sm = true.
Proof.
  intros Hs Heps.
  assert (Hstep : forall j s, jacobi_inv A b N eps j s ->
            guard nmax eps s = true ->
            (j < Z.to_nat nmax)%nat /\
            exists s', jacobi_body A (Float64 b) N s = OK s' /\
                       jacobi_inv A b N eps (S j) s').
  { intros j s HI Hg. split; [| apply f64_jacobi_body_inv; assumption].
    destruct HI as (Hit & _). apply f64_guard_true in Hg. lia. }
  destruct (while_spec (guard nmax eps) (jacobi_body A (Float64 b) N)
              (jacobi_inv A b N eps) (Z.to_nat nmax) Hstep
              (Z.to_nat nmax) O (initial (Float64 b) eps))
    as (n & s & Hw & Hit & HI & Hc & Hm); [| lia |].
  { destruct Hs as (_ & _ & Hb). cbn [size] in Hb.
    unfold jacobi_inv, initial. cbn [l_it l_tol l_x l_x_old ones_like zeros_like].
    split; [reflexivity|]. split; [reflexivity|]. split; [reflexivity|].
    exists (map (fun _ => 0) b). rewrite length_map.
    split; [reflexivity|]. split; [exact Hb|].
    split; [reflexivity | intros H; lia]. }
  cbn [Nat.add] in HI, Hm.
  assert (En : n = Z.to_nat nmax).
  { destruct HI as (Hi & Ht & _).
    apply f64_guard_false in Hc. rewrite Ht, Heps in Hc.
    destruct Hc as [Hc | Hc]; [| discriminate Hc].
    destruct n as [|n]; [lia|].
    destruct (Hm n) as (sm & _ & (Him & _) & Hgm); [lia|].
    apply f64_guard_true in Hgm. lia. }
  subst n. exists s.
  split; [exact Hw|]. split; [exact Hit|]. split; [exact HI | exact Hm].
Qed.

(** C10, as it holds of the code.  On float64 arrays of matching shape, for
    a tolerance for which the binary64 test [eps+1 > eps] holds and for
    [nmax >= 1], the loop of [jacobi] runs exactly [nmax] times: after [k]
    runs the guard still holds exactly when [k < nmax]; at every run
    [x_old] is the all-ones array it was at the start; from the first run
    on [x] is one sweep of the code from the all-ones array; and the call
    returns that array, whatever [nmax] is, printing [nmax] and the norm of
    its residual. *)
Theorem jacobi_returns_single_sweep
  (A : matrix) (b : list float) (N : nat) (nmax : Z) (eps : float) :
  shaped A (Float64 b) N -> (eps <? eps + 1) = true -> (1 <= nmax)%Z ->
  (exists res,
     residual A (Float64 b) (Float64 (jacobi_step A b N)) = OK res /\
     jacobi A (Float64 b) nmax eps
     = OK (mkOutcome nmax (norm2 res) (Float64 (jacobi_step A b N)))) /\
  (forall k, (k <= Z.to_nat nmax)%nat ->
     exists s,
       iterate k (jacobi_body A (Float64 b) N) (initial (Float64 b) eps)
       = OK s /\
       l_x_old s = ones_like (Float64 b) /\
       guard nmax eps s = (Z.of_nat k <? nmax)%Z /\
       ((1 <= k)%nat -> l_x s = Float64 (jacobi_step A b N))) /\
  (forall i, (i < N)%nat ->
     nth i (jacobi_step A b N) 0
     = 1 / entry A i i
       * (nth i b 0
          - sum_products (cut (nth i A []) 0 i) (cut (map (fun _ => 1) b) 0 i)
          - sum_products (cut (nth i A []) (i + 1) N)
              (cut (map (fun _ => 1) b) (i + 1) N))).
Proof.
  intros Hs Heps Hn.
  destruct (f64_jacobi_loop A b N nmax eps Hs Heps) as (s & Hw & Hit & HI & Hm).
  split; [| split].
  - destruct HI as (Hi & _ & _ & x & Hx & _ & _ & Hstep).
    rewrite (Hstep ltac:(lia)) in Hx.
    destruct (f64_residual_ok A b (jacobi_step A b N) N Hs
                (length_jacobi_step_f64 A b N)) as (res & Hres & _).
    exists res. split; [exact Hres|].
    unfold jacobi. destruct Hs as (HA & _). rewrite HA.
    fold (initial (Float64 b) eps). rewrite Hw. cbn [bind].
    rewrite Hx, Hres. cbn [bind]. rewrite Hi, Z2Nat.id by lia. reflexivity.
  - intros k Hk.
    assert (Hk' : (k < Z.to_nat nmax)%nat \/ k = Z.to_nat nmax) by lia.
    destruct Hk' as [Hlt | ->].
    + destruct (Hm k Hlt) as (sm & Hsm & HIm & Hg).
      exists sm. destruct HIm as (_ & _ & Hold & x & Hx & _ & _ & Hstep).
      split; [exact Hsm|]. split; [exact Hold|].
      split; [rewrite Hg; symmetry; apply Z.ltb_lt; lia|].
      intros H1. rewrite Hx, (Hstep H1). reflexivity.
    + exists s. destruct HI as (Hi & Ht & Hold & x & Hx & _ & _ & Hstep).
      split; [exact Hit|]. split; [exact Hold|].
      split.
      * unfold guard. rewrite Hi, Z2Nat.id, Z.ltb_irrefl by lia. reflexivity.
      * intros H1. rewrite Hx, (Hstep H1). reflexivity.
  - intros i Hi. unfold jacobi_step.
    rewrite (nth_map_seq _ N i 0 Hi). reflexivity.
Qed.

(** The theorem at a three by three system, whose sweep reads [x_old] in
    every row, with cap 7 and the default tolerance. *)
Lemma jacobi_returns_single_sweep_witness :
  let A := [[4; 1; 0]; [1; 4; 1]; [0; 1; 4]] in
  let b := [1; 2; 3] in
  shaped A (Float64 b) 3 /\ (default_eps <? default_eps + 1) = true /\
  (1 <= 7)%Z /\
  ((exists res,
      residual A (Float64 b) (Float64 (jacobi_step A b 3)) = OK res /\
      jacobi A (Float64 b) 7 default_eps
      = OK (mkOutcome 7 (norm2 res) (Float64 (jacobi_step A b 3)))) /\
   (forall k, (k <= Z.to_nat 7)%nat ->
      exists s,
        iterate k (jacobi_body A (Float64 b) 3)
          (initial (Float64 b) default_eps) = OK s /\
        l_x_old s = ones_like (Float64 b) /\
        guard 7 default_eps s = (Z.of_nat k <? 7)%Z /\
        ((1 <= k)%nat -> l_x s = Float64 (jacobi_step A b 3))) /\
   (forall i, (i < 3)%nat ->
      nth i (jacobi_step A b 3) 0
      = 1 / entry A i i
        * (nth i b 0
           - sum_products (cut (nth i A []) 0 i)
               (cut (map (fun _ => 1) b) 0 i)
           - sum_products (cut (nth i A []) (i + 1) 3)
               (cut (map (fun _ => 1) b) (i + 1) 3)))).
Proof.
  intros A b.
  assert (H1 : shaped A (Float64 b) 3) by apply shaped_3.
  assert (H2 : (default_eps <? default_eps + 1) = true) by reflexivity.
  assert (H3 : (1 <= 7)%Z) by lia.
  split; [exact H1|]. split; [exact H2|]. split; [exact H3|].
  exact (jacobi_returns_single_sweep A b 3 7 default_eps H1 H2 H3).
Defined.

(** On that system the sweep from the array of ones gives
    [[0, 0, 0.5]], whatever the cap. *)
Example jacobi_three_by_three :
  jacobi_step [[4; 1; 0]; [1; 4; 1]; [0; 1; 4]] [1; 2; 3] 3 = [0; 0; 0.5] /\
  (exists tol,
     jacobi [[4; 1; 0]; [1; 4; 1]; [0; 1; 4]] (Float64 [1; 2; 3]) 7
       default_eps = OK (mkOutcome 7 tol (Float64 [0; 0; 0.5])) /\
     jacobi [[4; 1; 0]; [1; 4; 1]; [0; 1; 4]] (Float64 [1; 2; 3]) 1
       default_eps = OK (mkOutcome 1 tol (Float64 [0; 0; 0.5]))).
Proof.
  split; [vm_compute; reflexivity|].
  eexists. split; vm_compute; reflexivity.
Qed.

(** C10, where the claim fails.  For [eps = 1e16], which is not negative,
    the sum [eps+1] is rounded to [eps], the guard fails before the first
    sweep, and [jacobi] on [2 x = 4] with cap 3 runs no sweep: it prints 0
    and returns the array of zeros, where one sweep from the all-ones array
    gives [2], as the call with the default tolerance returns.  And for an
    int64 right-hand side the arrays [x] and [x_old] are int64 too: on
    [2 x = 3] the sweep computes [1.5] and stores [1]. *)
Lemma jacobi_runs_no_sweep_for_large_eps :
  (0 <=? 1e16) = true /\ (1e16 <? 1e16 + 1) = false /\
  jacobi [[2]] (Float64 [4]) 3 1e16 = OK (mkOutcome 0 4 (Float64 [0])) /\
  jacobi_step [[2]] [4] 1 = [2] /\
  jacobi [[2]] (Float64 [4]) 3 default_eps = OK (mkOutcome 3 0 (Float64 [2])) /\
  jacobi_step [[2]] [3] 1 = [1.5] /\
  jacobi [[2]] (Int64 [3%Z]) 1 default_eps = OK (mkOutcome 1 1 (Int64 [1%Z])).
Proof.
  repeat split; vm_compute; reflexivity.
Qed.

(** X3. [jacobi] reads its tolerance in one place only, the test [tol>eps]
    with [tol = eps+1], [tol] being set before the loop and not again inside
    it: two tolerances for which that test has the same value
    give the same outcome, printed numbers, returned array or exception, on
    every input. *)
Theorem jacobi_reads_eps_in_one_test (A : matrix) (b : ndarray) (nmax : Z)
  (eps eps' : float) :
  (eps <? eps + 1) = (eps' <? eps' + 1) ->
  jacobi A b nmax eps = jacobi A b nmax eps'.
Proof.
  intros Heps. unfold jacobi.
  set (Rel := fun s1 s2 : locals =>
                l_it s1 = l_it s2 /\ l_x s1 = l_x s2 /\
                l_x_old s1 = l_x_old s2 /\
                l_tol s1 = eps + 1 /\ l_tol s2 = eps' + 1).
  assert (Hc : forall s1 s2, Rel s1 s2 ->
                 guard nmax eps s1 = guard nmax eps' s2).
  { intros s1 s2 (Hi & _ & _ & H1 & H2). unfold guard.
    rewrite Hi, H1, H2, Heps. reflexivity. }
  assert (Hb : forall s1 s2, Rel s1 s2 ->
     match jacobi_body A b (length A) s1, jacobi_body A b (length A) s2 with
     | OK a1, OK a2 => Rel a1 a2
     | Raise e1, Raise e2 => e1 = e2
     | OutOfFuel, OutOfFuel => True
     | _, _ => False
     end).
  { intros s1 s2 (Hi & Hx & Ho & H1 & H2). unfold jacobi_body.
    rewrite Hi, Hx, Ho.
    destruct (for_ (range (length A))
                (jacobi_assign A b (length A) (l_x_old s2)) (l_x s2));
      cbn [bind]; auto.
    unfold Rel. cbn [l_it l_tol l_x l_x_old]. auto. }
  assert (H := while_related Rel (guard nmax eps) (guard nmax eps')
                 (jacobi_body A b (length A)) Hc Hb (Z.to_nat nmax)
                 (mkLocals 0 (eps + 1) (zeros_like b) (ones_like b))
                 (mkLocals 0 (eps' + 1) (zeros_like b) (ones_like b))).
  assert (H0 : Rel (mkLocals 0 (eps + 1) (zeros_like b) (ones_like b))
                   (mkLocals 0 (eps' + 1) (zeros_like b) (ones_like b))).
  { unfold Rel. cbn [l_it l_tol l_x l_x_old]. auto. }
  specialize (H H0).
  destruct (while_ (Z.to_nat nmax) (guard nmax eps) _ _) as [a1| e1 |],
           (while_ (Z.to_nat nmax) (guard nmax eps') _ _) as [a2| e2 |];
    cbn [bind]; try contradiction; try congruence.
  destruct H as (Hi & Hx & _). rewrite Hi, Hx. reflexivity.
Qed.

Lemma jacobi_reads_eps_in_one_test_witness :
  (default_eps <? default_eps + 1) = (1 <? 1 + 1) /\
  jacobi [[4; 1; 0]; [1; 4; 1]; [0; 1; 4]] (Float64 [1; 2; 3]) 7 default_eps
  = jacobi [[4; 1; 0]; [1; 4; 1]; [0; 1; 4]] (Float64 [1; 2; 3]) 7 1.
Proof.
  split; [reflexivity|].
  apply (jacobi_reads_eps_in_one_test
           [[4; 1; 0]; [1; 4; 1]; [0; 1; 4]] (Float64 [1; 2; 3]) 7
           default_eps 1).
  reflexivity.
Defined.

(** ** A right-hand side of the wrong length *)

Lemma f64_guard_initial (nmax : Z) (eps : float) (b : ndarray) :
  guard nmax eps (initial b eps) = (1 <=? nmax)%Z && (eps <? eps + 1).
Proof.
  unfold guard, initial. cbn [l_it l_tol]. f_equal.
  destruct (Z.ltb_spec 0 nmax), (Z.leb_spec 1 nmax); try reflexivity; lia.
Qed.

Lemma f64_dot_mismatch (u v : list float) :
  length u <> length v -> dot u v = Raise ValueError.
Proof.
  intros H. unfold dot.
  destruct (Nat.eqb_spec (length u) (length v)); [contradiction | reflexivity].
Qed.

Lemma f64_residual_mismatch (A : matrix) (b x : list float) :
  (1 <= length A)%nat -> length (nth 0 A []) <> length x ->
  residual A (Float64 b) (Float64 x) = Raise ValueError.
Proof.
  intros H1 H2. unfold residual. cbn [astype_float64].
  destruct A as [|row A]; [simpl in H1; lia|].
  cbn [matvec]. cbn [nth] in H2.
  rewrite f64_dot_mismatch by exact H2. reflexivity.
Qed.

(** The first assignment of a sweep when [b] is shorter than [A]. *)
Lemma f64_first_assign_short (A : matrix) (b x_old x : list float) :
  length (nth 0 A []) = length A ->
  (length b < length A)%nat -> length x_old = length b ->
  jacobi_assign A (Float64 b) (length A) (Float64 x_old) 0 (Float64 x)
  = Raise (if (length b =? 0)%nat then IndexError else ValueError).
Proof.
  intros Hrow Hlt Hold.
  unfold jacobi_assign, rowslice, slice. cbn [astype_float64].
  rewrite f64_getitem2_ok by lia. cbn [bind].
  destruct b as [|b0 b]; [reflexivity|].
  cbn [length Nat.eqb].
  rewrite f64_getitem_ok by (simpl; lia). cbn [bind].
  rewrite f64_getrow_ok by lia. cbn [bind].
  change (cut (nth 0 A []) 0 0) with (@nil float).
  change (cut x_old 0 0) with (@nil float).
  change (dot [] []) with (OK (T := float) 0). cbn [bind].
  rewrite f64_dot_mismatch; [reflexivity|].
  rewrite length_cut by lia.
  unfold cut. rewrite length_skipn, firstn_all2 by (simpl in *; lia).
  simpl in *. lia.
Qed.

Lemma f64_first_assign_short_gs (A : matrix) (b : ndarray)
  (x_old x : list float) :
  gauss_seidel_assign A b (length A) (Float64 x_old) 0 (Float64 x)
  = jacobi_assign A b (length A) (Float64 x_old) 0 (Float64 x).
Proof. reflexivity. Qed.

(** An assignment of a sweep when [b] is longer than [A]. *)
Lemma f64_assign_long (A : matrix) (b x_old x : list float) (i : nat)
  (gs : bool) :
  square A -> (length A < length b)%nat ->
  length x_old = length b -> length x = length b -> (i < length A)%nat ->
  exists x',
    (if gs
     then gauss_seidel_assign A (Float64 b) (length A) (Float64 x_old) i
            (Float64 x)
     else jacobi_assign A (Float64 b) (length A) (Float64 x_old) i
            (Float64 x)) = OK (Float64 x') /\
    length x' = length b.
Proof.
  intros Hsq Hlt Hold Hx Hi.
  assert (Hrow : length (nth i A []) = length A) by (apply Hsq; exact Hi).
  destruct gs.
  - unfold gauss_seidel_assign, rowslice, slice. cbn [astype_float64].
    rewrite f64_getitem2_ok by lia. cbn [bind].
    rewrite f64_getitem_ok by lia. cbn [bind].
    rewrite f64_getrow_ok by lia. cbn [bind].
    rewrite dot_cut by lia. cbn [bind].
    rewrite dot_cut by lia. cbn [bind].
    rewrite f64_setitem_ok by lia.
    eexists. split; [reflexivity|]. rewrite length_upd. exact Hx.
  - unfold jacobi_assign, rowslice, slice. cbn [astype_float64].
    rewrite f64_getitem2_ok by lia. cbn [bind].
    rewrite f64_getitem_ok by lia. cbn [bind].
    rewrite f64_getrow_ok by lia. cbn [bind].
    rewrite dot_cut by lia. cbn [bind].
    rewrite dot_cut by lia. cbn [bind].
    rewrite f64_setitem_ok by lia.
    eexists. split; [reflexivity|]. rewrite length_upd. exact Hx.
Qed.

(** A sweep over rows that all succeed keeps the length of [x]. *)
Lemma f64_for_keeps_length (body : nat -> ndarray -> result ndarray)
  (M : nat) (l : list nat) (P : nat -> Prop) :
  (forall i x, P i -> length x = M ->
     exists x', body i (Float64 x) = OK (Float64 x') /\ length x' = M) ->
  (forall i, In i l -> P i) ->
  forall x, length x = M ->
  exists x', for_ l body (Float64 x) = OK (Float64 x') /\ length x' = M.
Proof.
  intros Hb. induction l as [|i l IH]; intros Hl x Hx.
  - exists x. split; [reflexivity | exact Hx].
  - destruct (Hb i x (Hl i (or_introl eq_refl)) Hx) as (x1 & H1 & Hx1).
    destruct (IH (fun j Hj => Hl j (or_intror Hj)) x1 Hx1) as (x2 & H2 & Hx2).
    exists x2. cbn [for_]. rewrite H1. cbn [bind]. split; assumption.
Qed.

Lemma f64_sweep_long (A : matrix) (b x_old x : list float) (gs : bool) :
  square A -> (length A < length b)%nat ->
  length x_old = length b -> length x = length b ->
  exists x',
    for_ (range (length A))
      (if gs
       then gauss_seidel_assign A (Float64 b) (length A) (Float64 x_old)
       else jacobi_assign A (Float64 b) (length A) (Float64 x_old))
      (Float64 x) = OK (Float64 x') /\
    length x' = length b.
Proof.
  intros Hsq Hlt Hold Hx.
  apply (f64_for_keeps_length _ (length b) (range (length A))
           (fun i => (i < length A)%nat)).
  - intros i y Hi Hy.
    destruct (f64_assign_long A b x_old y i gs Hsq Hlt Hold Hy Hi)
      as (x' & H1 & H2).
    exists x'. destruct gs; split; assumption.
  - intros i Hi. unfold range in Hi. apply in_seq in Hi. lia.
  - exact Hx.
Qed.

(** X4. [jacobi] on a square float64 matrix and a float64 right-hand side of
    another length always ends in an exception: [IndexError] from [b[0]]
    when [b] is empty and a sweep runs, that is when the cap is at least
    one and the test [eps+1 > eps] holds; [ValueError] from a [dot] of
    operands of different lengths otherwise, in the sweep or in the
    residual after the loop.  It never returns an array. *)
Theorem jacobi_rhs_length_mismatch (A : matrix) (b : list float) (nmax : Z)
  (eps : float) :
  (1 <= length A)%nat -> square A -> length b <> length A ->
  jacobi A (Float64 b) nmax eps
  = Raise (if (1 <=? nmax)%Z && (eps <? eps + 1) && (length b =? 0)%nat
           then IndexError else ValueError).
Proof.
  intros HN Hsq Hne.
  assert (Hrow : length (nth 0 A []) = length A) by (apply Hsq; lia).
  unfold jacobi. fold (initial (Float64 b) eps).
  destruct ((1 <=? nmax)%Z && (eps <? eps + 1)) eqn:Hg; cbn [andb].
  - assert (Hn : (1 <= nmax)%Z).
    { apply andb_true_iff in Hg. destruct Hg as [Hg _].
      apply Z.leb_le. exact Hg. }
    destruct (Nat.lt_ge_cases (length b) (length A)) as [Hlt|Hge].
    + (* the first assignment of the first sweep raises *)
      destruct (Z.to_nat nmax) as [|fuel] eqn:Ef; [lia|].
      rewrite while_step by (rewrite f64_guard_initial; exact Hg).
      unfold jacobi_body, initial, zeros_like, ones_like.
      cbn [l_x l_x_old].
      rewrite for_range_first by exact HN.
      rewrite f64_first_assign_short;
        [| exact Hrow | exact Hlt | apply length_map].
      destruct (length b =? 0)%nat; reflexivity.
    + (* every sweep succeeds, the residual raises *)
      assert (Hlt : (length A < length b)%nat) by lia.
      replace (length b =? 0)%nat with false
        by (symmetry; apply Nat.eqb_neq; lia).
      set (Inv := fun (j : nat) (s : locals) =>
                    l_it s = Z.of_nat j /\
                    exists x x_old,
                      l_x s = Float64 x /\ l_x_old s = Float64 x_old /\
                      length x = length b /\ length x_old = length b).
      destruct (while_spec (guard nmax eps)
                  (jacobi_body A (Float64 b) (length A))
                  Inv (Z.to_nat nmax)) with (fuel := Z.to_nat nmax)
                  (j := O) (s := initial (Float64 b) eps)
        as (n & s' & Hw & _ & HI & _).
      * intros j s (Hit & x & x_old & Ex & Eo & Hx & Hold) Hgs.
        apply f64_guard_true in Hgs. destruct Hgs as [Hgs _].
        split; [lia|].
        destruct (f64_sweep_long A b x_old x false Hsq Hlt Hold Hx)
          as (x' & Hf & Hx').
        unfold jacobi_body. rewrite Ex, Eo, Hf. cbn [bind].
        eexists. split; [reflexivity|].
        unfold Inv. cbn [l_it l_x l_x_old]. split; [lia|].
        exists x', x_old. repeat split; assumption.
      * unfold Inv, initial, zeros_like, ones_like. cbn [l_it l_x l_x_old].
        split; [reflexivity|]. eexists. eexists.
        split; [reflexivity|]. split; [reflexivity|].
        rewrite !length_map. split; reflexivity.
      * lia.
      * rewrite Hw. cbn [bind].
        destruct HI as (_ & x & x_old & Ex & _ & Hx & _). rewrite Ex.
        rewrite f64_residual_mismatch by lia. reflexivity.
  - rewrite while_stop by (rewrite f64_guard_initial; exact Hg).
    unfold initial, zeros_like. cbn [bind l_x].
    rewrite f64_residual_mismatch; [reflexivity | lia |].
    rewrite length_map. lia.
Qed.

Lemma f64_square_2 (a11 a12 a21 a22 : float) :
  square [[a11; a12]; [a21; a22]].
Proof. intros [|[|i]] H; simpl in *; try reflexivity; lia. Qed.

Lemma jacobi_rhs_length_mismatch_witness :
  (1 <= length [[1; 0]; [0; 1]])%nat /\
  jacobi [[1; 0]; [0; 1]] (Float64 [5]) 3 default_eps = Raise ValueError /\
  jacobi [[1; 0]; [0; 1]] (Float64 []) 3 default_eps = Raise IndexError /\
  jacobi [[1; 0]; [0; 1]] (Float64 []) 3 1e16 = Raise ValueError.
Proof.
  split; [simpl; lia|]. split; [| split].
  - apply (jacobi_rhs_length_mismatch [[1; 0]; [0; 1]] [5] 3 default_eps).
    + simpl. lia.
    + apply f64_square_2.
    + simpl. lia.
  - apply (jacobi_rhs_length_mismatch [[1; 0]; [0; 1]] [] 3 default_eps).
    + simpl. lia.
    + apply f64_square_2.
    + simpl. lia.
  - apply (jacobi_rhs_length_mismatch [[1; 0]; [0; 1]] [] 3 1e16).
    + simpl. lia.
    + apply f64_square_2.
    + simpl. lia.
Defined.

(** X5. [gauss_seidel] with a cap of at least one and a tolerance for which
    the test [eps+1 > eps] holds, on a square float64 matrix and a float64
    right-hand side of another length, ends in an exception in its first
    sweep: [IndexError] when [b] is empty, [ValueError] otherwise. *)
Theorem gauss_seidel_rhs_length_mismatch (A : matrix) (b : list float)
  (nmax : Z) (eps : float) :
  (1 <= length A)%nat -> square A -> length b <> length A ->
  (1 <= nmax)%Z -> (eps <? eps + 1) = true ->
  gauss_seidel A (Float64 b) nmax eps
  = Raise (if (length b =? 0)%nat then IndexError else ValueError).
Proof.
  intros HN Hsq Hne Hn Heps.
  assert (Hrow : length (nth 0 A []) = length A) by (apply Hsq; lia).
  unfold gauss_seidel. fold (initial (Float64 b) eps).
  destruct (Z.to_nat nmax) as [|fuel] eqn:Ef; [lia|].
  rewrite while_step
    by (rewrite f64_guard_initial, Heps, andb_true_r; apply Z.leb_le; exact Hn).
  unfold gauss_seidel_body, initial, zeros_like, ones_like.
  cbn [l_x l_x_old].
  destruct (Nat.lt_ge_cases (length b) (length A)) as [Hlt|Hge].
  - rewrite for_range_first by exact HN.
    rewrite f64_first_assign_short_gs.
    rewrite f64_first_assign_short;
      [| exact Hrow | exact Hlt | apply length_map].
    destruct (length b =? 0)%nat; reflexivity.
  - assert (Hlt : (length A < length b)%nat) by lia.
    replace (length b =? 0)%nat with false
      by (symmetry; apply Nat.eqb_neq; lia).
    destruct (f64_sweep_long A b (map (fun _ => 1) b) (map (fun _ => 0) b)
                true Hsq Hlt)
      as (x' & Hf & Hx').
    { apply length_map. }
    { apply length_map. }
    rewrite Hf. cbn [bind].
    rewrite f64_residual_mismatch by lia. reflexivity.
Qed.

Lemma gauss_seidel_rhs_length_mismatch_witness :
  (default_eps <? default_eps + 1) = true /\
  gauss_seidel [[1; 0]; [0; 1]] (Float64 []) 3 default_eps
  = Raise IndexError /\
  gauss_seidel [[1; 0]; [0; 1]] (Float64 [5; 6; 7]) 3 default_eps
  = Raise ValueError.
Proof.
  split; [reflexivity|]. split.
  - apply (gauss_seidel_rhs_length_mismatch [[1; 0]; [0; 1]] [] 3
             default_eps).
    + simpl. lia.
    + apply f64_square_2.
    + simpl. lia.
    + lia.
    + reflexivity.
  - apply (gauss_seidel_rhs_length_mismatch [[1; 0]; [0; 1]] [5; 6; 7] 3
             default_eps).
    + simpl. lia.
    + apply f64_square_2.
    + simpl. lia.
    + lia.
    + reflexivity.
Defined.

End B64Facts.
